(** * TestRunner: dependency-aware scheduling and queued-message draining

    A shallow embedding of [tools/rdm/TestRunner.py]: the property store
    ([DeviceProperties]), the queued message fetcher
    ([QueuedMessageFetcher]) and the runner itself ([TestRunner]:
    registration, instantiation of the selected tests with their
    dependencies, the topological sort and the run loop).

    Python objects are identified by natural numbers; a reference that may
    be [None] is an [option nat].  Dicts are [gmap]s, sets are [gset]s.
    The order in which a dict is iterated and the element a set hands out
    on [pop()] are left to the interpreter by the language: they are
    parameters of the model. *)

From stdpp Require Import gmap strings list fin_maps fin_sets relations.

(** ** Exceptions and results *)

Inductive Exn :=
  | DuplicatePropertyException (property : string)
  | MissingPropertyException (property : string)
  | CircularDepdendancyException (dep_class : nat) (new_parents : list nat)
  | AttributeError (property : string)
  | KeyError
  | ValueError.

(** The outcome of a call: it returns, it raises, or the model ran out of
    fuel (recursion and loops are bounded by a fuel argument). *)
Inductive Result (A : Type) :=
  | Returned (a : A)
  | Raised (e : Exn)
  | OutOfFuel.

Arguments Returned {A} a.
Arguments Raised {A} e.
Arguments OutOfFuel {A}.

#[global] Instance Result_bind : MBind Result := λ A B k r,
  match r with
  | Returned a => k a
  | Raised e => Raised e
  | OutOfFuel => OutOfFuel
  end.

(** ** TestRunner._TopologicalSort *)

(** [list.remove(x)]: drops the first occurrence, [ValueError] when there
    is none. *)
Fixpoint list_remove_first `{EqDecision A} (x : A) (l : list A)
    : Result (list A) :=
  match l with
  | [] => Raised ValueError
  | y :: l' =>
      if decide (x = y) then Returned l'
      else l'' ← list_remove_first x l' ; Returned (y :: l'')
  end.

Section TopologicalSort.
Context `{Countable K}.

(** [dict.iteritems()]: the items of the dict, in the interpreter's order. *)
Variable iteritems : gmap K (gset K) → list (K * gset K).
(** [set.pop()]: the element the interpreter hands out, [None] on the
    empty set (where Python raises [KeyError]). *)
Variable pop : gset K → option K.

(** The body of [for test in remaining_tests], threading [deps_dict],
    [no_deps] and [remove_list]. *)
Fixpoint discard_loop (current_test : K) (remaining_tests : list K)
    (deps_dict : gmap K (gset K)) (no_deps : gset K) (remove_list : list K)
    : Result (gmap K (gset K) * gset K * list K) :=
  match remaining_tests with
  | [] => Returned (deps_dict, no_deps, remove_list)
  | test :: rest =>
      match deps_dict !! test with
      | None => Raised KeyError
      | Some deps =>
          let deps := deps ∖ {[current_test]} in
          let deps_dict := <[test := deps]> deps_dict in
          if decide (size deps = 0) then
            discard_loop current_test rest deps_dict
                         (no_deps ∪ {[test]}) (remove_list ++ [test])
          else
            discard_loop current_test rest deps_dict no_deps remove_list
      end
  end.

(** [for test in remove_list: remaining_tests.remove(test)] *)
Fixpoint remove_loop (remove_list remaining_tests : list K)
    : Result (list K) :=
  match remove_list with
  | [] => Returned remaining_tests
  | test :: rest =>
      remaining_tests ← list_remove_first test remaining_tests ;
      remove_loop rest remaining_tests
  end.

(** [while len(no_deps) > 0: ...] *)
Fixpoint sort_loop (fuel : nat) (tests remaining_tests : list K)
    (no_deps : gset K) (deps_dict : gmap K (gset K)) : Result (list K) :=
  if decide (0 < size no_deps) then
    match fuel with
    | 0 => OutOfFuel
    | S fuel =>
        match pop no_deps with
        | None => Raised KeyError
        | Some current_test =>
            let no_deps := no_deps ∖ {[current_test]} in
            let tests := tests ++ [current_test] in
            '(deps_dict, no_deps, remove_list) ←
               discard_loop current_test remaining_tests deps_dict no_deps [] ;
            remaining_tests ← remove_loop remove_list remaining_tests ;
            sort_loop fuel tests remaining_tests no_deps deps_dict
        end
    end
  else Returned tests.

Definition TopologicalSort (deps_dict : gmap K (gset K)) : Result (list K) :=
  let remaining_tests :=
    (filter (λ item, size item.2 ≠ 0) (iteritems deps_dict)).*1 in
  let no_deps : gset K :=
    list_to_set (filter (λ item, size item.2 = 0) (iteritems deps_dict)).*1 in
  sort_loop (size deps_dict) [] remaining_tests no_deps deps_dict.

End TopologicalSort.

(** *** What the sort is asked to respect *)

Section Graph.
Context `{Countable K}.

(** [depends m t d]: [d] is in the dependency set recorded for [t]. *)
Definition depends (m : gmap K (gset K)) (t d : K) : Prop :=
  ∃ ds, m !! t = Some ds ∧ d ∈ ds.

(** A resolved graph: every dependency is itself an instance of the graph. *)
Definition resolved (m : gmap K (gset K)) : Prop :=
  ∀ t d, depends m t d → d ∈ dom m.

Definition acyclic (m : gmap K (gset K)) : Prop :=
  ∀ t, ¬ tc (depends m) t t.

(** [d] occurs at a strictly smaller index than [t]. *)
Definition before (d t : K) (l : list K) : Prop :=
  ∃ i j, l !! i = Some d ∧ l !! j = Some t ∧ i < j.

(** The loop invariant of [sort_loop], relative to the dict [m0] the sort
    was called with: every instance is scheduled, ready or waiting; a
    waiting instance still has the dependencies that are not scheduled yet;
    a ready one has none left; the scheduled ones are in dependency order. *)
Record sort_inv (m0 : gmap K (gset K)) (tests remaining_tests : list K)
    (no_deps : gset K) (deps_dict : gmap K (gset K)) : Prop := {
  inv_nodup : NoDup (tests ++ remaining_tests);
  inv_disj : ∀ t, t ∈ no_deps → (t ∉ tests) ∧ (t ∉ remaining_tests);
  inv_cover : ∀ t, t ∈ dom m0 ↔ t ∈ tests ∨ t ∈ no_deps ∨ t ∈ remaining_tests;
  inv_waiting : ∀ t, t ∈ remaining_tests →
    ∃ ds, m0 !! t = Some ds ∧
          deps_dict !! t = Some (ds ∖ list_to_set tests) ∧
          ds ∖ list_to_set tests ≠ ∅;
  inv_ready : ∀ t ds, t ∈ no_deps → m0 !! t = Some ds →
    ds ⊆ list_to_set tests;
  inv_sorted : ∀ i t ds, tests !! i = Some t → m0 !! t = Some ds →
    ds ⊆ list_to_set (take i tests);
}.
End Graph.

(** *** Two interpreters

    Any order is allowed for [iteritems] and any element for [pop]; these two
    interpreters differ only in the end of the set from which [pop] takes
    its element. *)

Definition iteritems_std `{Countable K} (m : gmap K (gset K))
    : list (K * gset K) :=
  map_to_list m.
Definition pop_first `{Countable K} (s : gset K) : option K :=
  head (elements s).
Definition pop_last `{Countable K} (s : gset K) : option K :=
  last (elements s).

(** A check that evaluates: every dependency is an instance of the graph
    and has a smaller identity than its dependent. *)
Definition well_ordered (m : gmap nat (gset nat)) : Prop :=
  map_Forall (λ t ds, set_Forall (λ d, d ∈ dom m ∧ d < t) ds) m.

(** Two independent instances. *)
Definition graph_pair : gmap nat (gset nat) := {[ 0 := ∅; 1 := ∅ ]}.

(** 1 depends on 0, 2 on 0 and 1; 3 is independent. *)
Definition graph_chain : gmap nat (gset nat) :=
  {[ 0 := ∅; 1 := {[0]}; 2 := {[0; 1]}; 3 := ∅ ]}.

(** 0 is independent; 1 and 2 depend on each other. *)
Definition graph_cycle : gmap nat (gset nat) :=
  {[ 0 := ∅; 1 := {[2]}; 2 := {[1]} ]}.

(** ** Values and log records *)

Inductive PyValue :=
  | PyInt (z : Z)
  | PyStr (s : string)
  | PyBool (b : bool)
  | PyNone
  | PyAttribute (name : string). (* an attribute of an object, by its name *)

(** One constructor per [logging] call of the file. *)
Inductive LogRecord :=
  | Warning_MultipleSets (property : string)
  | Error_LoopLimit (counter : Z)
  | Error_Status
  | Error_ResponseCode
  | Debug_AckTimer (ack_timer : Z)
  | Error_QueuedCount (queued_messages : Z)
  | Debug_TestOrder (tests : list (option nat))
  | Debug_Test (test : option nat)
  | Debug_PropertyNotFound (property : string)
  | Info_TestState (test : option nat).

(** ** DeviceProperties *)

Record DeviceProperties := {
  _property_names : list string;
  _properties : gmap string PyValue;
}.

Definition DeviceProperties_init (property_names : list string)
    : DeviceProperties :=
  {| _property_names := property_names; _properties := ∅ |}.

Definition DeviceProperties_getattr (self : DeviceProperties)
    (property : string) : Result PyValue :=
  if decide (property ∉ dom (_properties self)) then
    Raised (AttributeError property)
  else
    match _properties self !! property with
    | Some value => Returned value
    | None => Raised KeyError
    end.

(** The names that the class statement and [__init__] put where normal
    attribute lookup finds them: the two instance attributes that [__init__]
    creates with [object.__setattr__], the docstring of the class and its
    methods. *)
Definition DeviceProperties_attributes : list string :=
  ["_property_names"; "_properties"; "__doc__"; "__init__"; "__str__";
   "__repr__"; "__getattr__"; "__setattr__"].

(** [getattr(device, property)], and [device.property] alike: Python looks
    the name up as an attribute of the instance and of its class first, and
    calls [__getattr__] only when that finds nothing.  [found] tells which
    names normal lookup finds on a [DeviceProperties] object: the names
    above, and the names that every object has, which are the
    interpreter's.  It does not depend on the state of the object:
    [__setattr__] stores into the dict only, so that no instance attribute
    is created after [__init__].  Of the attribute found the model keeps the
    name. *)
Definition getattr (found : string → bool) (self : DeviceProperties)
    (property : string) : Result PyValue :=
  if found property then Returned (PyAttribute property)
  else DeviceProperties_getattr self property.

(** A name that [getattr] reads from the device without an exception:
    normal lookup finds it, or it is in the dict. *)
Definition readable (found : string → bool) (device : DeviceProperties)
    (property : string) : Prop :=
  found property = true ∨ property ∈ dom (_properties device).

(** An interpreter's lookup finds at least what the file defines. *)
Definition lookup_sound (found : string → bool) : Prop :=
  ∀ name, name ∈ DeviceProperties_attributes → found name = true.

(** The lookup that finds what the file defines and nothing else. *)
Definition found_source (name : string) : bool :=
  bool_decide (name ∈ DeviceProperties_attributes).

(** [__setattr__] writes to the log; the records it emits are appended to
    the log it is given. *)
Definition DeviceProperties_setattr (self : DeviceProperties)
    (property : string) (value : PyValue) (log : list LogRecord)
    : DeviceProperties * list LogRecord :=
  let log :=
    if decide (property ∈ dom (_properties self))
    then log ++ [Warning_MultipleSets property] else log in
  ({| _property_names := _property_names self;
      _properties := <[property := value]> (_properties self) |}, log).

(** Successive [setattr]s, as the body of a test performs them. *)
Fixpoint DeviceProperties_setattrs (sets : list (string * PyValue))
    (self : DeviceProperties) (log : list LogRecord)
    : DeviceProperties * list LogRecord :=
  match sets with
  | [] => (self, log)
  | (property, value) :: rest =>
      let '(self, log) := DeviceProperties_setattr self property value log in
      DeviceProperties_setattrs rest self log
  end.

(** ** Test classes

    Modelled from the spec: the test classes (subclasses of [ResponderTest])
    are not part of this file.  A class is identified by its index in the
    table of the classes of the program; it has a name, the lists [PROVIDES]
    and [DEPS] (of classes), the list its [Requires()] returns (fixed per
    class, as the spec assumes) and a body, of which the model keeps the
    properties it sets on the device. *)

Record TestClass := {
  __name__ : string;
  PROVIDES : list string;
  REQUIRES : list string;
  DEPS : list nat;
  BODY : list (string * PyValue);
}.

(** The base class: it provides, requires and sets nothing. *)
Definition ResponderTest : TestClass :=
  {| __name__ := "ResponderTest"; PROVIDES := []; REQUIRES := [];
     DEPS := []; BODY := [] |}.

#[global] Instance TestClass_inhabited : Inhabited TestClass :=
  populate ResponderTest.

(** ** TestRunner: registration *)

Record TestRunner := {
  _property_map : gmap string nat;
  _all_tests : list nat;
}.

Definition TestRunner_init : TestRunner :=
  {| _property_map := ∅; _all_tests := [] |}.

(** [for property in test_class.PROVIDES]: the dict as the loop leaves it,
    and the exception that ended the loop, if any. *)
Fixpoint register_loop (test_class : nat) (provides : list string)
    (property_map : gmap string nat) : gmap string nat * option Exn :=
  match provides with
  | [] => (property_map, None)
  | property :: rest =>
      if decide (property ∈ dom property_map) then
        (property_map, Some (DuplicatePropertyException property))
      else
        register_loop test_class rest (<[property := test_class]> property_map)
  end.

(** The runner is a mutable object: what [RegisterTest] did to it before
    raising stays done. *)
Definition RegisterTest (classes : list TestClass) (test_class : nat)
    (self : TestRunner) : TestRunner * Result unit :=
  match register_loop test_class (PROVIDES (classes !!! test_class))
                      (_property_map self) with
  | (property_map, Some e) =>
      ({| _property_map := property_map; _all_tests := _all_tests self |},
       Raised e)
  | (property_map, None) =>
      ({| _property_map := property_map;
          _all_tests := _all_tests self ++ [test_class] |}, Returned ())
  end.

(** ** TestRunner: instantiation of the tests and their dependencies *)

(** The locals [class_name_to_object] and [deps_map] of [_InstantiateTests],
    and the instances created so far: instance [i] is an instance of class
    [instances !! i].  An object reference is an [option nat], [None] being
    Python's [None]. *)
Record Resolution := {
  class_name_to_object : gmap nat (option nat);
  deps_map : gmap (option nat) (gset (option nat));
  instances : list nat;
}.

Definition Resolution_init : Resolution :=
  {| class_name_to_object := ∅; deps_map := ∅; instances := [] |}.

(** [for property in test_obj.Requires()] *)
Fixpoint requires_loop (property_map : gmap string nat)
    (requires : list string) (dep_classes : list nat) : Result (list nat) :=
  match requires with
  | [] => Returned dep_classes
  | property :: rest =>
      if decide (property ∉ dom property_map) then
        Raised (MissingPropertyException property)
      else
        match property_map !! property with
        | Some c => requires_loop property_map rest (dep_classes ++ [c])
        | None => Raised KeyError
        end
  end.

(** [for dep_class in dep_classes], with the recursive call as [AddTest]. *)
Fixpoint deps_loop
    (AddTest : Resolution → nat → list nat → Result (option nat * Resolution))
    (new_parents : list nat) (dep_classes : list nat) (st : Resolution)
    (dep_objects : list (option nat))
    : Result (list (option nat) * Resolution) :=
  match dep_classes with
  | [] => Returned (dep_objects, st)
  | dep_class :: rest =>
      if decide (dep_class ∈ new_parents) then
        Raised (CircularDepdendancyException dep_class new_parents)
      else
        '(obj, st) ← AddTest st dep_class new_parents ;
        deps_loop AddTest new_parents rest st (dep_objects ++ [obj])
  end.

Section Instantiate.
Variable classes : list TestClass.
Variable property_map : gmap string nat.

(** The classes an instance of [test_class] depends on, when each required
    property has a producer: the producers, then [DEPS]. *)
Definition dep_classes_of (test_class : nat) : Result (list nat) :=
  dep_classes ← requires_loop property_map
                  (REQUIRES (classes !!! test_class)) [] ;
  Returned (dep_classes ++ DEPS (classes !!! test_class)).

Fixpoint AddTest (fuel : nat) (st : Resolution) (test_class : nat)
    (parents : list nat) : Result (option nat * Resolution) :=
  match fuel with
  | 0 => OutOfFuel
  | S fuel =>
      match class_name_to_object st !! test_class with
      | Some obj => Returned (obj, st)
      | None =>
          let test_obj := length (instances st) in
          let st :=
            {| class_name_to_object :=
                 <[test_class := None]> (class_name_to_object st);
               deps_map := deps_map st;
               instances := instances st ++ [test_class] |} in
          let new_parents := parents ++ [test_class] in
          dep_classes ← dep_classes_of test_class ;
          '(dep_objects, st) ←
             deps_loop (AddTest fuel) new_parents dep_classes st [] ;
          Returned
            (Some test_obj,
             {| class_name_to_object :=
                  <[test_class := Some test_obj]> (class_name_to_object st);
                deps_map :=
                  <[Some test_obj := list_to_set dep_objects]> (deps_map st);
                instances := instances st |})
      end
  end.

(** [for test_class in tests_to_run] *)
Fixpoint instantiate_loop (fuel : nat) (tests_to_run : list nat)
    (st : Resolution) : Result Resolution :=
  match tests_to_run with
  | [] => Returned st
  | test_class :: rest =>
      '(_, st) ← AddTest fuel st test_class [] ;
      instantiate_loop fuel rest st
  end.

(** The recursion of [_AddTest] is at most as deep as there are classes. *)
Definition InstantiateTests (tests_to_run : list nat) : Result Resolution :=
  instantiate_loop (S (length classes)) tests_to_run Resolution_init.

End Instantiate.

(** *** The dependency relation on classes, and what instantiation keeps *)

Section ResolutionInvariant.
Variable classes : list TestClass.
Variable property_map : gmap string nat.

(** [class_dep c d]: an instance of [c] depends on one of [d], through a
    required property that [d] provides or through [DEPS]. *)
Definition class_dep (c d : nat) : Prop :=
  ∃ l, dep_classes_of classes property_map c = Returned l ∧ d ∈ l.

(** Every property required by [c], or by a class that [c] depends on
    directly or not, has a producer. *)
Definition producers_known (c : nat) : Prop :=
  ∀ d, rtc class_dep c d →
       ∃ l, dep_classes_of classes property_map d = Returned l.

(** The object recorded for a class; [None] while there is none. *)
Definition obj_of (memo : gmap nat (option nat)) (c : nat) : option nat :=
  default None (memo !! c).

(** The invariant of [_AddTest], on the path [parents] of the classes being
    added: the classes marked with [None] are those on the path; a class with
    an object has its instance, its entry in [deps_map] made of the objects of
    its dependencies, and dependencies that all have objects; no class was
    instantiated twice; [deps_map] has no other keys; and the classes with
    objects can be numbered so that dependencies have smaller numbers. *)
Record res_inv (parents : list nat) (st : Resolution) : Prop := {
  res_progress : ∀ c, class_name_to_object st !! c = Some None ↔ c ∈ parents;
  res_done : ∀ c o, class_name_to_object st !! c = Some (Some o) →
    instances st !! o = Some c ∧
    ∃ l, dep_classes_of classes property_map c = Returned l ∧
         deps_map st !! Some o
         = Some (list_to_set (obj_of (class_name_to_object st) <$> l)) ∧
         ∀ d, d ∈ l → ∃ od, class_name_to_object st !! d = Some (Some od);
  res_instances :
    NoDup (instances st) ∧
    ∀ c, c ∈ instances st → c ∈ dom (class_name_to_object st);
  res_keys : ∀ k, k ∈ dom (deps_map st) →
    ∃ o c, k = Some o ∧ class_name_to_object st !! c = Some (Some o);
  res_rank : ∃ rank : nat → nat, ∀ c o d,
    class_name_to_object st !! c = Some (Some o) → class_dep c d →
    rank d < rank c;
}.

(** What a call of [_AddTest] keeps of the state it was given. *)
Definition extends (st st' : Resolution) : Prop :=
  (∀ c o, class_name_to_object st !! c = Some (Some o) →
          class_name_to_object st' !! c = Some (Some o)) ∧
  instances st `prefix_of` instances st'.

(** What [_AddTest] does on class [c] with path [parents] from state [st]. *)
Definition AddTest_post (parents : list nat) (c : nat) (st : Resolution)
    (r : Result (option nat * Resolution)) : Prop :=
  match r with
  | Returned (obj, st') =>
      res_inv parents st' ∧ extends st st' ∧
      ∃ o, obj = Some o ∧ class_name_to_object st' !! c = Some (Some o)
  | Raised e =>
      ∃ d ps, e = CircularDepdendancyException d ps ∧
              tc class_dep d d ∧ (d ∈ parents ∨ rtc class_dep c d)
  | OutOfFuel => False
  end.

End ResolutionInvariant.

(** ** The world a run acts on

    Modelled from the spec: the event loop ([ClientWrapper]) and the RDM
    client ([RDMAPI]) are not part of this file.  The wrapper is a stop flag
    and a list of scheduled callbacks; [Run] clears the flag and iterates
    until it is set; [Stop] sets it; [StopIfNoEvents] sets it when nothing is
    scheduled; [AddEvent] schedules a callback; [Reset] clears the flag.
    [Get] sends one request and returns true; the loop later hands the
    answer to [_HandleResponse], exactly once per request.  The answers are
    the device's, one per request, in order: [responder n] answers request
    [n]. *)

Inductive ResponseCode := RDM_COMPLETED_OK | RDM_NOT_COMPLETED (code : Z).
Inductive ResponseType :=
  RDM_ACK | RDM_ACK_TIMER | RDM_NACK_REASON | RDM_ACK_OVERFLOW.
Inductive NackReason := NR_UNKNOWN_PID | NR_OTHER (reason : Z).
Inductive CommandClass := RDM_GET | RDM_SET | RDM_DISCOVERY.

#[global] Instance ResponseCode_eq_dec : EqDecision ResponseCode.
Proof. solve_decision. Defined.
#[global] Instance ResponseType_eq_dec : EqDecision ResponseType.
Proof. solve_decision. Defined.
#[global] Instance NackReason_eq_dec : EqDecision NackReason.
Proof. solve_decision. Defined.
#[global] Instance CommandClass_eq_dec : EqDecision CommandClass.
Proof. solve_decision. Defined.

(** The arguments of the callback: the fields of [response] the file reads,
    and [unpacked_data]: [None] is Python's [None], [Some l] a dict whose
    ['messages'] entry (the empty list when the key is missing) is [l]. *)
Record Response := {
  status_Succeeded : bool;
  response_code : ResponseCode;
  response_type : ResponseType;
  ack_timer : Z;
  nack_reason : NackReason;
  command_class : CommandClass;
  pid : Z;
  queued_messages : Z;
  unpacked_data : option (list PyValue);
}.

Record QueuedMessageFetcher := {
  _limit : Z;
  _counter : Z;
  _queued_message_pid : Z;
  _status_message_pid : Z;
}.

(** The one callback this file schedules on the wrapper. *)
Inductive Callback := cb_FetchQueuedMessage.

Record ClientWrapper := {
  _quit : bool;
  _events : list (Z * Callback);
}.

Record World := {
  fetcher : QueuedMessageFetcher;
  wrapper : ClientWrapper;
  in_flight : nat;            (* requests sent and not answered yet *)
  answered : nat;             (* requests answered so far *)
  log : list LogRecord;
  device : DeviceProperties;
  ran : list (option nat);    (* the instances whose [Run()] was called *)
}.

(** A computation on the world: it leaves a world behind whether it returns
    or raises. *)
Definition Prog (A : Type) : Type := World → World * Result A.

Definition set_counter (counter : Z) (w : World) : World :=
  {| fetcher := {| _limit := _limit (fetcher w); _counter := counter;
                   _queued_message_pid := _queued_message_pid (fetcher w);
                   _status_message_pid := _status_message_pid (fetcher w) |};
     wrapper := wrapper w; in_flight := in_flight w; answered := answered w;
     log := log w; device := device w; ran := ran w |}.

Definition set_wrapper (wr : ClientWrapper) (w : World) : World :=
  {| fetcher := fetcher w; wrapper := wr; in_flight := in_flight w;
     answered := answered w; log := log w; device := device w; ran := ran w |}.

Definition logging (r : LogRecord) (w : World) : World :=
  {| fetcher := fetcher w; wrapper := wrapper w; in_flight := in_flight w;
     answered := answered w; log := log w ++ [r]; device := device w;
     ran := ran w |}.

Definition set_device (d : DeviceProperties) (l : list LogRecord)
    (w : World) : World :=
  {| fetcher := fetcher w; wrapper := wrapper w; in_flight := in_flight w;
     answered := answered w; log := l; device := d; ran := ran w |}.

Definition Stop (w : World) : World :=
  set_wrapper {| _quit := true; _events := _events (wrapper w) |} w.

Definition StopIfNoEvents (w : World) : World :=
  if decide (length (_events (wrapper w)) = 0) then Stop w else w.

Definition Reset (w : World) : World :=
  set_wrapper {| _quit := false; _events := _events (wrapper w) |} w.

Definition AddEvent (time_in_ms : Z) (callback : Callback) (w : World)
    : World :=
  set_wrapper {| _quit := _quit (wrapper w);
                 _events := _events (wrapper w) ++ [(time_in_ms, callback)] |}
              w.

(** [self._api.Get(...)]: one more request in flight; returns true. *)
Definition api_Get (w : World) : World * bool :=
  ({| fetcher := fetcher w; wrapper := wrapper w;
      in_flight := S (in_flight w); answered := answered w; log := log w;
      device := device w; ran := ran w |}, true).

(** The loop takes one answer off the wire. *)
Definition take_answer (w : World) : World :=
  {| fetcher := fetcher w; wrapper := wrapper w;
     in_flight := pred (in_flight w); answered := S (answered w);
     log := log w; device := device w; ran := ran w |}.

(** ** QueuedMessageFetcher *)

(** Returns what the Python returns as a truth value: false for the bare
    [return], [Get]'s result otherwise. *)
Definition FetchQueuedMessage (w : World) : World * bool :=
  if decide (_counter (fetcher w) = _limit (fetcher w)) then
    let w := logging (Error_LoopLimit (_counter (fetcher w))) w in
    let w := Stop w in
    (w, false)
  else
    let w := set_counter (_counter (fetcher w) + 1)%Z w in
    api_Get w.

Definition HandleResponse (response : Response) : Prog unit := λ w,
  if negb (status_Succeeded response) then
    (StopIfNoEvents (logging Error_Status w), Returned ())
  else if decide (response_code response ≠ RDM_COMPLETED_OK) then
    (StopIfNoEvents (logging Error_ResponseCode w), Returned ())
  else if decide (response_type response = RDM_ACK_TIMER) then
    let w := logging (Debug_AckTimer (ack_timer response)) w in
    let w := AddEvent (ack_timer response) cb_FetchQueuedMessage w in
    (Reset w, Returned ())
  else if decide (response_type response = RDM_NACK_REASON ∧
                  nack_reason response = NR_UNKNOWN_PID ∧
                  command_class response = RDM_GET ∧
                  pid response = _queued_message_pid (fetcher w)) then
    (StopIfNoEvents w, Returned ())
  else if decide (response_type response = RDM_ACK ∧
                  command_class response = RDM_GET ∧
                  pid response = _status_message_pid (fetcher w)) then
    match unpacked_data response with
    | None => (w, Raised (AttributeError "get"))
    | Some [] =>
        let w := StopIfNoEvents w in
        if decide (queued_messages response ≠ 0%Z) then
          (logging (Error_QueuedCount (queued_messages response)) w,
           Returned ())
        else (w, Returned ())
    | Some (_ :: _) => ((FetchQueuedMessage w).1, Returned ())
    end
  else ((FetchQueuedMessage w).1, Returned ()).

Section Run.
Variable responder : nat → Response.

(** [while not self._quit]: an answer on the wire goes to
    [_HandleResponse]; otherwise a scheduled callback is called; otherwise
    the iteration does nothing. *)
Fixpoint Run_loop (fuel : nat) : Prog unit := λ w,
  if _quit (wrapper w) then (w, Returned ())
  else
    match fuel with
    | 0 => (w, OutOfFuel)
    | S fuel =>
        if decide (0 < in_flight w) then
          match HandleResponse (responder (answered w)) (take_answer w) with
          | (w, Returned _) => Run_loop fuel w
          | (w, Raised e) => (w, Raised e)
          | (w, OutOfFuel) => (w, OutOfFuel)
          end
        else
          match _events (wrapper w) with
          | (_, cb_FetchQueuedMessage) :: events =>
              let w :=
                set_wrapper {| _quit := _quit (wrapper w);
                               _events := events |} w in
              Run_loop fuel (FetchQueuedMessage w).1
          | [] => Run_loop fuel w
          end
    end.

Definition Run (fuel : nat) : Prog unit := λ w, Run_loop fuel (Reset w).

Definition FetchAllMessages (fuel : nat) : Prog unit := λ w,
  let w := set_counter 0%Z w in
  let '(w, sent) := FetchQueuedMessage w in
  if sent then Run fuel w else (w, Returned ()).

(** ** TestRunner.RunTests *)

Section RunTests.
Variable classes : list TestClass.
Variable iteritems :
  gmap (option nat) (gset (option nat)) →
  list (option nat * gset (option nat)).
Variable pop : gset (option nat) → option (option nat).
Variable found : string → bool.

(** The class of an instance; calling a method on anything else raises
    [AttributeError]. *)
Definition class_of (instances : list nat) (test : option nat)
    : Result TestClass :=
  match test ≫= (instances !!.) with
  | Some c => Returned (classes !!! c)
  | None => Raised (AttributeError "Requires")
  end.

(** [for property in test.Requires(): getattr(device, property)] under
    [try ... except AttributeError]: the property at which it was caught. *)
Fixpoint requires_check (device : DeviceProperties) (requires : list string)
    : Result (option string) :=
  match requires with
  | [] => Returned None
  | property :: rest =>
      match getattr found device property with
      | Returned _ => requires_check device rest
      | Raised (AttributeError _) => Returned (Some property)
      | Raised e => Raised e
      | OutOfFuel => OutOfFuel
      end
  end.

(** [test.Run()]: the body sets its properties on the device. *)
Definition test_Run (c : TestClass) (test : option nat) (w : World) : World :=
  let r := DeviceProperties_setattrs (BODY c) (device w) (log w) in
  {| fetcher := fetcher w; wrapper := wrapper w; in_flight := in_flight w;
     answered := answered w; log := r.2; device := r.1;
     ran := ran w ++ [test] |}.

(** [for test in tests] *)
Fixpoint run_loop (fuel : nat) (instances : list nat)
    (tests : list (option nat)) : Prog unit := λ w,
  match tests with
  | [] => (w, Returned ())
  | test :: rest =>
      match FetchAllMessages fuel w with
      | (w, Returned _) =>
          let w := logging (Debug_Test test) w in
          match class_of instances test with
          | Returned c =>
              match requires_check (device w) (REQUIRES c) with
              | Returned (Some property) =>
                  run_loop fuel instances rest
                           (logging (Debug_PropertyNotFound property) w)
              | Returned None =>
                  let w := test_Run c test w in
                  run_loop fuel instances rest
                           (logging (Info_TestState test) w)
              | Raised e => (w, Raised e)
              | OutOfFuel => (w, OutOfFuel)
              end
          | Raised e => (w, Raised e)
          | OutOfFuel => (w, OutOfFuel)
          end
      | (w, Raised e) => (w, Raised e)
      | (w, OutOfFuel) => (w, OutOfFuel)
      end
  end.

Definition tests_to_run (self : TestRunner) (filter : option (list string))
    : list nat :=
  match filter with
  | None => _all_tests self
  | Some names =>
      List.filter (λ test, bool_decide (__name__ (classes !!! test) ∈ names))
                  (_all_tests self)
  end.

(** Returns the list of tests; the device is the [device] of the world it
    leaves. *)
Definition RunTests (fuel : nat) (self : TestRunner)
    (filter : option (list string)) : Prog (list (option nat)) := λ w,
  let device :=
    DeviceProperties_init (map_to_list (_property_map self)).*1 in
  let w := set_device device (log w) w in
  match InstantiateTests classes (_property_map self)
                         (tests_to_run self filter) with
  | Raised e => (w, Raised e)
  | OutOfFuel => (w, OutOfFuel)
  | Returned st =>
      match TopologicalSort iteritems pop (deps_map st) with
      | Raised e => (w, Raised e)
      | OutOfFuel => (w, OutOfFuel)
      | Returned tests =>
          match run_loop fuel (instances st) tests
                         (logging (Debug_TestOrder tests) w) with
          | (w, Returned _) => (w, Returned tests)
          | (w, Raised e) => (w, Raised e)
          | (w, OutOfFuel) => (w, OutOfFuel)
          end
      end
  end.

End RunTests.
End Run.

(** *** Kinds of answers, as [_HandleResponse] tells them apart *)

(** A flow-control timer: the third test of [_HandleResponse] holds. *)
Definition is_ack_timer (r : Response) : Prop :=
  status_Succeeded r = true ∧ response_code r = RDM_COMPLETED_OK ∧
  response_type r = RDM_ACK_TIMER.

(** More messages remain: every test of [_HandleResponse] fails and its last
    line is reached. *)
Definition more_remain (f : QueuedMessageFetcher) (r : Response) : Prop :=
  status_Succeeded r = true ∧ response_code r = RDM_COMPLETED_OK ∧
  response_type r ≠ RDM_ACK_TIMER ∧
  ¬ (response_type r = RDM_NACK_REASON ∧ nack_reason r = NR_UNKNOWN_PID ∧
     command_class r = RDM_GET ∧ pid r = _queued_message_pid f) ∧
  (¬ (response_type r = RDM_ACK ∧ command_class r = RDM_GET ∧
      pid r = _status_message_pid f) ∨
   ∃ m ms, unpacked_data r = Some (m :: ms)).

(** The one answer on which [_HandleResponse] raises: an acknowledged status
    message whose payload did not unpack. *)
Definition unpack_failed (f : QueuedMessageFetcher) (r : Response) : Prop :=
  status_Succeeded r = true ∧ response_code r = RDM_COMPLETED_OK ∧
  response_type r = RDM_ACK ∧ command_class r = RDM_GET ∧
  pid r = _status_message_pid f ∧ unpacked_data r = None.

(** Nothing is on the wire and nothing is scheduled. *)
Definition idle (w : World) : Prop :=
  in_flight w = 0 ∧ _events (wrapper w) = [].

(** The debug records of the timers among answers [start .. start + k - 1]. *)
Fixpoint timer_log (responder : nat → Response) (start k : nat)
    : list LogRecord :=
  match k with
  | 0 => []
  | S k =>
      (if decide (response_type (responder start) = RDM_ACK_TIMER)
       then [Debug_AckTimer (ack_timer (responder start))] else [])
      ++ timer_log responder (S start) k
  end.

(** The world a drain leaves when it runs into the limit [k] requests after
    the world [u]: stopped, with the error on the log. *)
Definition limit_reached (responder : nat → Response) (u : World) (k : nat)
    : World :=
  {| fetcher := fetcher (set_counter (_limit (fetcher u)) u);
     wrapper := {| _quit := true; _events := [] |};
     in_flight := 0; answered := answered u + k;
     log := log u ++ timer_log responder (answered u) k
                  ++ [Error_LoopLimit (_limit (fetcher u))];
     device := device u; ran := ran u |}.

(** The instances a run executes as far as the properties decide: an
    instance is skipped when [getattr] can not read one of its required
    properties from the device, and sets the properties of its body
    otherwise. *)
Fixpoint executed (classes : list TestClass) (found : string → bool)
    (instances : list nat) (tests : list (option nat))
    (device : DeviceProperties) : list (option nat) :=
  match tests with
  | [] => []
  | test :: rest =>
      match class_of classes instances test with
      | Returned c =>
          match requires_check found device (REQUIRES c) with
          | Returned None =>
              test :: executed classes found instances rest
                        (DeviceProperties_setattrs (BODY c) device []).1
          | _ => executed classes found instances rest device
          end
      | _ => []
      end
  end.

(** Sample answers: a negative acknowledgement that is not the one for an
    unknown PID (more remain), and a timer of 50 ms. *)
Definition response_more : Response :=
  {| status_Succeeded := true; response_code := RDM_COMPLETED_OK;
     response_type := RDM_NACK_REASON; ack_timer := 0;
     nack_reason := NR_OTHER 4; command_class := RDM_GET; pid := 32;
     queued_messages := 1; unpacked_data := Some [] |}.

Definition response_timer : Response :=
  {| status_Succeeded := true; response_code := RDM_COMPLETED_OK;
     response_type := RDM_ACK_TIMER; ack_timer := 50;
     nack_reason := NR_OTHER 0; command_class := RDM_GET; pid := 32;
     queued_messages := 0; unpacked_data := None |}.

(** An acknowledged status message with no messages in it. *)
Definition response_empty : Response :=
  {| status_Succeeded := true; response_code := RDM_COMPLETED_OK;
     response_type := RDM_ACK; ack_timer := 0;
     nack_reason := NR_OTHER 0; command_class := RDM_GET; pid := 48;
     queued_messages := 0; unpacked_data := Some [] |}.

(** Two classes without properties or dependencies. *)
Definition classes_plain : list TestClass :=
  [ {| __name__ := "T0"; PROVIDES := []; REQUIRES := []; DEPS := [];
       BODY := [] |};
    {| __name__ := "T1"; PROVIDES := []; REQUIRES := []; DEPS := [];
       BODY := [] |} ].


(** A world in which nothing has happened yet, with the fetcher the runner
    creates ([limit=25]). *)
Definition World_init (queued_message_pid status_message_pid : Z) : World :=
  {| fetcher := {| _limit := 25%Z; _counter := 0%Z;
                   _queued_message_pid := queued_message_pid;
                   _status_message_pid := status_message_pid |};
     wrapper := {| _quit := false; _events := [] |};
     in_flight := 0; answered := 0; log := [];
     device := DeviceProperties_init []; ran := [] |}.

(** A check that evaluates: every required property of every class of the
    table has a producer, and every class a class depends on comes before it
    in the table. *)
Definition class_table_ordered (classes : list TestClass)
    (property_map : gmap string nat) : bool :=
  forallb (λ c, match dep_classes_of classes property_map c with
                | Returned l => forallb (λ d, d <? c) l
                | _ => false
                end)
          (seq 0 (length classes)).

(** [RegisterTest] on each class of a list, in order. *)
Definition register_all (classes : list TestClass) (tests : list nat)
    : TestRunner :=
  foldl (λ self test_class, (RegisterTest classes test_class self).1)
        TestRunner_init tests.

(** A requires-cycle, as in the example of the spec: A requires a property
    produced by B, and B statically depends on A; T is independent. *)
Definition classes_cycle : list TestClass :=
  [ {| __name__ := "A"; PROVIDES := []; REQUIRES := ["p"]; DEPS := [];
       BODY := [] |};
    {| __name__ := "B"; PROVIDES := ["p"]; REQUIRES := []; DEPS := [0];
       BODY := [] |};
    {| __name__ := "T"; PROVIDES := []; REQUIRES := []; DEPS := [];
       BODY := [] |} ].

(** The same cycle, beside a class Z that requires a property without a
    producer. *)
Definition classes_missing : list TestClass :=
  [ {| __name__ := "A"; PROVIDES := []; REQUIRES := ["p"]; DEPS := [];
       BODY := [] |};
    {| __name__ := "B"; PROVIDES := ["p"]; REQUIRES := []; DEPS := [0];
       BODY := [] |};
    {| __name__ := "Z"; PROVIDES := []; REQUIRES := ["q"]; DEPS := [];
       BODY := [] |} ].

(** A diamond: C depends on A and B, A requires a property that D provides,
    B statically depends on D. *)
Definition classes_diamond : list TestClass :=
  [ {| __name__ := "D"; PROVIDES := ["d"]; REQUIRES := []; DEPS := [];
       BODY := [] |};
    {| __name__ := "A"; PROVIDES := []; REQUIRES := ["d"]; DEPS := [];
       BODY := [] |};
    {| __name__ := "B"; PROVIDES := []; REQUIRES := []; DEPS := [0];
       BODY := [] |};
    {| __name__ := "C"; PROVIDES := []; REQUIRES := []; DEPS := [1; 2];
       BODY := [] |} ].

(** 1 depends on 7, which is not an instance of the graph. *)
Definition graph_unresolved : gmap nat (gset nat) := {[ 0 := ∅; 1 := {[7]} ]}.

(** What [_AddTest] does on class [c] with path [parents] from state [st],
    whether the required properties have producers or not. *)
Definition AddTest_outcome (classes : list TestClass)
    (property_map : gmap string nat) (parents : list nat) (c : nat)
    (st : Resolution) (r : Result (option nat * Resolution)) : Prop :=
  match r with
  | Returned (obj, st') =>
      res_inv classes property_map parents st' ∧ extends st st' ∧
      ∃ o, obj = Some o ∧ class_name_to_object st' !! c = Some (Some o)
  | Raised (CircularDepdendancyException d ps) =>
      tc (class_dep classes property_map) d d ∧
      (d ∈ parents ∨ rtc (class_dep classes property_map) c d)
  | Raised (MissingPropertyException p) =>
      ∃ x, rtc (class_dep classes property_map) c x ∧
           p ∈ REQUIRES (classes !!! x) ∧ p ∉ dom property_map
  | Raised _ => False
  | OutOfFuel => False
  end.

(** The state in which [_InstantiateTests] leaves its locals on the diamond
    when C is selected: C is instance 0, A instance 1, D instance 2 and B
    instance 3. *)
Definition resolution_diamond : Resolution :=
  {| class_name_to_object :=
       {[ 3 := Some 0; 1 := Some 1; 0 := Some 2; 2 := Some 3 ]};
     deps_map :=
       {[ Some 2 := ∅; Some 1 := {[Some 2]}; Some 3 := {[Some 2]};
          Some 0 := {[Some 1; Some 3]} ]};
     instances := [3; 1; 0; 2] |}.

(** What registration keeps of the producer map and of the list of
    registered classes: a property is mapped only to a class that provides
    it, and every property of a registered class is mapped to that class. *)
Definition registry_ok (classes : list TestClass) (self : TestRunner) : Prop :=
  (∀ p c, _property_map self !! p = Some c → p ∈ PROVIDES (classes !!! c)) ∧
  (∀ c p, c ∈ _all_tests self → p ∈ PROVIDES (classes !!! c) →
          _property_map self !! p = Some c).

(** Two classes: class 0 provides [a]; class 1 provides [b], [a] and [c]. *)
Definition classes_overlap : list TestClass :=
  [ {| __name__ := "T0"; PROVIDES := ["a"]; REQUIRES := []; DEPS := [];
       BODY := [] |};
    {| __name__ := "T1"; PROVIDES := ["b"; "a"; "c"]; REQUIRES := [];
       DEPS := []; BODY := [] |} ].

(** An answer that ends the drain cycle: a transport error, a response code
    other than [RDM_COMPLETED_OK], the negative acknowledgement of the
    queued-message PID as unknown, or a status message without messages. *)
Definition ends_drain (f : QueuedMessageFetcher) (r : Response) : Prop :=
  status_Succeeded r = false ∨
  response_code r ≠ RDM_COMPLETED_OK ∨
  (response_type r = RDM_NACK_REASON ∧ nack_reason r = NR_UNKNOWN_PID ∧
   command_class r = RDM_GET ∧ pid r = _queued_message_pid f) ∨
  (response_type r = RDM_ACK ∧ command_class r = RDM_GET ∧
   pid r = _status_message_pid f ∧ unpacked_data r = Some []).

(** [w'] is [w] with the loop stopped and possibly more on the log. *)
Definition stopped (w w' : World) : Prop :=
  _quit (wrapper w') = true ∧ _events (wrapper w') = _events (wrapper w) ∧
  fetcher w' = fetcher w ∧ in_flight w' = in_flight w ∧
  answered w' = answered w ∧ device w' = device w ∧ ran w' = ran w ∧
  log w `prefix_of` log w'.

(** What a drain cycle leaves untouched. *)
Definition drain_frame (w w' : World) : Prop :=
  device w' = device w ∧ ran w' = ran w ∧
  _limit (fetcher w') = _limit (fetcher w) ∧
  _queued_message_pid (fetcher w') = _queued_message_pid (fetcher w) ∧
  _status_message_pid (fetcher w') = _status_message_pid (fetcher w) ∧
  log w `prefix_of` log w'.

(** A world in which nothing has happened yet, with a fetcher created with
    [limit=-1]. *)
Definition World_negative_limit : World :=
  {| fetcher := {| _limit := -1; _counter := 0;
                   _queued_message_pid := 32; _status_message_pid := 48 |};
     wrapper := {| _quit := false; _events := [] |};
     in_flight := 0; answered := 0; log := [];
     device := DeviceProperties_init []; ran := [] |}.

(** P provides [__doc__] and never sets it; R requires it. *)
Definition classes_doc : list TestClass :=
  [ {| __name__ := "P"; PROVIDES := ["__doc__"]; REQUIRES := []; DEPS := [];
       BODY := [] |};
    {| __name__ := "R"; PROVIDES := []; REQUIRES := ["__doc__"]; DEPS := [];
       BODY := [] |} ].

(** * Properties *)

(** ** The topological sort *)

Section GraphFacts.
Context `{Countable K}.

(** A numbering under which every dependency is smaller excludes cycles. *)
Lemma ranked_acyclic (m : gmap K (gset K)) (rank : K → nat) :
  (∀ t d, depends m t d → rank d < rank t) → acyclic m.
Proof.
  intros Hrank t Ht.
  assert (Hlt : ∀ x y, tc (depends m) x y → rank y < rank x).
  { induction 1 as [x y Hxy|x y z Hxy _ IH]; [by apply Hrank|].
    specialize (Hrank _ _ Hxy). lia. }
  specialize (Hlt _ _ Ht). lia.
Qed.

Lemma resolved_acyclic_sn (m : gmap K (gset K)) t :
  resolved m → acyclic m → sn (depends m) t.
Proof.
  intros Hres Hacyc. apply tc_finite_sn.
  - intros x Hx. by apply (Hacyc x).
  - exists (elements (dom m)). intros y Hy. apply elem_of_elements.
    induction Hy as [x y Hxy|x y z _ _ IH]; [by eapply Hres|done].
Qed.
End GraphFacts.

Lemma list_remove_first_spec `{EqDecision A} (x : A) (l : list A) :
  x ∈ l → NoDup l →
  ∃ l', list_remove_first x l = Returned l' ∧ NoDup l' ∧
        ∀ y, y ∈ l' ↔ y ∈ l ∧ y ≠ x.
Proof.
  induction l as [|y l IH]; intros Hin Hnd; [by apply elem_of_nil in Hin|].
  apply NoDup_cons in Hnd as [Hy Hnd]. simpl. destruct (decide (x = y)) as [->|Hne].
  - exists l. split_and!; [done..|]. intros z. rewrite elem_of_cons.
    split; [intros ?; split; [by right|congruence]|naive_solver].
  - apply elem_of_cons in Hin as [?|Hin]; [done|].
    destruct (IH Hin Hnd) as (l' & -> & Hnd' & Hl'). exists (y :: l').
    split_and!; [done| |].
    + apply NoDup_cons. split; [|done]. rewrite Hl'. naive_solver.
    + intros z. rewrite !elem_of_cons, Hl'. naive_solver.
Qed.

Section SortLoops.
Context `{Countable K}.

Lemma remove_loop_spec (rl l : list K) :
  NoDup rl → NoDup l → rl ⊆ l →
  ∃ l', remove_loop rl l = Returned l' ∧ NoDup l' ∧
        ∀ y, y ∈ l' ↔ y ∈ l ∧ y ∉ rl.
Proof.
  revert l. induction rl as [|x rl IH]; intros l Hrl Hl Hsub; simpl.
  - exists l. split_and!; [done..|]. set_solver.
  - apply NoDup_cons in Hrl as [Hx Hrl].
    destruct (list_remove_first_spec x l) as (l1 & -> & Hl1 & Hin1);
      [set_solver|done|]. simpl.
    destruct (IH l1) as (l' & -> & Hl' & Hin'); [done..| |].
    { intros y Hy. apply Hin1. split; [set_solver|]. by intros ->. }
    exists l'. split_and!; [done..|]. intros y.
    rewrite Hin', Hin1, not_elem_of_cons. naive_solver.
Qed.

Lemma discard_loop_spec cur (rem : list K) dd nd rl :
  NoDup rem → (∀ t, t ∈ rem → is_Some (dd !! t)) →
  ∃ dd',
    discard_loop cur rem dd nd rl =
      Returned (dd', nd ∪ list_to_set (filter (λ t, dd' !! t = Some ∅) rem),
                rl ++ filter (λ t, dd' !! t = Some ∅) rem) ∧
    (∀ t, t ∈ rem → dd' !! t = (λ ds, ds ∖ {[cur]}) <$> dd !! t) ∧
    (∀ t, t ∉ rem → dd' !! t = dd !! t).
Proof.
  revert dd nd rl. induction rem as [|t rem IH]; intros dd nd rl Hnd Hdom.
  { exists dd. simpl. rewrite (right_id_L ∅ (∪)), app_nil_r.
    split_and!; [done| |done]. by intros t ?%elem_of_nil. }
  apply NoDup_cons in Hnd as [Ht Hnd].
  destruct (Hdom t) as [ds Hds]; [set_solver|]. simpl. rewrite Hds.
  set (dd1 := <[t := ds ∖ {[cur]}]> dd).
  assert (Hdom1 : ∀ u, u ∈ rem → is_Some (dd1 !! u)).
  { intros u Hu. unfold dd1. rewrite lookup_insert_ne by set_solver.
    apply Hdom. set_solver. }
  assert (Hpost : ∀ dd' : gmap K (gset K),
    (∀ u, u ∈ rem → dd' !! u = (λ ds, ds ∖ {[cur]}) <$> dd1 !! u) →
    (∀ u, u ∉ rem → dd' !! u = dd1 !! u) →
    dd' !! t = Some (ds ∖ {[cur]}) ∧
    (∀ u, u ∈ t :: rem → dd' !! u = (λ ds, ds ∖ {[cur]}) <$> dd !! u) ∧
    (∀ u, u ∉ t :: rem → dd' !! u = dd !! u)).
  { intros dd' Hin Hout.
    assert (dd' !! t = Some (ds ∖ {[cur]})) as Htl.
    { rewrite Hout by done. unfold dd1. by rewrite lookup_insert_eq. }
    split_and!; [done| |].
    - intros u [->|Hu]%elem_of_cons; [by rewrite Htl, Hds|].
      rewrite Hin by done. unfold dd1. rewrite lookup_insert_ne; [done|].
      by intros ->.
    - intros u [Hne Hu]%not_elem_of_cons. rewrite Hout by done.
      unfold dd1. by rewrite lookup_insert_ne. }
  destruct (decide (size (ds ∖ {[cur]}) = 0)) as [Hsz|Hsz].
  - destruct (IH dd1 (nd ∪ {[t]}) (rl ++ [t]) Hnd Hdom1)
      as (dd' & -> & Hin & Hout).
    destruct (Hpost dd' Hin Hout) as (Htl & ? & ?).
    exists dd'. split_and!; [|done..].
    apply size_empty_iff, leibniz_equiv in Hsz.
    rewrite filter_cons, decide_True by by rewrite Htl, Hsz.
    rewrite list_to_set_cons, <-(assoc_L (++)), (assoc_L (∪)). done.
  - destruct (IH dd1 nd rl Hnd Hdom1) as (dd' & -> & Hin & Hout).
    destruct (Hpost dd' Hin Hout) as (Htl & ? & ?).
    exists dd'. split_and!; [|done..].
    rewrite filter_cons, decide_False; [done|].
    rewrite Htl. intros [= Hemp]. apply Hsz. rewrite Hemp. apply size_empty.
Qed.

End SortLoops.

Section SortFacts.
Context `{Countable K}.
Variable iteritems : gmap K (gset K) → list (K * gset K).
Variable pop : gset K → option K.

(** The interpreter's choices are arbitrary but sound: iterating a dict
    yields each item once, and a set pops one of its elements. *)
Hypothesis iteritems_perm : ∀ m, iteritems m ≡ₚ map_to_list m.
Hypothesis pop_elem : ∀ s x, pop s = Some x → x ∈ s.
Hypothesis pop_nonempty : ∀ s, s ≠ ∅ → is_Some (pop s).

Lemma sort_inv_step (m0 : gmap K (gset K)) tests rem nd dd cur :
  sort_inv m0 tests rem nd dd → cur ∈ nd →
  ∃ dd' nd' rl rem',
    discard_loop cur rem dd (nd ∖ {[cur]}) [] = Returned (dd', nd', rl) ∧
    remove_loop rl rem = Returned rem' ∧
    sort_inv m0 (tests ++ [cur]) rem' nd' dd'.
Proof.
  intros [Hnd Hdisj Hcover Hwait Hready Hsorted] Hcur.
  apply NoDup_app in Hnd as (Hndt & Hdisj' & Hndr).
  destruct (Hdisj _ Hcur) as [Hcur1 Hcur2].
  destruct (discard_loop_spec cur rem dd (nd ∖ {[cur]}) []) as (dd' & Hdl & Hin & Hout).
  { done. }
  { intros t Ht. destruct (Hwait t Ht) as (ds & _ & -> & _). eauto. }
  set (P := λ t : K, dd' !! t = Some ∅) in *.
  destruct (remove_loop_spec (filter P rem) rem) as (rem' & Hrl & Hndr' & Hrem').
  { by apply NoDup_filter. }
  { done. }
  { intros t [_ ?]%list_elem_of_filter. done. }
  exists dd', (nd ∖ {[cur]} ∪ list_to_set (filter P rem)), (filter P rem), rem'.
  split_and!; [done..|].
  assert (Hset : ∀ ds : gset K,
    ds ∖ list_to_set tests ∖ {[cur]} = ds ∖ list_to_set (tests ++ [cur])).
  { intros ds. rewrite list_to_set_app_L. set_solver. }
  assert (Hdd' : ∀ t, t ∈ rem → ∃ ds, m0 !! t = Some ds ∧
            dd' !! t = Some (ds ∖ list_to_set (tests ++ [cur]))).
  { intros t Ht. destruct (Hwait t Ht) as (ds & Hm0 & Hdd & _).
    exists ds. split; [done|]. by rewrite Hin, Hdd, <-Hset. }
  split.
  - apply NoDup_app. split_and!.
    + apply NoDup_app. split_and!; [done| |apply NoDup_singleton].
      intros x Hx ->%list_elem_of_singleton. done.
    + intros x [Hx| ->%list_elem_of_singleton]%elem_of_app; rewrite Hrem'.
      * intros [? _]. by eapply Hdisj'.
      * by intros [? _].
    + done.
  - intros t. rewrite elem_of_union, elem_of_difference, elem_of_list_to_set,
      list_elem_of_filter, elem_of_app, list_elem_of_singleton, Hrem',
      list_elem_of_filter, not_elem_of_singleton.
    intros [[Ht Hne]|[HP Ht]].
    + destruct (Hdisj _ Ht). naive_solver.
    + split; [|naive_solver]. intros [?| ->]; [by eapply Hdisj'|done].
  - intros t. rewrite Hcover, elem_of_union, elem_of_difference,
      elem_of_list_to_set, list_elem_of_filter, elem_of_app,
      list_elem_of_singleton, Hrem', list_elem_of_filter, not_elem_of_singleton.
    destruct (decide (t = cur)) as [->|]; [naive_solver|].
    destruct (decide (P t)); naive_solver.
  - intros t [Ht HnP]%Hrem'. destruct (Hdd' t Ht) as (ds & Hm0 & Hdd).
    exists ds. split_and!; [done..|]. intros Hemp. apply HnP.
    apply list_elem_of_filter. split; [|done]. unfold P. by rewrite Hdd, Hemp.
  - intros t ds. rewrite elem_of_union, elem_of_difference,
      elem_of_list_to_set, list_elem_of_filter.
    intros [[Ht _]|[HP Ht]] Hm0.
    + specialize (Hready t ds Ht Hm0). rewrite list_to_set_app_L. set_solver.
    + destruct (Hdd' t Ht) as (ds' & Hm0' & Hdd). simplify_eq.
      unfold P in HP. rewrite Hdd in HP. injection HP as HP.
      intros d Hd.
      destruct (decide (d ∈ (list_to_set (tests ++ [cur]) : gset K)))
        as [|Hn]; [done|exfalso].
      assert (d ∈ ds ∖ list_to_set (tests ++ [cur])) as Hdiff
        by (by apply elem_of_difference).
      rewrite HP in Hdiff. by apply not_elem_of_empty in Hdiff.
  - intros i t ds Hi Hm0. apply lookup_app_Some in Hi as [Hi|[Hlen Hi]].
    + rewrite take_app_le by (apply lookup_lt_Some in Hi; lia). eauto.
    + apply list_lookup_singleton_Some in Hi as [Hi ->].
      assert (i = length tests) as -> by lia.
      rewrite take_app_length. eauto.
Qed.

(** The loop runs to its end on any state that satisfies the invariant, and
    ends in a state that satisfies it with an empty ready set. *)
Lemma sort_loop_spec (m0 : gmap K (gset K)) fuel tests rem nd dd :
  sort_inv m0 tests rem nd dd → size m0 ≤ length tests + fuel →
  ∃ out rem' dd',
    sort_loop pop fuel tests rem nd dd = Returned out ∧
    sort_inv m0 out rem' ∅ dd'.
Proof.
  revert tests rem nd dd.
  induction fuel as [|fuel IH]; intros tests rem nd dd Hinv Hfuel;
    simpl; destruct (decide (0 < size nd)) as [Hsz|Hsz].
  - exfalso. apply size_pos_elem_of in Hsz as [x Hx].
    destruct Hinv as [Hnd Hdisj Hcover _ _ _]. destruct (Hdisj _ Hx) as [Hxt _].
    apply NoDup_app in Hnd as (Hndt & _ & _).
    assert (Hle : length (x :: tests) ≤ size (dom m0)).
    { rewrite <-(size_list_to_set (C:=gset K)) by (by apply NoDup_cons).
      apply subseteq_size. intros y. rewrite elem_of_list_to_set, Hcover.
      intros [->|?]%elem_of_cons; auto. }
    rewrite size_dom in Hle. simpl in Hle. lia.
  - assert (nd = ∅) as -> by (apply leibniz_equiv, size_empty_iff; lia). eauto.
  - destruct (pop_nonempty nd) as [cur Hpop].
    { intros ->. rewrite size_empty in Hsz. lia. }
    rewrite Hpop. apply pop_elem in Hpop.
    destruct (sort_inv_step _ _ _ _ _ _ Hinv Hpop)
      as (dd' & nd' & rl & rem' & -> & Hrl & Hinv').
    simpl. rewrite Hrl. simpl. apply (IH _ _ _ _ Hinv').
    rewrite length_app. simpl. lia.
  - assert (nd = ∅) as -> by (apply leibniz_equiv, size_empty_iff; lia). eauto.
Qed.

Lemma sort_inv_init (m0 : gmap K (gset K)) :
  sort_inv m0 []
    (filter (λ item, size item.2 ≠ 0) (iteritems m0)).*1
    (list_to_set (filter (λ item, size item.2 = 0) (iteritems m0)).*1) m0.
Proof.
  assert (Hitems : ∀ t ds, (t, ds) ∈ iteritems m0 ↔ m0 !! t = Some ds).
  { intros t ds. rewrite iteritems_perm. apply elem_of_map_to_list. }
  assert (Hnd : NoDup (iteritems m0).*1).
  { rewrite iteritems_perm. apply NoDup_fst_map_to_list. }
  assert (Hfst : ∀ (P : K * gset K → Prop) `{!∀ x, Decision (P x)} t,
    t ∈ (filter P (iteritems m0)).*1 ↔ ∃ ds, m0 !! t = Some ds ∧ P (t, ds)).
  { intros P ? t. rewrite list_elem_of_fmap. split.
    - intros ([t' ds] & -> & [HP Hin]%list_elem_of_filter).
      exists ds. by rewrite <-Hitems.
    - intros (ds & Hds & HP). exists (t, ds). split; [done|].
      apply list_elem_of_filter. by rewrite Hitems. }
  split; simpl.
  - apply (sublist_NoDup _ (iteritems m0).*1); [exact Hnd|].
    apply fmap_sublist, sublist_filter.
  - intros t Ht. split; [apply not_elem_of_nil|].
    apply elem_of_list_to_set, Hfst in Ht as (ds & Hds & Hz).
    intros (ds' & Hds' & Hnz)%Hfst. simpl in *. congruence.
  - intros t. rewrite elem_of_dom, elem_of_list_to_set, !Hfst. simpl.
    split.
    + intros [ds Hds]. right.
      destruct (decide (size ds = 0)); [left|right]; eauto.
    + intros [[]%elem_of_nil|[(ds & ? & _)|(ds & ? & _)]]; eauto.
  - intros t (ds & Hds & Hnz)%Hfst. simpl in *. exists ds.
    rewrite ?list_to_set_nil, difference_empty_L. split_and!; [done..|].
    intros ->. by rewrite size_empty in Hnz.
  - intros t ds (ds' & Hds' & Hz)%elem_of_list_to_set%Hfst Hds. simpl in *.
    simplify_eq. apply size_empty_iff, leibniz_equiv in Hz as ->.
    intros d []%not_elem_of_empty.
  - intros i t ds Hi. by rewrite lookup_nil in Hi.
Qed.

(** What the sort returns, for any dict: it returns; no instance twice; only
    instances of the dict; every returned instance after all its
    dependencies; and an instance is left out exactly when one of its
    dependencies is. *)
Lemma TopologicalSort_spec (m0 : gmap K (gset K)) :
  ∃ out,
    TopologicalSort iteritems pop m0 = Returned out ∧
    NoDup out ∧
    (∀ t, t ∈ out → t ∈ dom m0) ∧
    (∀ t d, t ∈ out → depends m0 t d → before d t out) ∧
    (∀ t, t ∈ dom m0 → t ∉ out → ∃ d, depends m0 t d ∧ d ∉ out).
Proof.
  destruct (sort_loop_spec m0 (size m0) _ _ _ _ (sort_inv_init m0))
    as (out & rem & dd & Hrun & [Hnd Hdisj Hcover Hwait Hready Hsorted]);
    [simpl; lia|].
  exists out. apply NoDup_app in Hnd as (Hnd & _ & _).
  split_and!; [done|done|..].
  - intros t Ht. apply Hcover. auto.
  - intros t d [j Hj]%list_elem_of_lookup (ds & Hds & Hd).
    specialize (Hsorted j t ds Hj Hds d Hd).
    apply elem_of_list_to_set, list_elem_of_lookup in Hsorted as [i Hi].
    apply lookup_take_Some in Hi as [Hi Hlt]. by exists i, j.
  - intros t [Ht|[[]%not_elem_of_empty|Ht]]%Hcover Hnot; [done|].
    destruct (Hwait t Ht) as (ds & Hds & _ & Hne).
    apply set_choose_L in Hne as [d [Hd Hdo]%elem_of_difference].
    exists d. split; [by exists ds|]. by rewrite elem_of_list_to_set in Hdo.
Qed.

(** On a resolved acyclic graph nothing is left out. *)
Lemma TopologicalSort_complete (m0 : gmap K (gset K)) out :
  resolved m0 → acyclic m0 →
  TopologicalSort iteritems pop m0 = Returned out →
  ∀ t, t ∈ dom m0 → t ∈ out.
Proof.
  intros Hres Hacyc Hrun.
  destruct (TopologicalSort_spec m0) as (out' & Hrun' & _ & _ & _ & Hleft).
  rewrite Hrun in Hrun'. injection Hrun' as <-.
  intros t Ht. destruct (decide (t ∈ out)) as [|Hnot]; [done|exfalso].
  induction (resolved_acyclic_sn m0 t Hres Hacyc) as [t _ IH].
  destruct (Hleft t Ht Hnot) as (d & Hdep & Hd).
  apply (IH d); [done|by eapply Hres|done].
Qed.

(** C1. For every resolved acyclic dependency graph, whatever order the
    interpreter iterates dicts in and whatever element its sets pop, the sort
    returns a list that holds every instance of the graph exactly once and in
    which every dependency of an instance occurs at a strictly smaller index
    than the instance. *)
Theorem TopologicalSort_dependencies_first (m0 : gmap K (gset K)) :
  resolved m0 → acyclic m0 →
  ∃ out,
    TopologicalSort iteritems pop m0 = Returned out ∧
    NoDup out ∧
    (∀ t, t ∈ dom m0 ↔ t ∈ out) ∧
    (∀ t d, depends m0 t d → before d t out).
Proof.
  intros Hres Hacyc.
  destruct (TopologicalSort_spec m0) as (out & Hrun & Hnd & Hsub & Hord & _).
  exists out. split_and!; [done..| |].
  - intros t. split; [|by apply Hsub].
    by apply (TopologicalSort_complete m0).
  - intros t d Hdep. apply Hord; [|done].
    apply (TopologicalSort_complete m0); [done..|].
    destruct Hdep as (ds & Hds & _). apply elem_of_dom. eauto.
Qed.

(** C5, as the code has it. The sort has no failure path: for every dict it
    returns normally, and the instances it leaves out of the returned list are
    exactly those with a dependency that is left out as well. *)
Theorem TopologicalSort_drops_silently (m0 : gmap K (gset K)) :
  ∃ out,
    TopologicalSort iteritems pop m0 = Returned out ∧
    ∀ t, t ∈ dom m0 →
      (t ∉ out ↔ ∃ d, depends m0 t d ∧ d ∉ out).
Proof.
  destruct (TopologicalSort_spec m0) as (out & Hrun & Hnd & Hsub & Hord & Hleft).
  exists out. split; [done|]. intros t Ht. split; [by apply Hleft|].
  intros (d & Hdep & Hd) Hin. apply Hd.
  destruct (Hord t d Hin Hdep) as (i & _ & Hi & _).
  apply list_elem_of_lookup. eauto.
Qed.

End SortFacts.

(** *** The two interpreters are sound *)

Lemma iteritems_std_perm `{Countable K} (m : gmap K (gset K)) :
  iteritems_std m ≡ₚ map_to_list m.
Proof. done. Qed.

Lemma pop_first_elem `{Countable K} (s : gset K) x :
  pop_first s = Some x → x ∈ s.
Proof.
  unfold pop_first. intros Hx. apply elem_of_elements.
  destruct (elements s); simplify_eq/=. left.
Qed.

Lemma pop_first_nonempty `{Countable K} (s : gset K) :
  s ≠ ∅ → is_Some (pop_first s).
Proof.
  unfold pop_first. intros Hs. destruct (elements s) eqn:He; [|by eexists].
  by apply elements_empty_iff, leibniz_equiv in He.
Qed.

Lemma pop_last_elem `{Countable K} (s : gset K) x :
  pop_last s = Some x → x ∈ s.
Proof.
  unfold pop_last. intros (l & Hl)%last_Some. apply elem_of_elements.
  rewrite Hl. apply elem_of_app. right. left.
Qed.

Lemma pop_last_nonempty `{Countable K} (s : gset K) :
  s ≠ ∅ → is_Some (pop_last s).
Proof.
  unfold pop_last. intros Hs. rewrite last_is_Some. intros He.
  by apply elements_empty_iff, leibniz_equiv in He.
Qed.

Lemma well_ordered_resolved m : well_ordered m → resolved m.
Proof.
  intros Hm t d (ds & Hds & Hd). by destruct (Hm t ds Hds d Hd).
Qed.

Lemma well_ordered_acyclic m : well_ordered m → acyclic m.
Proof.
  intros Hm. apply (ranked_acyclic m id). intros t d (ds & Hds & Hd).
  by destruct (Hm t ds Hds d Hd).
Qed.

Lemma graph_chain_well_ordered : well_ordered graph_chain.
Proof.
  unfold well_ordered. refine (bool_decide_unpack _ _). vm_compute. exact I.
Qed.

Lemma TopologicalSort_dependencies_first_witness :
  ∃ out,
    TopologicalSort iteritems_std pop_first graph_chain = Returned out ∧
    NoDup out ∧
    (∀ t, t ∈ dom graph_chain ↔ t ∈ out) ∧
    (∀ t d, depends graph_chain t d → before d t out).
Proof.
  apply (TopologicalSort_dependencies_first iteritems_std pop_first
           iteritems_std_perm pop_first_elem pop_first_nonempty graph_chain).
  - apply well_ordered_resolved, graph_chain_well_ordered.
  - apply well_ordered_acyclic, graph_chain_well_ordered.
Defined.

Lemma TopologicalSort_drops_silently_witness :
  ∃ out,
    TopologicalSort iteritems_std pop_first graph_cycle = Returned out ∧
    ∀ t, t ∈ dom graph_cycle →
      (t ∉ out ↔ ∃ d, depends graph_cycle t d ∧ d ∉ out).
Proof.
  apply (TopologicalSort_drops_silently iteritems_std pop_first
           iteritems_std_perm pop_first_elem pop_first_nonempty graph_cycle).
Defined.

(** C5, as stated, fails: with 1 and 2 depending on each other the ready
    set runs empty while both still wait, and the sort returns [[0]]: no
    exception, and 1 and 2 are missing from the result. *)
Lemma TopologicalSort_cycle_dropped :
  TopologicalSort iteritems_std pop_first graph_cycle = Returned [0] ∧
  1 ∈ dom graph_cycle ∧ 2 ∈ dom graph_cycle ∧
  depends graph_cycle 1 2 ∧ depends graph_cycle 2 1.
Proof.
  split_and!.
  - vm_compute. reflexivity.
  - apply elem_of_dom. by eexists.
  - apply elem_of_dom. by eexists.
  - exists {[2]}. split; [done|set_solver].
  - exists {[1]}. split; [done|set_solver].
Qed.

(** C3, as stated, fails: over the same graph of two independent instances,
    an interpreter whose sets pop from one end and one whose sets pop from
    the other return different orders. *)
Lemma TopologicalSort_order_not_determined :
  TopologicalSort iteritems_std pop_first graph_pair = Returned [1; 0] ∧
  TopologicalSort iteritems_std pop_last graph_pair = Returned [0; 1].
Proof. split; vm_compute; reflexivity. Qed.

(** C3, as the code has it. The order is the interpreter's: over the same
    resolved acyclic graph, any two sound choices of iteration order and of
    popped elements give two lists with the same instances, each once, and
    each list has every dependency before its dependent. *)
Theorem TopologicalSort_orders_agree_up_to_permutation `{Countable K}
    (iteritems1 iteritems2 : gmap K (gset K) → list (K * gset K))
    (pop1 pop2 : gset K → option K) (m0 : gmap K (gset K)) :
  (∀ m, iteritems1 m ≡ₚ map_to_list m) →
  (∀ s x, pop1 s = Some x → x ∈ s) → (∀ s, s ≠ ∅ → is_Some (pop1 s)) →
  (∀ m, iteritems2 m ≡ₚ map_to_list m) →
  (∀ s x, pop2 s = Some x → x ∈ s) → (∀ s, s ≠ ∅ → is_Some (pop2 s)) →
  resolved m0 → acyclic m0 →
  ∃ out1 out2,
    TopologicalSort iteritems1 pop1 m0 = Returned out1 ∧
    TopologicalSort iteritems2 pop2 m0 = Returned out2 ∧
    out1 ≡ₚ out2 ∧
    (∀ t d, depends m0 t d → before d t out1 ∧ before d t out2).
Proof.
  intros Hi1 Hp1 Hn1 Hi2 Hp2 Hn2 Hres Hacyc.
  destruct (TopologicalSort_spec iteritems1 pop1 Hi1 Hp1 Hn1 m0)
    as (out1 & Hrun1 & Hnd1 & Hsub1 & Hord1 & _).
  destruct (TopologicalSort_spec iteritems2 pop2 Hi2 Hp2 Hn2 m0)
    as (out2 & Hrun2 & Hnd2 & Hsub2 & Hord2 & _).
  pose proof (TopologicalSort_complete iteritems1 pop1 Hi1 Hp1 Hn1 m0 out1
                Hres Hacyc Hrun1) as Hall1.
  pose proof (TopologicalSort_complete iteritems2 pop2 Hi2 Hp2 Hn2 m0 out2
                Hres Hacyc Hrun2) as Hall2.
  exists out1, out2. split_and!; [done..| |].
  - apply NoDup_Permutation; [done..|]. intros t. split; intros Ht.
    + by apply Hall2, Hsub1.
    + by apply Hall1, Hsub2.
  - intros t d Hdep.
    assert (t ∈ dom m0) as Ht.
    { destruct Hdep as (ds & Hds & _). apply elem_of_dom. eauto. }
    split; [apply Hord1|apply Hord2]; auto.
Qed.

Lemma TopologicalSort_orders_agree_up_to_permutation_witness :
  ∃ out1 out2,
    TopologicalSort iteritems_std pop_first graph_chain = Returned out1 ∧
    TopologicalSort iteritems_std pop_last graph_chain = Returned out2 ∧
    out1 ≡ₚ out2 ∧
    (∀ t d, depends graph_chain t d → before d t out1 ∧ before d t out2).
Proof.
  apply (TopologicalSort_orders_agree_up_to_permutation
           iteritems_std iteritems_std pop_first pop_last graph_chain
           iteritems_std_perm pop_first_elem pop_first_nonempty
           iteritems_std_perm pop_last_elem pop_last_nonempty).
  - apply well_ordered_resolved, graph_chain_well_ordered.
  - apply well_ordered_acyclic, graph_chain_well_ordered.
Defined.

(** ** The property store *)

Lemma DeviceProperties_getattr_Some (self : DeviceProperties) property value :
  _properties self !! property = Some value →
  DeviceProperties_getattr self property = Returned value.
Proof.
  intros Hv. unfold DeviceProperties_getattr.
  rewrite decide_False, Hv; [done|].
  intros Hn. apply Hn, elem_of_dom. eauto.
Qed.

Lemma DeviceProperties_getattr_None (self : DeviceProperties) property :
  _properties self !! property = None →
  DeviceProperties_getattr self property = Raised (AttributeError property).
Proof.
  intros Hv. unfold DeviceProperties_getattr.
  rewrite decide_True; [done|]. by apply not_elem_of_dom.
Qed.

Lemma DeviceProperties_setattrs_lookup sets self log property :
  property ∉ sets.*1 →
  _properties (DeviceProperties_setattrs sets self log).1 !! property
  = _properties self !! property.
Proof.
  revert self log. induction sets as [|[p v] sets IH]; intros self log Hp;
    [done|]. simpl in *. apply not_elem_of_cons in Hp as [Hne Hp].
  rewrite IH by done. simpl. by rewrite lookup_insert_ne.
Qed.

Lemma getattr_found found self property :
  found property = true →
  getattr found self property = Returned (PyAttribute property).
Proof. intros Hf. unfold getattr. by rewrite Hf. Qed.

Lemma getattr_not_found found self property :
  found property = false →
  getattr found self property = DeviceProperties_getattr self property.
Proof. intros Hf. unfold getattr. by rewrite Hf. Qed.

(** C8, as stated, fails: [__doc__] was never set, and reading it gives the
    docstring of the class, not [AttributeError]; and after two sets of
    [__doc__] the dict holds the second value, but reading still gives the
    docstring. *)
Lemma DeviceProperties_read_finds_attribute :
  getattr found_source (DeviceProperties_init []) "__doc__"
  = Returned (PyAttribute "__doc__") ∧
  (let r1 := DeviceProperties_setattr (DeviceProperties_init []) "__doc__"
               (PyInt 1) [] in
   let r2 := DeviceProperties_setattr r1.1 "__doc__" (PyInt 2) r1.2 in
   _properties r2.1 !! "__doc__" = Some (PyInt 2) ∧
   getattr found_source r2.1 "__doc__" = Returned (PyAttribute "__doc__")).
Proof. split; [reflexivity|]. split; reflexivity. Qed.

(** C8, as the code has it.  Setting a property twice appends the warning to
    the log and leaves the second value in the dict, and that value is the
    one read back when normal attribute lookup does not find the name.  On a
    store on which a name was never set, whatever else was set, reading the
    name raises [AttributeError] for that name when normal lookup does not
    find it.  A name that normal lookup finds reads as that attribute,
    whatever was set; the names the file defines ([_properties], [__doc__],
    the methods) are such names for every interpreter. *)
Theorem DeviceProperties_overwrite_and_not_found found :
  (∀ self property v1 v2 log,
     let r1 := DeviceProperties_setattr self property v1 log in
     let r2 := DeviceProperties_setattr r1.1 property v2 r1.2 in
     r2.2 = r1.2 ++ [Warning_MultipleSets property] ∧
     _properties r2.1 !! property = Some v2 ∧
     (found property = false → getattr found r2.1 property = Returned v2)) ∧
  (∀ property_names sets log property,
     property ∉ sets.*1 → found property = false →
     getattr found
       (DeviceProperties_setattrs sets
          (DeviceProperties_init property_names) log).1 property
     = Raised (AttributeError property)) ∧
  (∀ self property,
     found property = true →
     getattr found self property = Returned (PyAttribute property)) ∧
  (lookup_sound found →
   ∀ self name, name ∈ DeviceProperties_attributes →
                getattr found self name = Returned (PyAttribute name)).
Proof.
  split_and!.
  - intros self property v1 v2 log. simpl. split_and!.
    + rewrite decide_True; [done|]. rewrite dom_insert_L. set_solver.
    + by rewrite lookup_insert_eq.
    + intros Hf. rewrite getattr_not_found by done.
      apply DeviceProperties_getattr_Some. simpl. by rewrite lookup_insert_eq.
  - intros names sets log property Hp Hf.
    rewrite getattr_not_found by done.
    apply DeviceProperties_getattr_None.
    by rewrite DeviceProperties_setattrs_lookup.
  - intros self property Hf. by apply getattr_found.
  - intros Hsound self name Hname. by apply getattr_found, Hsound.
Qed.

Lemma DeviceProperties_overwrite_and_not_found_witness :
  getattr found_source
    (DeviceProperties_setattrs [("a", PyInt 1); ("b", PyInt 2)]
       (DeviceProperties_init ["a"; "b"; "c"]) []).1 "c"
  = Raised (AttributeError "c").
Proof.
  apply (proj1 (proj2 (DeviceProperties_overwrite_and_not_found
                         found_source))).
  - simpl. rewrite !not_elem_of_cons. split_and!; [done..|].
    apply not_elem_of_nil.
  - reflexivity.
Defined.

(** ** Registration *)

Lemma register_loop_raises test_class provides : ∀ (pm : gmap string nat),
  (∃ p, p ∈ provides ∧ p ∈ dom pm) →
  ∃ pre dup post pm',
    provides = pre ++ dup :: post ∧
    register_loop test_class provides pm
    = (pm', Some (DuplicatePropertyException dup)) ∧
    NoDup pre ∧
    (∀ q, q ∈ pre → pm !! q = None ∧ pm' !! q = Some test_class) ∧
    (dup ∈ dom pm ∨ dup ∈ pre) ∧
    (∀ q, q ∉ pre → pm' !! q = pm !! q).
Proof.
  induction provides as [|p provides IH]; intros pm (p0 & Hin & Hdom).
  { by apply elem_of_nil in Hin. }
  simpl. destruct (decide (p ∈ dom pm)) as [Hp|Hp].
  - exists [], p, provides, pm.
    split_and!; [done|done|constructor| |by left|done].
    by intros q ?%elem_of_nil.
  - apply elem_of_cons in Hin as [->|Hin]; [done|].
    destruct (IH (<[p := test_class]> pm))
      as (pre & dup & post & pm' & -> & -> & Hnd & Hpre & Hdup & Hother).
    { exists p0. split; [done|]. rewrite dom_insert_L. set_solver. }
    assert (Hp' : p ∉ pre).
    { intros Hq. destruct (Hpre p Hq) as [Hnone _].
      by rewrite lookup_insert_eq in Hnone. }
    exists (p :: pre), dup, post, pm'.
    split_and!; [done|done|by constructor|..].
    + intros q [->|Hq]%elem_of_cons.
      * split; [by apply not_elem_of_dom|].
        rewrite Hother by done. by rewrite lookup_insert_eq.
      * destruct (Hpre q Hq) as [Hnone Hsome]. split; [|done].
        destruct (decide (q = p)) as [->|Hne]; [done|].
        by rewrite lookup_insert_ne in Hnone.
    + destruct Hdup as [Hdup|Hdup]; [|right; by right].
      rewrite dom_insert_L in Hdup.
      apply elem_of_union in Hdup as [->%elem_of_singleton|Hdup];
        [right; left|by left].
    + intros q [Hne Hq]%not_elem_of_cons. rewrite Hother by done.
      by rewrite lookup_insert_ne.
Qed.

(** C10. When some property of the class's [PROVIDES] already has a
    producer, [RegisterTest] raises [DuplicatePropertyException] at the
    first property [dup] of the list that has a producer by then (from an
    earlier registration, or from this very call), and leaves the list of
    registered tests as it was.  The properties [pre] of the list before
    [dup] had no producer before the call and have the failing class as
    their producer after it, so that the call has changed the producer map
    whenever [dup] is not the first property of the list; every other entry
    is untouched. *)
Theorem RegisterTest_not_atomic classes test_class (self : TestRunner) :
  (∃ p, p ∈ PROVIDES (classes !!! test_class) ∧ p ∈ dom (_property_map self)) →
  ∃ pre dup post self',
    PROVIDES (classes !!! test_class) = pre ++ dup :: post ∧
    RegisterTest classes test_class self
    = (self', Raised (DuplicatePropertyException dup)) ∧
    _all_tests self' = _all_tests self ∧
    NoDup pre ∧
    (∀ q, q ∈ pre → _property_map self !! q = None ∧
                    _property_map self' !! q = Some test_class) ∧
    (dup ∈ dom (_property_map self) ∨ dup ∈ pre) ∧
    (∀ q, q ∉ pre → _property_map self' !! q = _property_map self !! q) ∧
    (pre ≠ [] → _property_map self' ≠ _property_map self).
Proof.
  intros Hdup. unfold RegisterTest.
  destruct (register_loop_raises test_class _ _ Hdup)
    as (pre & dup & post & pm' & HP & -> & Hnd & Hpre & Hwhy & Hother).
  exists pre, dup, post. eexists.
  split_and!; [done|reflexivity|done..|].
  simpl. intros Hne Heq. destruct pre as [|q pre]; [done|].
  destruct (Hpre q) as [Hnone Hsome]; [left|]. congruence.
Qed.

(** Class 0 provides [a]; class 1 provides [b], [a] and [c]: registering
    class 1 after class 0 fails at [a], and [b] is claimed by class 1 all
    the same. *)
Lemma RegisterTest_not_atomic_witness :
  ∃ pre dup post self',
    PROVIDES (classes_overlap !!! 1) = pre ++ dup :: post ∧
    RegisterTest classes_overlap 1 (register_all classes_overlap [0])
    = (self', Raised (DuplicatePropertyException dup)) ∧
    _all_tests self' = _all_tests (register_all classes_overlap [0]) ∧
    NoDup pre ∧
    (∀ q, q ∈ pre →
          _property_map (register_all classes_overlap [0]) !! q = None ∧
          _property_map self' !! q = Some 1) ∧
    (dup ∈ dom (_property_map (register_all classes_overlap [0])) ∨
     dup ∈ pre) ∧
    (∀ q, q ∉ pre →
          _property_map self' !! q
          = _property_map (register_all classes_overlap [0]) !! q) ∧
    (pre ≠ [] →
     _property_map self'
     ≠ _property_map (register_all classes_overlap [0])).
Proof.
  apply (RegisterTest_not_atomic classes_overlap 1
           (register_all classes_overlap [0])).
  exists "a". split.
  - simpl. set_solver.
  - apply elem_of_dom. by eexists.
Defined.

(** The same call, evaluated. *)
Lemma RegisterTest_not_atomic_example :
  ∃ self',
    RegisterTest classes_overlap 1 (register_all classes_overlap [0])
    = (self', Raised (DuplicatePropertyException "a")) ∧
    _all_tests self' = [0] ∧
    _property_map (register_all classes_overlap [0]) !! "b" = None ∧
    _property_map self' !! "b" = Some 1 ∧
    _property_map self' !! "a" = Some 0 ∧
    _property_map self' !! "c" = None.
Proof. eexists. split; [vm_compute; reflexivity|]. by split_and!. Qed.

(** ** The drain cycle *)

Lemma more_remain_pids f f' r :
  _queued_message_pid f' = _queued_message_pid f →
  _status_message_pid f' = _status_message_pid f →
  more_remain f r → more_remain f' r.
Proof. unfold more_remain. intros -> ->. done. Qed.

Lemma HandleResponse_more_remain r w :
  more_remain (fetcher w) r →
  HandleResponse r w = ((FetchQueuedMessage w).1, Returned ()).
Proof.
  intros (Hs & Hc & Ht & Hn & Hm). unfold HandleResponse. rewrite Hs. simpl.
  rewrite decide_False by (intros Hne; by apply Hne).
  rewrite (decide_False (P:=response_type r = RDM_ACK_TIMER)) by done.
  rewrite decide_False by done.
  destruct (decide _) as [Hst|Hst]; [|done].
  destruct Hm as [Hm|(m & ms & ->)]; done.
Qed.

Lemma HandleResponse_timer r w :
  is_ack_timer r →
  HandleResponse r w
  = (Reset (AddEvent (ack_timer r) cb_FetchQueuedMessage
              (logging (Debug_AckTimer (ack_timer r)) w)), Returned ()).
Proof.
  intros (Hs & Hc & Ht). unfold HandleResponse. rewrite Hs. simpl.
  rewrite decide_False by (intros Hne; by apply Hne).
  by rewrite decide_True.
Qed.

Lemma FetchQueuedMessage_at_limit u :
  _counter (fetcher u) = _limit (fetcher u) →
  FetchQueuedMessage u
  = (Stop (logging (Error_LoopLimit (_counter (fetcher u))) u), false).
Proof. intros Hc. unfold FetchQueuedMessage. by rewrite decide_True. Qed.

Lemma FetchQueuedMessage_below_limit u :
  _counter (fetcher u) ≠ _limit (fetcher u) →
  FetchQueuedMessage u = api_Get (set_counter (_counter (fetcher u) + 1) u).
Proof. intros Hc. unfold FetchQueuedMessage. by rewrite decide_False. Qed.

Section DrainFacts.
Variable responder : nat → Response.

Lemma Run_loop_quit fuel w :
  _quit (wrapper w) = true → Run_loop responder fuel w = (w, Returned ()).
Proof. intros Hq. destruct fuel; simpl; by rewrite Hq. Qed.

Lemma Run_loop_answer fuel w :
  _quit (wrapper w) = false → 0 < in_flight w →
  Run_loop responder (S fuel) w
  = match HandleResponse (responder (answered w)) (take_answer w) with
    | (w, Returned _) => Run_loop responder fuel w
    | (w, Raised e) => (w, Raised e)
    | (w, OutOfFuel) => (w, OutOfFuel)
    end.
Proof. intros Hq Hfl. simpl. rewrite Hq. by rewrite decide_True. Qed.

Lemma Run_loop_event fuel w time_in_ms events :
  _quit (wrapper w) = false → in_flight w = 0 →
  _events (wrapper w) = (time_in_ms, cb_FetchQueuedMessage) :: events →
  Run_loop responder (S fuel) w
  = Run_loop responder fuel
      (FetchQueuedMessage
         (set_wrapper {| _quit := false; _events := events |} w)).1.
Proof.
  intros Hq Hfl Hev. simpl. rewrite Hq, Hev.
  rewrite decide_False by lia. done.
Qed.

(** From a fetch on an idle, running loop, with [k] requests left before the
    limit and answers that are all timers or "more remain": the loop sends
    exactly [k] requests and stops at the limit. *)
Lemma Run_loop_until_limit k : ∀ fuel u,
  idle u → _quit (wrapper u) = false →
  (_counter (fetcher u) + Z.of_nat k = _limit (fetcher u))%Z →
  (∀ n, answered u ≤ n →
        more_remain (fetcher u) (responder n) ∨ is_ack_timer (responder n)) →
  2 * k ≤ fuel →
  Run_loop responder fuel (FetchQueuedMessage u).1
  = (limit_reached responder u k, Returned ()).
Proof.
  induction k as [|k IH]; intros fuel u [Hfl Hev] Hq Hk Hresp Hfuel.
  - rewrite FetchQueuedMessage_at_limit by lia.
    rewrite Run_loop_quit by done. f_equal.
    destruct u as [[lim cnt qp sp] [q ev] inf ans lg dev rn].
    simpl in *. subst inf ev q. assert (cnt = lim) as -> by lia.
    unfold limit_reached, Stop, logging, set_wrapper. simpl.
    by rewrite Nat.add_0_r.
  - destruct fuel as [|[|fuel]]; [lia..|].
    rewrite FetchQueuedMessage_below_limit by lia.
    rewrite Run_loop_answer; [|done|simpl; lia].
    assert (Hresp' : ∀ (f : QueuedMessageFetcher) n,
      _queued_message_pid f = _queued_message_pid (fetcher u) →
      _status_message_pid f = _status_message_pid (fetcher u) →
      answered u ≤ n →
      more_remain f (responder n) ∨ is_ack_timer (responder n)).
    { intros f n Hqp Hsp Hn. destruct (Hresp n Hn) as [H|H]; [|by right].
      left. by eapply more_remain_pids. }
    destruct (Hresp (answered u)) as [Hmore|Htimer]; [done|..].
    + rewrite HandleResponse_more_remain
        by (eapply more_remain_pids; [..|exact Hmore]; done).
      rewrite IH; [|done|done|simpl; lia| |lia].
      * f_equal. destruct u as [[lim cnt qp sp] [q ev] inf ans lg dev rn].
        unfold limit_reached. simpl.
        rewrite decide_False by apply Hmore. simpl.
        do 2 f_equal. lia.
      * intros n Hn. simpl in Hn. apply Hresp'; [done..|lia].
    + rewrite HandleResponse_timer by done.
      erewrite Run_loop_event; [|done|by simpl; rewrite Hfl|by simpl; rewrite Hev].
      rewrite IH; [|done|done|simpl; lia| |lia].
      * f_equal. destruct u as [[lim cnt qp sp] [q ev] inf ans lg dev rn].
        unfold limit_reached. simpl in *.
        rewrite decide_True by apply Htimer. simpl.
        rewrite <-!(assoc_L (++)). simpl. do 2 f_equal. lia.
      * intros n Hn. simpl in Hn. apply Hresp'; [done..|lia].
Qed.

Lemma FetchAllMessages_until_limit fuel w :
  (0 ≤ _limit (fetcher w))%Z → idle w →
  (∀ n, answered w ≤ n →
        more_remain (fetcher w) (responder n) ∨ is_ack_timer (responder n)) →
  2 * Z.to_nat (_limit (fetcher w)) ≤ fuel →
  FetchAllMessages responder fuel w
  = (limit_reached responder (set_counter 0 w)
       (Z.to_nat (_limit (fetcher w))), Returned ()).
Proof.
  intros Hlim [Hfl Hev] Hresp Hfuel. unfold FetchAllMessages.
  destruct (decide (_limit (fetcher w) = 0%Z)) as [Hz|Hnz].
  - destruct w as [[lim cnt qp sp] [q ev] inf ans lg dev rn].
    simpl in *. subst. unfold FetchQueuedMessage. simpl.
    unfold limit_reached. simpl. by rewrite Nat.add_0_r.
  - pose proof (Run_loop_until_limit (Z.to_nat (_limit (fetcher w))) fuel
                  (Reset (set_counter 0 w))) as Hrun.
    destruct w as [[lim cnt qp sp] [q ev] inf ans lg dev rn].
    simpl in *. subst. unfold FetchQueuedMessage in *. simpl in *.
    rewrite decide_False in * by (intros ?; apply Hnz; congruence).
    simpl in *. unfold Run. apply Hrun; [done|done|lia|done|done].
Qed.

End DrainFacts.

Lemma timer_log_no_timer responder start k :
  (∀ n, start ≤ n → response_type (responder n) ≠ RDM_ACK_TIMER) →
  timer_log responder start k = [].
Proof.
  revert start. induction k as [|k IH]; intros start Hno; [done|]. simpl.
  rewrite decide_False by (apply Hno; lia). apply IH. intros n ?.
  apply Hno. lia.
Qed.

Lemma response_more_remain f :
  _queued_message_pid f ≠ 32%Z → more_remain f response_more.
Proof.
  intros Hq. split_and!; [done..| |].
  - intros (_ & [=] & _).
  - left. intros ([=] & _).
Qed.

Lemma response_timer_is_ack_timer : is_ack_timer response_timer.
Proof. by split_and!. Qed.

(** C6. When every answer says that more messages remain, a drain cycle
    started on an idle world sends exactly [limit] requests (for a limit that
    is not negative, 25 by default), logs the loop-limit error, stops the
    loop and returns, given fuel for twice [limit] iterations. *)
Theorem FetchAllMessages_stops_at_limit responder fuel w :
  (0 ≤ _limit (fetcher w))%Z → idle w →
  (∀ n, answered w ≤ n → more_remain (fetcher w) (responder n)) →
  2 * Z.to_nat (_limit (fetcher w)) ≤ fuel →
  ∃ w',
    FetchAllMessages responder fuel w = (w', Returned ()) ∧
    answered w' + in_flight w'
    = answered w + in_flight w + Z.to_nat (_limit (fetcher w)) ∧
    in_flight w' = 0 ∧
    _quit (wrapper w') = true ∧
    _counter (fetcher w') = _limit (fetcher w) ∧
    log w' = log w ++ [Error_LoopLimit (_limit (fetcher w))].
Proof.
  intros Hlim Hidle Hresp Hfuel. eexists. split.
  - apply FetchAllMessages_until_limit; auto.
  - destruct Hidle as [Hfl Hev]. simpl. rewrite Hfl.
    rewrite timer_log_no_timer by (intros n Hn; by apply Hresp).
    split_and!; [lia|done..].
Qed.

Lemma FetchAllMessages_stops_at_limit_witness :
  ∃ w',
    FetchAllMessages (λ _, response_more) 50 (World_init 32 48)
    = (w', Returned ()) ∧
    answered w' + in_flight w' = 0 + 0 + 25 ∧
    in_flight w' = 0 ∧
    _quit (wrapper w') = true ∧
    _counter (fetcher w') = 25%Z ∧
    log w' = [] ++ [Error_LoopLimit 25].
Proof.
  apply (FetchAllMessages_stops_at_limit (λ _, response_more) 50
           (World_init 32 48)).
  - simpl. lia.
  - done.
  - intros n _. split_and!; [done..| |].
    + intros (_ & [=] & _).
    + left. intros ([=] & _).
  - simpl. lia.
Defined.

(** C4, as stated, fails: with the default limit of 25 and a device that
    answers every request with a timer, the drain cycle sends 25 requests,
    then runs into the loop limit: the error is logged and the loop
    stopped. *)
Lemma FetchAllMessages_timers_hit_limit :
  ∃ w',
    FetchAllMessages (λ _, response_timer) 60 (World_init 32 48)
    = (w', Returned ()) ∧
    answered w' = 25 ∧
    _counter (fetcher w') = 25%Z ∧
    _quit (wrapper w') = true ∧
    last (log w') = Some (Error_LoopLimit 25).
Proof. eexists. split; [vm_compute; reflexivity|]. by split_and!. Qed.

(** C4, as the code has it. Handling a timer answer leaves the counter as it
    is, schedules [_FetchQueuedMessage] after the timer's delay and clears
    the stop flag; the scheduled call then checks the counter against the
    limit and increments it as any other fetch does, so that a drain cycle
    answered by timers alone sends exactly [limit] requests and then runs
    into the loop limit. *)
Theorem timer_fetches_count_towards_limit responder fuel w r u :
  is_ack_timer r →
  (0 ≤ _limit (fetcher w))%Z → idle w →
  (∀ n, answered w ≤ n → is_ack_timer (responder n)) →
  2 * Z.to_nat (_limit (fetcher w)) ≤ fuel →
  (∃ u', HandleResponse r u = (u', Returned ()) ∧
         _counter (fetcher u') = _counter (fetcher u) ∧
         _events (wrapper u')
         = _events (wrapper u) ++ [(ack_timer r, cb_FetchQueuedMessage)] ∧
         _quit (wrapper u') = false) ∧
  (∃ w',
     FetchAllMessages responder fuel w = (w', Returned ()) ∧
     answered w' = answered w + Z.to_nat (_limit (fetcher w)) ∧
     in_flight w' = 0 ∧
     _quit (wrapper w') = true ∧
     _counter (fetcher w') = _limit (fetcher w) ∧
     last (log w') = Some (Error_LoopLimit (_limit (fetcher w)))).
Proof.
  intros Hr Hlim Hidle Hresp Hfuel. split.
  - eexists. split; [by apply HandleResponse_timer|]. done.
  - eexists. split; [apply FetchAllMessages_until_limit; auto|].
    simpl. split_and!; [done..|].
    by rewrite !(assoc_L (++)), last_snoc.
Qed.

Lemma timer_fetches_count_towards_limit_witness :
  (∃ u', HandleResponse response_timer (World_init 32 48) = (u', Returned ()) ∧
         _counter (fetcher u') = _counter (fetcher (World_init 32 48)) ∧
         _events (wrapper u')
         = _events (wrapper (World_init 32 48))
           ++ [(ack_timer response_timer, cb_FetchQueuedMessage)] ∧
         _quit (wrapper u') = false) ∧
  (∃ w',
     FetchAllMessages (λ _, response_timer) 50 (World_init 32 48)
     = (w', Returned ()) ∧
     answered w' = 0 + Z.to_nat 25 ∧
     in_flight w' = 0 ∧
     _quit (wrapper w') = true ∧
     _counter (fetcher w') = 25%Z ∧
     last (log w') = Some (Error_LoopLimit 25)).
Proof.
  apply (timer_fetches_count_towards_limit (λ _, response_timer) 50
           (World_init 32 48) response_timer (World_init 32 48)).
  - by split_and!.
  - simpl. lia.
  - done.
  - intros n _. by split_and!.
  - simpl. lia.
Defined.

(** ** The run loop *)

Lemma requires_check_returns found device requires :
  ∃ o, requires_check found device requires = Returned o.
Proof.
  induction requires as [|p requires IH]; simpl; [by eexists|].
  unfold getattr. destruct (found p); [done|].
  unfold DeviceProperties_getattr. destruct (decide _); [by eexists|].
  destruct (_properties device !! p) eqn:Hp; [done|].
  exfalso. by apply n, not_elem_of_dom.
Qed.

Lemma DeviceProperties_setattrs_log sets self log :
  (DeviceProperties_setattrs sets self log).1
  = (DeviceProperties_setattrs sets self []).1.
Proof.
  revert self log. induction sets as [|[p v] sets IH]; intros self log;
    [done|]. simpl. rewrite IH. symmetry. by rewrite IH.
Qed.




(** ** Instantiation *)

Section ResolutionFacts.
Variable classes : list TestClass.
Variable property_map : gmap string nat.

Lemma dep_classes_of_unknown c :
  length classes ≤ c → dep_classes_of classes property_map c = Returned [].
Proof.
  intros Hc. unfold dep_classes_of.
  by rewrite list_lookup_total_alt, (lookup_ge_None_2 _ _ Hc).
Qed.

Lemma class_dep_lt c d : class_dep classes property_map c d →
  c < length classes.
Proof.
  intros (l & Hl & Hd). destruct (decide (c < length classes)); [done|].
  rewrite dep_classes_of_unknown in Hl by lia. injection Hl as <-.
  by apply elem_of_nil in Hd.
Qed.

Lemma tc_class_dep_lt c d : tc (class_dep classes property_map) c d →
  c < length classes.
Proof. intros [x y Hd|x y z Hd _]; by eapply class_dep_lt. Qed.

Lemma parents_bound (parents : list nat) n :
  NoDup parents → (∀ p, p ∈ parents → p < n) → length parents ≤ n.
Proof.
  intros Hnd Hlt. rewrite <-(length_seq n 0).
  apply submseteq_length, NoDup_submseteq; [done|].
  intros p Hp. apply elem_of_seq. specialize (Hlt p Hp). lia.
Qed.

Lemma producers_known_dep c d :
  producers_known classes property_map c → class_dep classes property_map c d →
    producers_known classes property_map d.
Proof. intros Hc Hd e He. apply Hc. by eapply rtc_l. Qed.

Lemma extends_refl st : extends st st.
Proof. by split. Qed.

Lemma extends_trans st1 st2 st3 :
  extends st1 st2 → extends st2 st3 → extends st1 st3.
Proof.
  intros [H1 P1] [H2 P2]. split; [auto|]. by etrans.
Qed.

Lemma obj_of_ext (memo memo' : gmap nat (option nat)) (l : list nat) :
  (∀ d, d ∈ l → memo !! d = memo' !! d) →
  obj_of memo <$> l = obj_of memo' <$> l.
Proof.
  intros Heq. apply list_fmap_ext. intros i d Hd. unfold obj_of.
  by rewrite (Heq d) by by eapply list_elem_of_lookup_2.
Qed.

(** The state after [class_name_to_object[test_class] = None] and the
    creation of the instance. *)
Lemma res_inv_mark parents st c :
  res_inv classes property_map parents st →
    class_name_to_object st !! c = None →
  res_inv classes property_map (parents ++ [c])
    {| class_name_to_object := <[c := None]> (class_name_to_object st);
       deps_map := deps_map st;
       instances := instances st ++ [c] |}.
Proof.
  intros [Hprog Hdone [Hnd Hinst] Hkeys [rank Hrank]] Hc.
  assert (Hne : ∀ x o, class_name_to_object st !! x = Some o → x ≠ c)
    by (intros x o Hx ->; congruence).
  split; simpl.
  - intros x. destruct (decide (x = c)) as [->|Hx].
    + rewrite lookup_insert_eq. set_solver.
    + rewrite lookup_insert_ne by done. rewrite Hprog. set_solver.
  - intros x o Hx. destruct (decide (x = c)) as [->|Hxc].
    { by rewrite lookup_insert_eq in Hx. }
    rewrite lookup_insert_ne in Hx by done.
    destruct (Hdone x o Hx) as (Hi & l & Hl & Hd & Hall).
    split; [by apply lookup_app_l_Some|].
    exists l. split_and!; [done| |].
    + rewrite Hd. f_equal. f_equal. apply obj_of_ext. intros d Hd'.
      destruct (Hall d Hd') as [od Hod].
      rewrite lookup_insert_ne; [done|]. intros <-. congruence.
    + intros d Hd'. destruct (Hall d Hd') as [od Hod]. exists od.
      rewrite lookup_insert_ne; [done|]. intros <-. congruence.
  - split.
    + apply NoDup_app. split_and!; [done| |apply NoDup_singleton].
      intros x Hx ->%list_elem_of_singleton.
      apply Hinst, elem_of_dom in Hx as [o Ho]. congruence.
    + intros x [Hx| ->%list_elem_of_singleton]%elem_of_app.
      * apply elem_of_dom. apply Hinst, elem_of_dom in Hx as [o Ho].
        rewrite lookup_insert_ne; [by eexists|]. intros <-. congruence.
      * apply elem_of_dom. rewrite lookup_insert_eq. by eexists.
  - intros k Hk. destruct (Hkeys k Hk) as (o & x & -> & Hx).
    exists o, x. split; [done|].
    rewrite lookup_insert_ne; [done|]. intros <-. congruence.
  - exists rank. intros x o d Hx Hd. destruct (decide (x = c)) as [->|Hxc].
    { by rewrite lookup_insert_eq in Hx. }
    rewrite lookup_insert_ne in Hx by done. eauto.
Qed.

(** The state after [class_name_to_object[test_class] = test_obj] and
    [deps_map[test_obj] = set(dep_objects)]. *)
Lemma res_inv_finish parents st c o l :
  res_inv classes property_map (parents ++ [c]) st → c ∉ parents →
  instances st !! o = Some c →
  dep_classes_of classes property_map c = Returned l →
  (∀ d, d ∈ l → ∃ od, class_name_to_object st !! d = Some (Some od)) →
  res_inv classes property_map parents
    {| class_name_to_object := <[c := Some o]> (class_name_to_object st);
       deps_map :=
         <[Some o := list_to_set (obj_of (class_name_to_object st) <$> l)]>
           (deps_map st);
       instances := instances st |}.
Proof.
  intros [Hprog Hdone [Hnd Hinst] Hkeys [rank Hrank]] Hc Ho Hl Hall.
  assert (Hmark : class_name_to_object st !! c = Some None)
    by (apply Hprog; set_solver).
  assert (Hne : ∀ x ox, class_name_to_object st !! x = Some (Some ox) →
                        x ≠ c ∧ ox ≠ o).
  { intros x ox Hx. split; [intros ->; congruence|]. intros ->.
    destruct (Hdone x o Hx) as [Hi _]. congruence. }
  assert (Hext : ∀ l' : list nat, (∀ d, d ∈ l' →
                          ∃ od, class_name_to_object st !! d = Some (Some od)) →
            obj_of (class_name_to_object st) <$> l'
            = obj_of (<[c := Some o]> (class_name_to_object st)) <$> l').
  { intros l' Hl'. apply obj_of_ext. intros d Hd.
    destruct (Hl' d Hd) as [od Hod].
    rewrite lookup_insert_ne; [done|]. intros <-. congruence. }
  split; simpl.
  - intros x. destruct (decide (x = c)) as [->|Hx].
    + rewrite lookup_insert_eq. split; [done|]. intros ?. done.
    + rewrite lookup_insert_ne by done. rewrite Hprog. set_solver.
  - intros x ox Hx. destruct (decide (x = c)) as [->|Hxc].
    + rewrite lookup_insert_eq in Hx. injection Hx as <-.
      split; [done|]. exists l. split_and!; [done| |].
      * rewrite lookup_insert_eq. by rewrite Hext.
      * intros d Hd. destruct (Hall d Hd) as [od Hod]. exists od.
        rewrite lookup_insert_ne; [done|]. intros <-. congruence.
    + rewrite lookup_insert_ne in Hx by done.
      destruct (Hdone x ox Hx) as (Hi & lx & Hlx & Hd & Hallx).
      split; [done|]. exists lx. split_and!; [done| |].
      * rewrite lookup_insert_ne by (intros [=]; by apply (Hne x ox)).
        by rewrite <-Hext.
      * intros d Hd'. destruct (Hallx d Hd') as [od Hod]. exists od.
        rewrite lookup_insert_ne; [done|]. intros <-. congruence.
  - split; [done|]. intros x Hx. apply elem_of_dom.
    apply Hinst, elem_of_dom in Hx as [ox Hox].
    destruct (decide (x = c)) as [->|Hxc].
    + rewrite lookup_insert_eq. by eexists.
    + rewrite lookup_insert_ne by done. by eexists.
  - intros k Hk. apply elem_of_dom in Hk as [ds Hds].
    destruct (decide (k = Some o)) as [->|Hko].
    + exists o, c. by rewrite lookup_insert_eq.
    + rewrite lookup_insert_ne in Hds by done.
      destruct (Hkeys k) as (ox & x & -> & Hx); [by apply elem_of_dom|].
      exists ox, x. split; [done|].
      rewrite lookup_insert_ne; [done|]. intros <-. congruence.
  - exists (λ x, if decide (x = c) then S (max_list (rank <$> l)) else rank x).
    intros x ox d Hx (lx & Hlx & Hd).
    destruct (decide (x = c)) as [->|Hxc].
    + assert (lx = l) as -> by congruence.
      destruct (Hall d Hd) as [od Hod].
      destruct (decide (d = c)) as [->|_]; [congruence|].
      apply Nat.lt_succ_r, max_list_elem_of_le, list_elem_of_fmap.
      by exists d.
    + rewrite lookup_insert_ne in Hx by done.
      destruct (Hdone x ox Hx) as (_ & lx' & Hlx' & _ & Hallx).
      assert (lx' = lx) as -> by congruence.
      destruct (Hallx d Hd) as [od Hod].
      destruct (decide (d = c)) as [->|_]; [congruence|].
      apply (Hrank x ox d Hx). by exists lx.
Qed.

Lemma deps_loop_spec rec new_parents :
  (∀ st d, res_inv classes property_map new_parents st → d ∉ new_parents →
     (∀ p, p ∈ new_parents → tc (class_dep classes property_map) p d) →
       producers_known classes property_map d →
     AddTest_post classes property_map new_parents d st
       (rec st d new_parents)) →
  ∀ dcs st acc,
    res_inv classes property_map new_parents st →
    (∀ d, d ∈ dcs →
          producers_known classes property_map d ∧ ∀ p, p ∈ new_parents →
            tc (class_dep classes property_map) p d) →
    match deps_loop rec new_parents dcs st acc with
    | Returned (objs, st') =>
        res_inv classes property_map new_parents st' ∧ extends st st' ∧
        objs = acc ++ (obj_of (class_name_to_object st') <$> dcs) ∧
        ∀ d, d ∈ dcs → ∃ od, class_name_to_object st' !! d = Some (Some od)
    | Raised e =>
        ∃ d ps, e = CircularDepdendancyException d ps ∧
          tc (class_dep classes property_map) d d ∧
                (d ∈ new_parents ∨ ∃ d0, d0 ∈ dcs ∧
                  rtc (class_dep classes property_map) d0 d)
    | OutOfFuel => False
    end.
Proof.
  intros Hrec. induction dcs as [|d dcs IH]; intros st acc Hinv Hd; simpl.
  { split_and!; [done|apply extends_refl|by rewrite app_nil_r|].
    intros d Hd'. by apply elem_of_nil in Hd'. }
  destruct (decide (d ∈ new_parents)) as [Hin|Hnin].
  { exists d, new_parents. split_and!; [done| |by left].
    apply Hd; [left|done]. }
  destruct (Hd d) as [Hk Hp]; [left|].
  specialize (Hrec st d Hinv Hnin Hp Hk).
  destruct (rec st d new_parents) as [[obj st1]|e|]; simpl in *; [| |done].
  - destruct Hrec as (Hinv1 & Hext1 & o & -> & Ho).
    specialize (IH st1 (acc ++ [Some o]) Hinv1).
    destruct (deps_loop rec new_parents dcs st1 (acc ++ [Some o]))
      as [[objs st']|e|].
    + destruct IH as (Hinv' & Hext' & -> & Hdone).
      { intros d' Hd'. apply Hd. by right. }
      split_and!; [done|by eapply extends_trans| |].
      * rewrite <-(assoc_L (++)). simpl. do 2 f_equal.
        unfold obj_of. by rewrite (proj1 Hext' _ _ Ho).
      * intros d' [->|Hd']%elem_of_cons; [|by apply Hdone].
        exists o. by apply Hext'.
    + destruct IH as (d' & ps & -> & Htc & Hwhere).
      { intros d' Hd'. apply Hd. by right. }
      exists d', ps. split_and!; [done..|].
      destruct Hwhere as [Hin|(d0 & Hd0 & Hr)]; [by left|].
      right. exists d0. split; [by right|done].
    + apply IH. intros d' Hd'. apply Hd. by right.
  - destruct Hrec as (d' & ps & -> & Htc & Hwhere).
    exists d', ps. split_and!; [done..|].
    destruct Hwhere as [Hin|Hr]; [by left|].
    right. exists d. split; [left|done].
Qed.

Lemma AddTest_spec fuel : ∀ st c parents,
  res_inv classes property_map parents st → c ∉ parents → NoDup parents →
  (∀ p, p ∈ parents → tc (class_dep classes property_map) p c) →
  producers_known classes property_map c →
  length classes + 1 ≤ fuel + length parents →
  AddTest_post classes property_map parents c st
    (AddTest classes property_map fuel st c parents).
Proof.
  induction fuel as [|fuel IH];
    intros st c parents Hinv Hc Hnd Hpath Hknown Hfuel.
  { exfalso. assert (length parents ≤ length classes).
    { apply parents_bound; [done|]. intros p Hp.
      by eapply tc_class_dep_lt, Hpath. }
    simpl in Hfuel. lia. }
  cbn [AddTest]. destruct (class_name_to_object st !! c) as [[o|]|] eqn:Hmemo.
  - simpl. split_and!; [done|apply extends_refl|by exists o].
  - exfalso. by apply Hc, (res_progress _ _ _ _ Hinv).
  - destruct (Hknown c) as [l Hl]; [done|]. rewrite Hl. simpl.
    set (st1 := {| class_name_to_object := _ |}).
    pose proof (res_inv_mark parents st c Hinv Hmemo) as Hinv1.
    assert (Hnd1 : NoDup (parents ++ [c])).
    { apply NoDup_app. split_and!; [done| |apply NoDup_singleton].
      by intros x Hx ->%list_elem_of_singleton. }
    assert (Hrec : ∀ st' d,
      res_inv classes property_map (parents ++ [c]) st' → d ∉ parents ++ [c] →
      (∀ p, p ∈ parents ++ [c] → tc (class_dep classes property_map) p d) →
        producers_known classes property_map d →
      AddTest_post classes property_map (parents ++ [c]) d st'
        (AddTest classes property_map fuel st' d (parents ++ [c]))).
    { intros st' d Hinv' Hd Hp Hk. apply IH; [done..|].
      rewrite length_app. simpl. lia. }
    assert (Hdeps : ∀ d, d ∈ l →
      producers_known classes property_map d ∧ ∀ p, p ∈ parents ++ [c] →
        tc (class_dep classes property_map) p d).
    { intros d Hd. split; [eapply producers_known_dep; [done|by exists l]|].
      intros p [Hp| ->%list_elem_of_singleton]%elem_of_app.
      - eapply tc_r; [by apply Hpath|by exists l].
      - apply tc_once. by exists l. }
    pose proof (deps_loop_spec _ _ Hrec l st1 [] Hinv1 Hdeps) as Hloop.
    destruct (deps_loop _ _ _ _ _) as [[objs st2]|e|]; simpl; [| |done].
    + destruct Hloop as (Hinv2 & Hext2 & -> & Hdone). simpl.
      assert (Hi : instances st2 !! length (instances st) = Some c).
      { eapply prefix_lookup_Some; [|apply Hext2]. simpl.
        by apply list_lookup_middle. }
      split_and!.
      * by apply res_inv_finish.
      * split; simpl.
        -- intros x ox Hx. assert (x ≠ c) by (intros ->; congruence).
           rewrite lookup_insert_ne by done. apply Hext2. simpl.
           by rewrite lookup_insert_ne.
        -- etrans; [|apply Hext2]. simpl. by apply prefix_app_r.
      * eexists. split; [done|]. by rewrite lookup_insert_eq.
    + destruct Hloop as (d & ps & -> & Htc & Hwhere).
      exists d, ps. split_and!; [done..|].
      destruct Hwhere
        as [[Hin| ->%list_elem_of_singleton]%elem_of_app|(d0 & Hd0 & Hr)];
        [by left|by right|].
      right. eapply rtc_l; [|done]. by exists l.
Qed.

Lemma res_inv_init : res_inv classes property_map [] Resolution_init.
Proof.
  split; simpl.
  - intros c. rewrite lookup_empty. set_solver.
  - intros c o. by rewrite lookup_empty.
  - split; [constructor|]. intros c []%elem_of_nil.
  - intros k. rewrite dom_empty_L. set_solver.
  - exists (λ _, 0). intros c o d. by rewrite lookup_empty.
Qed.

Lemma instantiate_loop_spec fuel :
  length classes + 1 ≤ fuel →
  ∀ sel st,
    res_inv classes property_map [] st → (∀ t, t ∈ sel →
      producers_known classes property_map t) →
    match instantiate_loop classes property_map fuel sel st with
    | Returned st' =>
        res_inv classes property_map [] st' ∧ extends st st' ∧
        ∀ t, t ∈ sel → ∃ o, class_name_to_object st' !! t = Some (Some o)
    | Raised e =>
        ∃ d ps, e = CircularDepdendancyException d ps ∧
          tc (class_dep classes property_map) d d ∧
                ∃ t, t ∈ sel ∧ rtc (class_dep classes property_map) t d
    | OutOfFuel => False
    end.
Proof.
  intros Hfuel. induction sel as [|t sel IH]; intros st Hinv Hknown; simpl.
  { split_and!; [done|apply extends_refl|]. intros t []%elem_of_nil. }
  pose proof (AddTest_spec fuel st t [] Hinv) as Hadd.
  destruct (AddTest classes property_map fuel st t []) as [[obj st1]|e|];
    simpl in *.
  - destruct Hadd as (Hinv1 & Hext1 & o & -> & Ho);
      [by intros []%elem_of_nil|constructor|by intros p []%elem_of_nil
      |apply Hknown; left|lia|].
    specialize (IH st1 Hinv1).
    destruct (instantiate_loop classes property_map fuel sel st1)
      as [st'|e|].
    + destruct IH as (Hinv' & Hext' & Hdone).
      { intros t' Ht'. apply Hknown. by right. }
      split_and!; [done|by eapply extends_trans|].
      intros t' [->|Ht']%elem_of_cons; [|by apply Hdone].
      exists o. by apply Hext'.
    + destruct IH as (d & ps & -> & Htc & t' & Ht' & Hr).
      { intros t' Ht'. apply Hknown. by right. }
      exists d, ps. split_and!; [done..|]. exists t'. split; [by right|done].
    + apply IH. intros t' Ht'. apply Hknown. by right.
  - destruct Hadd as (d & ps & -> & Htc & Hwhere);
      [by intros []%elem_of_nil|constructor|by intros p []%elem_of_nil
      |apply Hknown; left|lia|].
    exists d, ps. split_and!; [done..|].
    destruct Hwhere as [[]%elem_of_nil|Hr]. exists t. split; [left|done].
  - apply Hadd; [by intros []%elem_of_nil|constructor
                 |by intros p []%elem_of_nil|apply Hknown; left|lia].
Qed.

(** The classes with objects are closed under dependencies, and no cycle
    goes through one of them. *)
Lemma done_closed parents st c o d :
  res_inv classes property_map parents st →
    class_name_to_object st !! c = Some (Some o) →
  class_dep classes property_map c d →
    ∃ od, class_name_to_object st !! d = Some (Some od).
Proof.
  intros Hinv Hc (l & Hl & Hd).
  destruct (res_done _ _ _ _ Hinv c o Hc) as (_ & l' & Hl' & _ & Hall).
  apply Hall. congruence.
Qed.

Lemma done_closed_rtc parents st c d :
  res_inv classes property_map parents st →
    rtc (class_dep classes property_map) c d →
  ∀ o, class_name_to_object st !! c = Some (Some o) →
  ∃ od, class_name_to_object st !! d = Some (Some od).
Proof.
  intros Hinv. induction 1 as [c|c x d Hcx _ IH]; intros o Hc; [eauto|].
  destruct (done_closed _ _ _ _ _ Hinv Hc Hcx) as [ox Hox]. eauto.
Qed.

Lemma done_acyclic parents st c o :
  res_inv classes property_map parents st →
    class_name_to_object st !! c = Some (Some o) →
  ¬ tc (class_dep classes property_map) c c.
Proof.
  intros Hinv Hc Htc. destruct (res_rank _ _ _ _ Hinv) as [rank Hrank].
  assert (Hlt : ∀ x y, tc (class_dep classes property_map) x y →
            ∀ ox, class_name_to_object st !! x = Some (Some ox) →
                  rank y < rank x).
  { induction 1 as [x y Hxy|x y z Hxy _ IH]; intros ox Hx; [by eauto|].
    destruct (done_closed _ _ _ _ _ Hinv Hx Hxy) as [oy Hoy].
    specialize (IH oy Hoy). specialize (Hrank x ox y Hx Hxy). lia. }
  specialize (Hlt c c Htc o Hc). lia.
Qed.

(** The edges of [deps_map] are the dependencies between the classes of the
    instances. *)
Lemma depends_class_dep parents st t d :
  res_inv classes property_map parents st → depends (deps_map st) t d →
  ∃ x y ox oy,
    t = Some ox ∧ d = Some oy ∧
    class_name_to_object st !! x = Some (Some ox) ∧
    class_name_to_object st !! y = Some (Some oy) ∧
    class_dep classes property_map x y.
Proof.
  intros Hinv (ds & Hds & Hd).
  destruct (res_keys _ _ _ _ Hinv t) as (ox & x & -> & Hx);
    [by apply elem_of_dom|].
  destruct (res_done _ _ _ _ Hinv x ox Hx) as (_ & l & Hl & Hm & Hall).
  rewrite Hm in Hds. injection Hds as <-.
  apply elem_of_list_to_set, list_elem_of_fmap in Hd as (y & -> & Hy).
  destruct (Hall y Hy) as [oy Hoy].
  exists x, y, ox, oy. unfold obj_of. rewrite Hoy.
  split_and!; [done..|]. by exists l.
Qed.

Lemma res_inv_resolved parents st :
  res_inv classes property_map parents st → resolved (deps_map st).
Proof.
  intros Hinv t d Hdep.
  destruct (depends_class_dep _ _ _ _ Hinv Hdep)
    as (x & y & ox & oy & -> & -> & Hx & Hy & _).
  destruct (res_done _ _ _ _ Hinv y oy Hy) as (_ & l & _ & Hm & _).
  apply elem_of_dom. eauto.
Qed.

Lemma res_inv_acyclic parents st :
  res_inv classes property_map parents st → acyclic (deps_map st).
Proof.
  intros Hinv. destruct (res_rank _ _ _ _ Hinv) as [rank Hrank].
  apply (ranked_acyclic _
    (λ k, match k ≫= (instances st !!.) with Some c => rank c | None => 0 end)).
  intros t d Hdep.
  destruct (depends_class_dep _ _ _ _ Hinv Hdep)
    as (x & y & ox & oy & -> & -> & Hx & Hy & Hxy).
  destruct (res_done _ _ _ _ Hinv x ox Hx) as (Hix & _).
  destruct (res_done _ _ _ _ Hinv y oy Hy) as (Hiy & _).
  simpl. rewrite Hix, Hiy. eauto.
Qed.

(** Resolution of a selection in which every required property has a
    producer: it raises [CircularDepdendancyException] when the selection
    reaches a cycle, and returns otherwise. *)
Lemma InstantiateTests_cycle sel t c :
  (∀ t, t ∈ sel → producers_known classes property_map t) →
  t ∈ sel → rtc (class_dep classes property_map) t c →
    tc (class_dep classes property_map) c c →
  ∃ d ps,
    InstantiateTests classes property_map sel
    = Raised (CircularDepdendancyException d ps) ∧
    tc (class_dep classes property_map) d d ∧ ∃ t, t ∈ sel ∧
      rtc (class_dep classes property_map) t d.
Proof.
  intros Hknown Ht Hr Htc. unfold InstantiateTests.
  pose proof (instantiate_loop_spec (S (length classes)) ltac:(lia)
                sel Resolution_init res_inv_init Hknown) as Hspec.
  destruct (instantiate_loop _ _ _ _ _) as [st|e|]; [exfalso| |done].
  - destruct Hspec as (Hinv & _ & Hdone).
    destruct (Hdone t Ht) as [o Ho].
    destruct (done_closed_rtc _ _ _ _ Hinv Hr o Ho) as [oc Hoc].
    by apply (done_acyclic _ _ _ _ Hinv Hoc).
  - destruct Hspec as (d & ps & -> & Hd & Hsel). by exists d, ps.
Qed.

Lemma InstantiateTests_returns sel :
  (∀ t, t ∈ sel → producers_known classes property_map t) →
  (∀ t d, t ∈ sel → rtc (class_dep classes property_map) t d →
    ¬ tc (class_dep classes property_map) d d) →
  ∃ st,
    InstantiateTests classes property_map sel = Returned st ∧
    res_inv classes property_map [] st ∧
    ∀ t, t ∈ sel → ∃ o, class_name_to_object st !! t = Some (Some o).
Proof.
  intros Hknown Hacyc. unfold InstantiateTests.
  pose proof (instantiate_loop_spec (S (length classes)) ltac:(lia)
                sel Resolution_init res_inv_init Hknown) as Hspec.
  destruct (instantiate_loop _ _ _ _ _) as [st|e|]; [|exfalso|done].
  - exists st. by destruct Hspec as (Hinv & _ & Hdone).
  - destruct Hspec as (d & ps & -> & Hd & t & Ht & Hr).
    by apply (Hacyc t d).
Qed.

End ResolutionFacts.


Lemma class_table_ordered_spec classes property_map :
  class_table_ordered classes property_map = true →
  (∀ c, producers_known classes property_map c) ∧
  (∀ c, ¬ tc (class_dep classes property_map) c c).
Proof.
  intros Hord.
  assert (Hall : ∀ c, ∃ l,
    dep_classes_of classes property_map c = Returned l ∧
    ∀ d, d ∈ l → d < c).
  { intros c. destruct (decide (c < length classes)) as [Hc|Hc].
    - unfold class_table_ordered in Hord.
      rewrite forallb_forall in Hord. specialize (Hord c).
      destruct (dep_classes_of classes property_map c) as [l| |].
      + exists l. split; [done|]. intros d Hd.
        rewrite forallb_forall in Hord.
        apply Nat.ltb_lt, Hord; [|by apply list_elem_of_In].
        apply in_seq. lia.
      + discriminate Hord. apply in_seq. lia.
      + discriminate Hord. apply in_seq. lia.
    - exists []. split; [apply dep_classes_of_unknown; lia|].
      by intros d []%elem_of_nil. }
  split.
  - intros c d _. destruct (Hall d) as (l & Hl & _). eauto.
  - intros c Htc.
    assert (Hlt : ∀ x y, tc (class_dep classes property_map) x y → y < x).
    { induction 1 as [x y (l & Hl & Hy)|x y z (l & Hl & Hy) _ IH].
      - destruct (Hall x) as (l' & Hl' & Hlt). apply Hlt. congruence.
      - destruct (Hall x) as (l' & Hl' & Hlt).
        assert (y < x) by (apply Hlt; congruence). lia. }
    specialize (Hlt c c Htc). lia.
Qed.

(** ** Cycles *)

(** C7, as the code has it. When every property required by a selected class,
    or by a class it depends on, has a producer, and the selection (the
    registered classes, or those of them the filter names) reaches a
    requires-cycle, [_InstantiateTests] raises [CircularDepdendancyException]
    on a class of a cycle, and [RunTests] raises it before any request is
    sent or any test body runs. *)
Theorem RunTests_cycle_raises responder classes iteritems pop found fuel self
    filter w t c :
  (∀ t, t ∈ tests_to_run classes self filter →
        producers_known classes (_property_map self) t) →
  t ∈ tests_to_run classes self filter →
  rtc (class_dep classes (_property_map self)) t c →
  tc (class_dep classes (_property_map self)) c c →
  ∃ d ps w',
    InstantiateTests classes (_property_map self)
                     (tests_to_run classes self filter)
    = Raised (CircularDepdendancyException d ps) ∧
    tc (class_dep classes (_property_map self)) d d ∧
    RunTests responder classes iteritems pop found fuel self filter w
    = (w', Raised (CircularDepdendancyException d ps)) ∧
    ran w' = ran w ∧ answered w' = answered w ∧
    in_flight w' = in_flight w ∧ log w' = log w.
Proof.
  intros Hknown Ht Hr Htc.
  destruct (InstantiateTests_cycle _ _ _ _ _ Hknown Ht Hr Htc)
    as (d & ps & Hraise & Hd & _).
  exists d, ps. eexists. split_and!; [done|done| |..].
  - unfold RunTests. rewrite Hraise. reflexivity.
  - done.
  - done.
  - done.
  - done.
Qed.

Lemma RunTests_cycle_raises_witness :
  ∃ d ps w',
    InstantiateTests classes_cycle
      (_property_map (register_all classes_cycle [0; 1; 2]))
      (tests_to_run classes_cycle (register_all classes_cycle [0; 1; 2]) None)
    = Raised (CircularDepdendancyException d ps) ∧
    tc (class_dep classes_cycle
          (_property_map (register_all classes_cycle [0; 1; 2]))) d d ∧
    RunTests (λ _, response_empty) classes_cycle iteritems_std pop_first
             found_source 50
             (register_all classes_cycle [0; 1; 2]) None (World_init 32 48)
    = (w', Raised (CircularDepdendancyException d ps)) ∧
    ran w' = ran (World_init 32 48) ∧
    answered w' = answered (World_init 32 48) ∧
    in_flight w' = in_flight (World_init 32 48) ∧
    log w' = log (World_init 32 48).
Proof.
  apply (RunTests_cycle_raises (λ _, response_empty) classes_cycle
           iteritems_std pop_first
                    found_source 50 (register_all classes_cycle [0; 1; 2])
           None (World_init 32 48) 0 0).
  - intros t _ d _. destruct d as [|[|[|d]]]; [by eexists..|].
    exists []. apply dep_classes_of_unknown. simpl. lia.
  - vm_compute. left.
  - apply rtc_refl.
  - apply (tc_l _ 0 1 0); [|apply tc_once].
    + exists [1]. split; [reflexivity|left].
    + exists [0]. split; [reflexivity|left].
Defined.

(** C7, as stated, fails twice.  A registered set with a requires-cycle that
    the filter leaves out resolves without an error, and the selected test
    runs.  And with a class registered first whose required property has no
    producer, resolution fails with [MissingPropertyException], the cycle
    being there all the same. *)
Lemma RunTests_cycle_not_reported :
  tc (class_dep classes_cycle
        (_property_map (register_all classes_cycle [0; 1; 2]))) 0 0 ∧
  (∃ w',
     RunTests (λ _, response_empty) classes_cycle iteritems_std pop_first
              found_source 50
              (register_all classes_cycle [0; 1; 2]) (Some ["T"])
              (World_init 32 48)
     = (w', Returned [Some 0]) ∧ ran w' = [Some 0]) ∧
  tc (class_dep classes_missing
        (_property_map (register_all classes_missing [2; 0; 1]))) 0 0 ∧
  (∃ w',
     RunTests (λ _, response_empty) classes_missing iteritems_std pop_first
              found_source 50
              (register_all classes_missing [2; 0; 1]) None (World_init 32 48)
     = (w', Raised (MissingPropertyException "q")) ∧ ran w' = []).
Proof.
  split_and!.
  - apply (tc_l _ 0 1 0); [|apply tc_once].
    + exists [1]. split; [reflexivity|left].
    + exists [0]. split; [reflexivity|left].
  - eexists. split; [vm_compute; reflexivity|done].
  - apply (tc_l _ 0 1 0); [|apply tc_once].
    + exists [1]. split; [reflexivity|left].
    + exists [0]. split; [reflexivity|left].
  - eexists. split; [vm_compute; reflexivity|done].
Qed.

(** ** Shared dependencies *)

Lemma class_dep_depends classes property_map parents st x y ox oy :
  res_inv classes property_map parents st →
  class_name_to_object st !! x = Some (Some ox) →
  class_name_to_object st !! y = Some (Some oy) →
  class_dep classes property_map x y →
  depends (deps_map st) (Some ox) (Some oy).
Proof.
  intros Hinv Hx Hy (l & Hl & Hin).
  destruct (res_done _ _ _ _ Hinv x ox Hx) as (_ & l' & Hl' & Hm & _).
  assert (l' = l) as -> by congruence.
  eexists. split; [done|].
  apply elem_of_list_to_set, list_elem_of_fmap. exists y.
  unfold obj_of. by rewrite Hy.
Qed.

(** C9. In a selection that resolves (every required property has a
    producer and no cycle is reached) and holds a diamond, C depending on A
    and B and both of them on D, whatever else depends on what: resolution
    returns with exactly one instance of D; the dependency sets recorded for
    the instances of A and of B both hold that instance; and the sort,
    whatever order the interpreter iterates dicts in and whatever element its
    sets pop, returns a list in which that instance occurs at exactly one
    index. *)
Theorem diamond_one_instance (classes : list TestClass)
    (property_map : gmap string nat)
    (iteritems : gmap (option nat) (gset (option nat)) →
                 list (option nat * gset (option nat)))
    (pop : gset (option nat) → option (option nat))
    (sel : list nat) (A B C D : nat) :
  (∀ m, iteritems m ≡ₚ map_to_list m) →
  (∀ s x, pop s = Some x → x ∈ s) →
  (∀ s, s ≠ ∅ → is_Some (pop s)) →
  (∀ t, t ∈ sel → producers_known classes property_map t) →
  (∀ t d, t ∈ sel → rtc (class_dep classes property_map) t d →
          ¬ tc (class_dep classes property_map) d d) →
  C ∈ sel →
  class_dep classes property_map C A → class_dep classes property_map C B →
  class_dep classes property_map A D → class_dep classes property_map B D →
  ∃ st out a b d i,
    InstantiateTests classes property_map sel = Returned st ∧
    (∀ o, instances st !! o = Some D ↔ o = d) ∧
    instances st !! a = Some A ∧ instances st !! b = Some B ∧
    depends (deps_map st) (Some a) (Some d) ∧
    depends (deps_map st) (Some b) (Some d) ∧
    TopologicalSort iteritems pop (deps_map st) = Returned out ∧
    (∀ j, out !! j = Some (Some d) ↔ j = i).
Proof.
  intros Hperm Hpop Hne Hknown Hacyc HC HCA HCB HAD HBD.
  destruct (InstantiateTests_returns _ _ _ Hknown Hacyc)
    as (st & Hrun & Hinv & Hdone).
  destruct (Hdone C HC) as [c Hc].
  destruct (done_closed _ _ _ _ _ _ _ Hinv Hc HCA) as [a Ha].
  destruct (done_closed _ _ _ _ _ _ _ Hinv Hc HCB) as [b Hb].
  destruct (done_closed _ _ _ _ _ _ _ Hinv Ha HAD) as [d Hd].
  destruct (res_done _ _ _ _ Hinv A a Ha) as (Hia & _).
  destruct (res_done _ _ _ _ Hinv B b Hb) as (Hib & _).
  destruct (res_done _ _ _ _ Hinv D d Hd) as (Hid & l & _ & Hm & _).
  destruct (TopologicalSort_spec iteritems pop Hperm Hpop Hne (deps_map st))
    as (out & Hsort & Hnd & _).
  assert (Hin : Some d ∈ out).
  { apply (TopologicalSort_complete iteritems pop Hperm Hpop Hne
             (deps_map st)); [by eapply res_inv_resolved
                             |by eapply res_inv_acyclic|done|].
    apply elem_of_dom. eauto. }
  apply list_elem_of_lookup_1 in Hin as [i Hi].
  exists st, out, a, b, d, i. split_and!; [done| |done|done|..|done|].
  - intros o. split; [|by intros ->]. intros Ho.
    by apply (NoDup_lookup (instances st) o d D (proj1
      (res_instances _ _ _ _ Hinv))).
  - by eapply class_dep_depends.
  - by eapply class_dep_depends.
  - intros j. split; [|by intros ->]. intros Hj.
    by apply (NoDup_lookup out j i (Some d)).
Qed.

Lemma diamond_one_instance_witness :
  ∃ st out a b d i,
    InstantiateTests classes_diamond
      (_property_map (register_all classes_diamond [0; 1; 2; 3])) [3]
    = Returned st ∧
    (∀ o, instances st !! o = Some 0 ↔ o = d) ∧
    instances st !! a = Some 1 ∧ instances st !! b = Some 2 ∧
    depends (deps_map st) (Some a) (Some d) ∧
    depends (deps_map st) (Some b) (Some d) ∧
    TopologicalSort iteritems_std pop_first (deps_map st) = Returned out ∧
    (∀ j, out !! j = Some (Some d) ↔ j = i).
Proof.
  apply (diamond_one_instance classes_diamond
           (_property_map (register_all classes_diamond [0; 1; 2; 3]))
           iteritems_std pop_first [3] 1 2 3 0).
  - apply iteritems_std_perm.
  - apply pop_first_elem.
  - apply pop_first_nonempty.
  - intros t _. by apply class_table_ordered_spec.
  - intros t d _ _. by apply class_table_ordered_spec.
  - left.
  - exists [1; 2]. split; [reflexivity|left].
  - exists [1; 2]. split; [reflexivity|right; left].
  - exists [0]. split; [reflexivity|left].
  - exists [0]. split; [reflexivity|left].
Defined.

(** ** More on the topological sort *)

Section SortMore.
Context `{Countable K}.
Variable iteritems : gmap K (gset K) → list (K * gset K).
Variable pop : gset K → option K.
Hypothesis iteritems_perm : ∀ m, iteritems m ≡ₚ map_to_list m.
Hypothesis pop_elem : ∀ s x, pop s = Some x → x ∈ s.
Hypothesis pop_nonempty : ∀ s, s ≠ ∅ → is_Some (pop s).

Lemma before_trans (a b c : K) (l : list K) :
  NoDup l → before a b l → before b c l → before a c l.
Proof.
  intros Hnd (i & j & Hi & Hj & Hij) (j' & k & Hj' & Hk & Hjk).
  assert (j' = j) as -> by by eapply NoDup_lookup.
  exists i, k. split_and!; [done..|lia].
Qed.

(** X1. The sort is total: for every dict, resolved or not, cyclic or not,
    it returns a list without duplicates of instances of the dict. *)
Theorem TopologicalSort_returns_distinct_instances (m0 : gmap K (gset K)) :
  ∃ out,
    TopologicalSort iteritems pop m0 = Returned out ∧
    NoDup out ∧ ∀ t, t ∈ out → t ∈ dom m0.
Proof.
  destruct (TopologicalSort_spec iteritems pop iteritems_perm pop_elem
              pop_nonempty m0) as (out & Hrun & Hnd & Hsub & _).
  by exists out.
Qed.

(** X2. On every dict, an instance that is scheduled comes after each of its
    dependencies, direct or not. *)
Theorem TopologicalSort_transitive_dependencies_first
    (m0 : gmap K (gset K)) out t d :
  TopologicalSort iteritems pop m0 = Returned out →
  t ∈ out → tc (depends m0) t d → before d t out.
Proof.
  intros Hrun Ht Htc.
  destruct (TopologicalSort_spec iteritems pop iteritems_perm pop_elem
              pop_nonempty m0) as (out' & Hrun' & Hnd & _ & Hord & _).
  rewrite Hrun in Hrun'. injection Hrun' as <-.
  induction Htc as [t d Htd|t x d Htx _ IH]; [by apply Hord|].
  pose proof (Hord t x Ht Htx) as Hxt.
  eapply before_trans; [done| |done]. apply IH.
  destruct Hxt as (i & _ & Hi & _). by eapply list_elem_of_lookup_2.
Qed.

(** X3. On every dict, an instance without dependencies is scheduled. *)
Theorem TopologicalSort_schedules_independent (m0 : gmap K (gset K)) out t :
  TopologicalSort iteritems pop m0 = Returned out →
  m0 !! t = Some ∅ → t ∈ out.
Proof.
  intros Hrun Ht.
  destruct (TopologicalSort_spec iteritems pop iteritems_perm pop_elem
              pop_nonempty m0) as (out' & Hrun' & _ & _ & _ & Hleft).
  rewrite Hrun in Hrun'. injection Hrun' as <-.
  destruct (decide (t ∈ out)) as [|Hnot]; [done|exfalso].
  destruct (Hleft t) as (d & (ds & Hds & Hd) & _);
    [by apply elem_of_dom|done|].
  rewrite Ht in Hds. injection Hds as <-. set_solver.
Qed.

(** X4. An instance with a dependency that is not an instance of the dict is
    left out of the result. *)
Theorem TopologicalSort_drops_unresolved (m0 : gmap K (gset K)) out t d :
  TopologicalSort iteritems pop m0 = Returned out →
  depends m0 t d → d ∉ dom m0 → t ∉ out.
Proof.
  intros Hrun Hdep Hd Ht.
  destruct (TopologicalSort_spec iteritems pop iteritems_perm pop_elem
              pop_nonempty m0) as (out' & Hrun' & _ & Hsub & Hord & _).
  rewrite Hrun in Hrun'. injection Hrun' as <-.
  destruct (Hord t d Ht Hdep) as (i & _ & Hi & _).
  by eapply Hd, Hsub, list_elem_of_lookup_2.
Qed.

End SortMore.

(** X5. An instance on a dependency cycle, and every instance that depends on
    one, is left out of the result. *)
Theorem TopologicalSort_drops_cycles `{Countable K}
    (iteritems : gmap K (gset K) → list (K * gset K))
    (pop : gset K → option K) (m0 : gmap K (gset K)) out s t :
  (∀ m, iteritems m ≡ₚ map_to_list m) →
  (∀ s x, pop s = Some x → x ∈ s) →
  (∀ s, s ≠ ∅ → is_Some (pop s)) →
  TopologicalSort iteritems pop m0 = Returned out →
  rtc (depends m0) s t → tc (depends m0) t t → s ∉ out.
Proof.
  intros Hperm Hpop Hne Hrun Hst Htt Hs.
  destruct (TopologicalSort_spec iteritems pop Hperm Hpop Hne m0)
    as (out' & Hrun' & Hnd & _ & Hord & _).
  rewrite Hrun in Hrun'. injection Hrun' as <-.
  assert (Hin : ∀ x y, rtc (depends m0) x y → x ∈ out → y ∈ out).
  { induction 1 as [|x y z Hxy _ IH]; [done|]. intros Hx. apply IH.
    destruct (Hord x y Hx Hxy) as (i & _ & Hi & _).
    by eapply list_elem_of_lookup_2. }
  assert (Hbefore : ∀ x y, tc (depends m0) x y → x ∈ out → before y x out).
  { induction 1 as [x y Hxy|x y z Hxy _ IH]; intros Hx; [by apply Hord|].
    pose proof (Hord x y Hx Hxy) as Hyx.
    eapply before_trans; [done| |done]. apply IH.
    destruct Hyx as (i & _ & Hi & _). by eapply list_elem_of_lookup_2. }
  destruct (Hbefore t t Htt (Hin s t Hst Hs)) as (i & j & Hi & Hj & Hij).
  assert (i = j) by by eapply NoDup_lookup. lia.
Qed.

Lemma TopologicalSort_returns_distinct_instances_witness :
  ∃ out,
    TopologicalSort iteritems_std pop_first graph_cycle = Returned out ∧
    NoDup out ∧ ∀ t, t ∈ out → t ∈ dom graph_cycle.
Proof.
  apply (TopologicalSort_returns_distinct_instances iteritems_std pop_first
           iteritems_std_perm pop_first_elem pop_first_nonempty graph_cycle).
Defined.

Lemma TopologicalSort_transitive_dependencies_first_witness :
  before 0 2 [3; 0; 1; 2].
Proof.
  apply (TopologicalSort_transitive_dependencies_first iteritems_std pop_first
           iteritems_std_perm pop_first_elem pop_first_nonempty graph_chain
           [3; 0; 1; 2] 2 0).
  - vm_compute. reflexivity.
  - set_solver.
  - apply (tc_l _ 2 1 0); [|apply tc_once].
    + exists {[0; 1]}. split; [done|set_solver].
    + exists {[0]}. split; [done|set_solver].
Defined.

Lemma TopologicalSort_schedules_independent_witness : 0 ∈ [0].
Proof.
  apply (TopologicalSort_schedules_independent iteritems_std pop_first
           iteritems_std_perm pop_first_elem pop_first_nonempty graph_cycle
           [0] 0).
  - vm_compute. reflexivity.
  - done.
Defined.

Lemma TopologicalSort_drops_unresolved_witness : 1 ∉ [0].
Proof.
  apply (TopologicalSort_drops_unresolved iteritems_std pop_first
           iteritems_std_perm pop_first_elem pop_first_nonempty
           graph_unresolved [0] 1 7).
  - vm_compute. reflexivity.
  - exists {[7]}. split; [done|set_solver].
  - apply not_elem_of_dom. reflexivity.
Defined.

Lemma TopologicalSort_drops_cycles_witness : 1 ∉ [0].
Proof.
  apply (TopologicalSort_drops_cycles iteritems_std pop_first graph_cycle
           [0] 1 1 iteritems_std_perm pop_first_elem pop_first_nonempty).
  - vm_compute. reflexivity.
  - apply rtc_refl.
  - apply (tc_l _ 1 2 1); [|apply tc_once].
    + exists {[2]}. split; [done|set_solver].
    + exists {[1]}. split; [done|set_solver].
Defined.

(** ** Instantiation, whatever the class table *)

Section ResolutionOutcomes.
Variable classes : list TestClass.
Variable property_map : gmap string nat.

Lemma requires_loop_outcome requires : ∀ acc,
  match requires_loop property_map requires acc with
  | Returned l => True
  | Raised (MissingPropertyException p) =>
      p ∈ requires ∧ p ∉ dom property_map
  | Raised _ => False
  | OutOfFuel => False
  end.
Proof.
  induction requires as [|p requires IH]; intros acc; simpl; [done|].
  destruct (decide (p ∉ dom property_map)) as [Hp|Hp]; [split; [left|done]|].
  destruct (property_map !! p) as [c|] eqn:Hc.
  - specialize (IH (acc ++ [c])).
    destruct (requires_loop property_map requires (acc ++ [c]))
      as [l|[]|]; try done.
    destruct IH. split; [by right|done].
  - apply Hp. by apply not_elem_of_dom.
Qed.

Lemma dep_classes_of_outcome c :
  match dep_classes_of classes property_map c with
  | Returned l => True
  | Raised (MissingPropertyException p) =>
      p ∈ REQUIRES (classes !!! c) ∧ p ∉ dom property_map
  | Raised _ => False
  | OutOfFuel => False
  end.
Proof.
  unfold dep_classes_of.
  pose proof (requires_loop_outcome (REQUIRES (classes !!! c)) []) as Hr.
  by destruct (requires_loop _ _ _) as [l|[]|].
Qed.

Lemma deps_loop_outcome rec new_parents :
  (∀ st d, res_inv classes property_map new_parents st → d ∉ new_parents →
     (∀ p, p ∈ new_parents → tc (class_dep classes property_map) p d) →
     AddTest_outcome classes property_map new_parents d st
       (rec st d new_parents)) →
  ∀ dcs st acc,
    res_inv classes property_map new_parents st →
    (∀ d p, d ∈ dcs → p ∈ new_parents →
            tc (class_dep classes property_map) p d) →
    match deps_loop rec new_parents dcs st acc with
    | Returned (objs, st') =>
        res_inv classes property_map new_parents st' ∧ extends st st' ∧
        objs = acc ++ (obj_of (class_name_to_object st') <$> dcs) ∧
        ∀ d, d ∈ dcs → ∃ od, class_name_to_object st' !! d = Some (Some od)
    | Raised (CircularDepdendancyException d ps) =>
        tc (class_dep classes property_map) d d ∧
        (d ∈ new_parents ∨
         ∃ d0, d0 ∈ dcs ∧ rtc (class_dep classes property_map) d0 d)
    | Raised (MissingPropertyException p) =>
        ∃ d0 x, d0 ∈ dcs ∧ rtc (class_dep classes property_map) d0 x ∧
                p ∈ REQUIRES (classes !!! x) ∧ p ∉ dom property_map
    | Raised _ => False
    | OutOfFuel => False
    end.
Proof.
  intros Hrec. induction dcs as [|d dcs IH]; intros st acc Hinv Hd; simpl.
  { split_and!; [done|apply extends_refl|by rewrite app_nil_r|].
    intros d Hd'. by apply elem_of_nil in Hd'. }
  destruct (decide (d ∈ new_parents)) as [Hin|Hnin].
  { split; [|by left]. apply Hd; [left|done]. }
  specialize (Hrec st d Hinv Hnin (λ p, Hd d p ltac:(left))).
  destruct (rec st d new_parents) as [[obj st1]|e|]; simpl in *; [| |done].
  - destruct Hrec as (Hinv1 & Hext1 & o & -> & Ho).
    specialize (IH st1 (acc ++ [Some o]) Hinv1
                  (λ d' p Hd', Hd d' p ltac:(by right))).
    destruct (deps_loop rec new_parents dcs st1 (acc ++ [Some o]))
      as [[objs st']|e|]; [| |done].
    + destruct IH as (Hinv' & Hext' & -> & Hdone).
      split_and!; [done|by eapply extends_trans| |].
      * rewrite <-(assoc_L (++)). simpl. do 2 f_equal.
        unfold obj_of. by rewrite (proj1 Hext' _ _ Ho).
      * intros d' [->|Hd']%elem_of_cons; [|by apply Hdone].
        exists o. by apply Hext'.
    + destruct e as [| |d' ps| | |]; try done.
      * destruct IH as (d0 & x & Hd0 & Hr & Hp & Hn).
        exists d0, x. split_and!; [by right|done|done..].
      * destruct IH as (Htc & Hwhere). split; [done|].
        destruct Hwhere as [Hin|(d0 & Hd0 & Hr)]; [by left|].
        right. exists d0. split; [by right|done].
  - destruct e as [| |d' ps| | |]; try done.
    + destruct Hrec as (x & Hr & Hp & Hn). exists d, x.
      split_and!; [left|done..].
    + destruct Hrec as (Htc & Hwhere). split; [done|].
      destruct Hwhere as [Hin|Hr]; [by left|].
      right. exists d. split; [left|done].
Qed.

Lemma AddTest_outcome_spec fuel : ∀ st c parents,
  res_inv classes property_map parents st → c ∉ parents → NoDup parents →
  (∀ p, p ∈ parents → tc (class_dep classes property_map) p c) →
  length classes + 1 ≤ fuel + length parents →
  AddTest_outcome classes property_map parents c st
    (AddTest classes property_map fuel st c parents).
Proof.
  induction fuel as [|fuel IH];
    intros st c parents Hinv Hc Hnd Hpath Hfuel.
  { exfalso. assert (length parents ≤ length classes).
    { apply parents_bound; [done|]. intros p Hp.
      by eapply tc_class_dep_lt, Hpath. }
    simpl in Hfuel. lia. }
  cbn [AddTest]. destruct (class_name_to_object st !! c) as [[o|]|] eqn:Hmemo.
  - simpl. split_and!; [done|apply extends_refl|by exists o].
  - exfalso. by apply Hc, (res_progress _ _ _ _ Hinv).
  - pose proof (dep_classes_of_outcome c) as Hdeps.
    destruct (dep_classes_of classes property_map c) as [l|e|] eqn:Hl;
      simpl; [| |done].
    2:{ destruct e; try done. exists c. by split. }
    set (st1 := {| class_name_to_object := _ |}).
    pose proof (res_inv_mark _ _ parents st c Hinv Hmemo) as Hinv1.
    assert (Hnd1 : NoDup (parents ++ [c])).
    { apply NoDup_app. split_and!; [done| |apply NoDup_singleton].
      by intros x Hx ->%list_elem_of_singleton. }
    assert (Hrec : ∀ st' d,
      res_inv classes property_map (parents ++ [c]) st' →
      d ∉ parents ++ [c] →
      (∀ p, p ∈ parents ++ [c] → tc (class_dep classes property_map) p d) →
      AddTest_outcome classes property_map (parents ++ [c]) d st'
        (AddTest classes property_map fuel st' d (parents ++ [c]))).
    { intros st' d Hinv' Hd Hp. apply IH; [done..|].
      rewrite length_app. simpl. lia. }
    assert (Hpaths : ∀ d p, d ∈ l → p ∈ parents ++ [c] →
      tc (class_dep classes property_map) p d).
    { intros d p Hd [Hp| ->%list_elem_of_singleton]%elem_of_app.
      - eapply tc_r; [by apply Hpath|by exists l].
      - apply tc_once. by exists l. }
    pose proof (deps_loop_outcome _ _ Hrec l st1 [] Hinv1 Hpaths) as Hloop.
    destruct (deps_loop _ _ _ _ _) as [[objs st2]|e|]; simpl; [| |done].
    + destruct Hloop as (Hinv2 & Hext2 & -> & Hdone). simpl.
      assert (Hi : instances st2 !! length (instances st) = Some c).
      { eapply prefix_lookup_Some; [|apply Hext2]. simpl.
        by apply list_lookup_middle. }
      split_and!.
      * by apply res_inv_finish.
      * split; simpl.
        -- intros x ox Hx. assert (x ≠ c) by (intros ->; congruence).
           rewrite lookup_insert_ne by done. apply Hext2. simpl.
           by rewrite lookup_insert_ne.
        -- etrans; [|apply Hext2]. simpl. by apply prefix_app_r.
      * eexists. split; [done|]. by rewrite lookup_insert_eq.
    + destruct e as [| |d ps| | |]; try done.
      * destruct Hloop as (d0 & x & Hd0 & Hr & Hp & Hn). exists x.
        split_and!; [|done..]. eapply rtc_l; [|done]. by exists l.
      * destruct Hloop as (Htc & Hwhere). split; [done|].
        destruct Hwhere
          as [[Hin| ->%list_elem_of_singleton]%elem_of_app|(d0 & Hd0 & Hr)];
          [by left|by right|].
        right. eapply rtc_l; [|done]. by exists l.
Qed.

Lemma instantiate_loop_outcome fuel :
  length classes + 1 ≤ fuel →
  ∀ sel st,
    res_inv classes property_map [] st →
    match instantiate_loop classes property_map fuel sel st with
    | Returned st' =>
        res_inv classes property_map [] st' ∧ extends st st' ∧
        ∀ t, t ∈ sel → ∃ o, class_name_to_object st' !! t = Some (Some o)
    | Raised (CircularDepdendancyException d ps) =>
        tc (class_dep classes property_map) d d ∧
        ∃ t, t ∈ sel ∧ rtc (class_dep classes property_map) t d
    | Raised (MissingPropertyException p) =>
        ∃ t x, t ∈ sel ∧ rtc (class_dep classes property_map) t x ∧
               p ∈ REQUIRES (classes !!! x) ∧ p ∉ dom property_map
    | Raised _ => False
    | OutOfFuel => False
    end.
Proof.
  intros Hfuel. induction sel as [|t sel IH]; intros st Hinv; simpl.
  { split_and!; [done|apply extends_refl|]. intros t []%elem_of_nil. }
  pose proof (AddTest_outcome_spec fuel st t [] Hinv) as Hadd.
  destruct (AddTest classes property_map fuel st t []) as [[obj st1]|e|];
    simpl in *.
  - destruct Hadd as (Hinv1 & Hext1 & o & -> & Ho);
      [by intros []%elem_of_nil|constructor|by intros p []%elem_of_nil|lia|].
    specialize (IH st1 Hinv1).
    destruct (instantiate_loop classes property_map fuel sel st1)
      as [st'|e|]; [| |done].
    + destruct IH as (Hinv' & Hext' & Hdone).
      split_and!; [done|by eapply extends_trans|].
      intros t' [->|Ht']%elem_of_cons; [|by apply Hdone].
      exists o. by apply Hext'.
    + destruct e as [| |d ps| | |]; try done.
      * destruct IH as (t' & x & Ht' & Hr & Hp & Hn).
        exists t', x. split_and!; [by right|done..].
      * destruct IH as (Htc & t' & Ht' & Hr). split; [done|].
        exists t'. split; [by right|done].
  - assert (Hout : AddTest_outcome classes property_map [] t st (Raised e)).
    { apply Hadd; [by intros []%elem_of_nil|constructor
                   |by intros p []%elem_of_nil|lia]. }
    destruct e as [| |d ps| | |]; try done; simpl in Hout.
    + destruct Hout as (x & Hr & Hp & Hn). exists t, x.
      split_and!; [left|done..].
    + destruct Hout as (Htc & [[]%elem_of_nil|Hr]). split; [done|].
      exists t. split; [left|done].
  - apply Hadd; [by intros []%elem_of_nil|constructor
                 |by intros p []%elem_of_nil|lia].
Qed.

End ResolutionOutcomes.

(** In a state reached outside any call of [_AddTest], every instance is the
    object recorded for its class. *)
Lemma res_inv_instance classes property_map st o c :
  res_inv classes property_map [] st →
  instances st !! o = Some c →
  class_name_to_object st !! c = Some (Some o).
Proof.
  intros Hinv Ho. destruct (res_instances _ _ _ _ Hinv) as [Hnd Hdom].
  assert (Hin : c ∈ dom (class_name_to_object st))
    by (apply Hdom; by eapply list_elem_of_lookup_2).
  apply elem_of_dom in Hin as [[o'|] Hc].
  - destruct (res_done _ _ _ _ Hinv c o' Hc) as [Ho' _].
    by rewrite (NoDup_lookup _ _ _ _ Hnd Ho Ho').
  - by apply (res_progress _ _ _ _ Hinv), elem_of_nil in Hc.
Qed.

Lemma res_inv_keys classes property_map st k :
  res_inv classes property_map [] st →
  k ∈ dom (deps_map st) ↔ ∃ o, k = Some o ∧ o < length (instances st).
Proof.
  intros Hinv. split.
  - intros (o & c & -> & Hc)%(res_keys _ _ _ _ Hinv).
    destruct (res_done _ _ _ _ Hinv c o Hc) as [Ho _].
    exists o. split; [done|]. by eapply lookup_lt_Some.
  - intros (o & -> & [c Ho]%lookup_lt_is_Some).
    pose proof (res_inv_instance _ _ _ _ _ Hinv Ho) as Hc.
    destruct (res_done _ _ _ _ Hinv c o Hc) as (_ & l & _ & Hm & _).
    apply elem_of_dom. eauto.
Qed.

(** X6. [_InstantiateTests] ends in one of three ways, whatever the classes
    and the selection: it returns; or it raises
    [CircularDepdendancyException] on a class that is on a cycle and that the
    selection reaches; or it raises [MissingPropertyException] on a property
    without a producer that a class reached by the selection requires. *)
Theorem InstantiateTests_outcomes classes property_map sel :
  match InstantiateTests classes property_map sel with
  | Returned st => ∀ t, t ∈ sel → t ∈ instances st
  | Raised (CircularDepdendancyException d ps) =>
      tc (class_dep classes property_map) d d ∧
      ∃ t, t ∈ sel ∧ rtc (class_dep classes property_map) t d
  | Raised (MissingPropertyException p) =>
      ∃ t x, t ∈ sel ∧ rtc (class_dep classes property_map) t x ∧
             p ∈ REQUIRES (classes !!! x) ∧ p ∉ dom property_map
  | Raised _ => False
  | OutOfFuel => False
  end.
Proof.
  unfold InstantiateTests.
  pose proof (instantiate_loop_outcome classes property_map
                (S (length classes)) ltac:(lia) sel Resolution_init
                (res_inv_init _ _)) as Hspec.
  destruct (instantiate_loop _ _ _ _ _) as [st|e|]; [|done..].
  destruct Hspec as (Hinv & _ & Hdone). intros t Ht.
  destruct (Hdone t Ht) as [o Ho].
  destruct (res_done _ _ _ _ Hinv t o Ho) as [Hi _].
  by eapply list_elem_of_lookup_2.
Qed.

(** X7. When [_InstantiateTests] returns, every class the selection reaches
    has exactly one instance, no class has two, and [deps_map] has one key
    per instance, whose set holds exactly the instances of the classes that
    the key's class depends on. *)
Theorem InstantiateTests_one_instance_per_class classes property_map sel st :
  InstantiateTests classes property_map sel = Returned st →
  NoDup (instances st) ∧
  (∀ t c, t ∈ sel → rtc (class_dep classes property_map) t c →
          c ∈ instances st) ∧
  (∀ k, k ∈ dom (deps_map st) ↔
        ∃ o, k = Some o ∧ o < length (instances st)) ∧
  (∀ o o' c c', instances st !! o = Some c → instances st !! o' = Some c' →
     (depends (deps_map st) (Some o) (Some o') ↔
      class_dep classes property_map c c')).
Proof.
  unfold InstantiateTests. intros Hrun.
  pose proof (instantiate_loop_outcome classes property_map
                (S (length classes)) ltac:(lia) sel Resolution_init
                (res_inv_init _ _)) as Hspec.
  rewrite Hrun in Hspec. destruct Hspec as (Hinv & _ & Hdone).
  split_and!.
  - apply (res_instances _ _ _ _ Hinv).
  - intros t c Ht Hr. destruct (Hdone t Ht) as [o Ho].
    destruct (done_closed_rtc _ _ _ _ _ _ Hinv Hr o Ho) as [oc Hoc].
    destruct (res_done _ _ _ _ Hinv c oc Hoc) as [Hi _].
    by eapply list_elem_of_lookup_2.
  - intros k. by apply (res_inv_keys classes property_map).
  - intros o o' c c' Ho Ho'.
    pose proof (res_inv_instance _ _ _ _ _ Hinv Ho) as Hc.
    pose proof (res_inv_instance _ _ _ _ _ Hinv Ho') as Hc'.
    split; [|by apply (class_dep_depends classes property_map [] st c c')].
    intros Hdep.
    destruct (depends_class_dep _ _ _ _ _ _ Hinv Hdep)
      as (x & y & ox & oy & [= <-] & [= <-] & Hx & Hy & Hxy).
    destruct (res_done _ _ _ _ Hinv x o Hx) as [Hix _].
    destruct (res_done _ _ _ _ Hinv y o' Hy) as [Hiy _].
    by simplify_eq.
Qed.

Lemma InstantiateTests_one_instance_per_class_witness :
  NoDup (instances resolution_diamond) ∧
  (∀ t c, t ∈ [3] →
     rtc (class_dep classes_diamond
            (_property_map (register_all classes_diamond [0; 1; 2; 3]))) t c →
     c ∈ instances resolution_diamond) ∧
  (∀ k, k ∈ dom (deps_map resolution_diamond) ↔
        ∃ o, k = Some o ∧ o < length (instances resolution_diamond)) ∧
  (∀ o o' c c',
     instances resolution_diamond !! o = Some c →
     instances resolution_diamond !! o' = Some c' →
     (depends (deps_map resolution_diamond) (Some o) (Some o') ↔
      class_dep classes_diamond
        (_property_map (register_all classes_diamond [0; 1; 2; 3])) c c')).
Proof.
  apply (InstantiateTests_one_instance_per_class classes_diamond
           (_property_map (register_all classes_diamond [0; 1; 2; 3])) [3]
           resolution_diamond).
  vm_compute. reflexivity.
Defined.

(** X8. When [_InstantiateTests] returns, the sort leaves nothing out of the
    dict it made: the list [_TopologicalSort] returns holds every instance
    exactly once, each after the instances it depends on, whatever order the
    interpreter iterates dicts in and whatever element its sets pop. *)
Theorem InstantiateTests_then_sort_schedules_all
    (classes : list TestClass) (property_map : gmap string nat)
    (sel : list nat) (st : Resolution)
    (iteritems : gmap (option nat) (gset (option nat)) →
                 list (option nat * gset (option nat)))
    (pop : gset (option nat) → option (option nat)) :
  (∀ m, iteritems m ≡ₚ map_to_list m) →
  (∀ s x, pop s = Some x → x ∈ s) →
  (∀ s, s ≠ ∅ → is_Some (pop s)) →
  InstantiateTests classes property_map sel = Returned st →
  ∃ out,
    TopologicalSort iteritems pop (deps_map st) = Returned out ∧
    out ≡ₚ Some <$> seq 0 (length (instances st)) ∧
    ∀ t d, depends (deps_map st) t d → before d t out.
Proof.
  intros Hperm Hpop Hne Hrun. unfold InstantiateTests in Hrun.
  pose proof (instantiate_loop_outcome classes property_map
                (S (length classes)) ltac:(lia) sel Resolution_init
                (res_inv_init _ _)) as Hspec.
  rewrite Hrun in Hspec. destruct Hspec as (Hinv & _ & _).
  pose proof (res_inv_resolved _ _ _ _ Hinv) as Hres.
  pose proof (res_inv_acyclic _ _ _ _ Hinv) as Hacyc.
  destruct (TopologicalSort_spec iteritems pop Hperm Hpop Hne (deps_map st))
    as (out & Hsort & Hnd & Hsub & Hord & _).
  pose proof (TopologicalSort_complete iteritems pop Hperm Hpop Hne
                (deps_map st) out Hres Hacyc Hsort) as Hall.
  exists out. split_and!; [done| |].
  - apply NoDup_Permutation; [done| |].
    + apply (NoDup_fmap_2 _), NoDup_seq.
    + intros k. rewrite list_elem_of_fmap. split.
      * intros (o & -> & Ho)%Hsub%(res_inv_keys classes property_map st _ Hinv).
        exists o. split; [done|]. apply elem_of_seq. lia.
      * intros (o & -> & Ho%elem_of_seq). apply Hall.
        apply (res_inv_keys classes property_map st _ Hinv).
        exists o. split; [done|lia].
  - intros t d Hdep. apply Hord; [|done]. apply Hall.
    destruct Hdep as (ds & Hds & _). apply elem_of_dom. eauto.
Qed.

Lemma InstantiateTests_then_sort_schedules_all_witness :
  ∃ out,
    TopologicalSort iteritems_std pop_first (deps_map resolution_diamond)
    = Returned out ∧
    out ≡ₚ Some <$> seq 0 (length (instances resolution_diamond)) ∧
    ∀ t d, depends (deps_map resolution_diamond) t d → before d t out.
Proof.
  apply (InstantiateTests_then_sort_schedules_all classes_diamond
           (_property_map (register_all classes_diamond [0; 1; 2; 3])) [3]
           resolution_diamond iteritems_std pop_first).
  - apply iteritems_std_perm.
  - apply pop_first_elem.
  - apply pop_first_nonempty.
  - vm_compute. reflexivity.
Defined.

(** X9. When every property required by a selected class, or by a class it
    depends on, has a producer, [_InstantiateTests] raises
    [CircularDepdendancyException] exactly when the selection reaches a
    cycle, and returns exactly when it does not. *)
Theorem InstantiateTests_circular_iff_cycle classes property_map sel :
  (∀ t, t ∈ sel → producers_known classes property_map t) →
  ((∃ d ps, InstantiateTests classes property_map sel
            = Raised (CircularDepdendancyException d ps)) ↔
   (∃ t c, t ∈ sel ∧ rtc (class_dep classes property_map) t c ∧
           tc (class_dep classes property_map) c c)) ∧
  ((∃ st, InstantiateTests classes property_map sel = Returned st) ↔
   ¬ (∃ t c, t ∈ sel ∧ rtc (class_dep classes property_map) t c ∧
             tc (class_dep classes property_map) c c)).
Proof.
  intros Hknown.
  pose proof (instantiate_loop_spec classes property_map
                (S (length classes)) ltac:(lia) sel Resolution_init
                (res_inv_init _ _) Hknown) as Hspec.
  fold (InstantiateTests classes property_map sel) in Hspec.
  split; split.
  - intros (d & ps & Hraise). rewrite Hraise in Hspec.
    destruct Hspec as (d' & ps' & _ & Htc & t & Ht & Hr). by exists t, d'.
  - intros (t & c & Ht & Hr & Htc).
    destruct (InstantiateTests_cycle _ _ _ _ _ Hknown Ht Hr Htc)
      as (d & ps & Hraise & _). by exists d, ps.
  - intros [st Hrun] (t & c & Ht & Hr & Htc).
    destruct (InstantiateTests_cycle _ _ _ _ _ Hknown Ht Hr Htc)
      as (d & ps & Hraise & _). congruence.
  - intros Hno. apply InstantiateTests_returns in Hknown as (st & Hrun & _).
    + by exists st.
    + intros t d Ht Hr Htc. apply Hno. by exists t, d.
Qed.

Lemma InstantiateTests_circular_iff_cycle_witness :
  ((∃ d ps, InstantiateTests classes_cycle
              (_property_map (register_all classes_cycle [0; 1; 2])) [0; 1; 2]
            = Raised (CircularDepdendancyException d ps)) ↔
   (∃ t c, t ∈ [0; 1; 2] ∧
           rtc (class_dep classes_cycle
                  (_property_map (register_all classes_cycle [0; 1; 2])))
               t c ∧
           tc (class_dep classes_cycle
                 (_property_map (register_all classes_cycle [0; 1; 2])))
              c c)) ∧
  ((∃ st, InstantiateTests classes_cycle
            (_property_map (register_all classes_cycle [0; 1; 2])) [0; 1; 2]
          = Returned st) ↔
   ¬ (∃ t c, t ∈ [0; 1; 2] ∧
             rtc (class_dep classes_cycle
                    (_property_map (register_all classes_cycle [0; 1; 2])))
                 t c ∧
             tc (class_dep classes_cycle
                   (_property_map (register_all classes_cycle [0; 1; 2])))
                c c)).
Proof.
  apply (InstantiateTests_circular_iff_cycle classes_cycle
           (_property_map (register_all classes_cycle [0; 1; 2])) [0; 1; 2]).
  intros t _ d _. destruct d as [|[|[|d]]]; [by eexists..|].
  exists []. apply dep_classes_of_unknown. simpl. lia.
Defined.



(** ** More on registration *)

Lemma register_loop_spec test_class provides : ∀ (pm : gmap string nat),
  ∃ pre post pm' r,
    provides = pre ++ post ∧
    register_loop test_class provides pm = (pm', r) ∧
    NoDup pre ∧
    (∀ q, q ∈ pre → (q ∉ dom pm) ∧ pm' !! q = Some test_class) ∧
    (∀ q, q ∉ pre → pm' !! q = pm !! q) ∧
    match r with
    | None => post = []
    | Some e => ∃ dup rest, post = dup :: rest ∧
                            e = DuplicatePropertyException dup ∧
                            (dup ∈ pre ∨ dup ∈ dom pm)
    end.
Proof.
  induction provides as [|p provides IH]; intros pm; simpl.
  { exists [], [], pm, None. split_and!; [done|done|constructor| |done|done].
    by intros q ?%elem_of_nil. }
  destruct (decide (p ∈ dom pm)) as [Hp|Hp].
  { exists [], (p :: provides), pm, (Some (DuplicatePropertyException p)).
    split_and!; [done|done|constructor| |done|].
    - by intros q ?%elem_of_nil.
    - exists p, provides. split_and!; [done..|by right]. }
  destruct (IH (<[p := test_class]> pm))
    as (pre & post & pm' & r & -> & Hrun & Hnd & Hpre & Hother & Hr).
  assert (Hp' : p ∉ pre).
  { intros Hin. apply Hpre in Hin as [Hin _]. apply Hin.
    rewrite dom_insert_L. set_solver. }
  exists (p :: pre), post, pm', r.
  split_and!; [done|done|by constructor|..].
  - intros q [->|Hq]%elem_of_cons.
    + split; [done|]. rewrite Hother by done. by rewrite lookup_insert_eq.
    + destruct (Hpre q Hq) as [Hdom Hq']. split; [|done].
      intros Hin. apply Hdom. rewrite dom_insert_L. set_solver.
  - intros q [Hne Hq]%not_elem_of_cons. rewrite Hother by done.
    by rewrite lookup_insert_ne.
  - destruct r as [e|]; [|done].
    destruct Hr as (dup & rest & -> & -> & Hdup).
    exists dup, rest. split_and!; [done..|].
    destruct Hdup as [Hdup|Hdup]; [left; by right|].
    rewrite dom_insert_L in Hdup.
    apply elem_of_union in Hdup as [->%elem_of_singleton|Hdup];
      [left; left|by right].
Qed.

(** X11. [RegisterTest] returns exactly when the class's [PROVIDES] names no
    property twice and no property that already has a producer; it then
    appends the class to the registered ones and makes it the producer of
    each of its properties, and of nothing else. *)
Theorem RegisterTest_returns_iff classes test_class (self : TestRunner) :
  (NoDup (PROVIDES (classes !!! test_class)) ∧
   ∀ p, p ∈ PROVIDES (classes !!! test_class) → p ∉ dom (_property_map self))
  ↔
  ∃ self',
    RegisterTest classes test_class self = (self', Returned ()) ∧
    _all_tests self' = _all_tests self ++ [test_class] ∧
    (∀ p, p ∈ PROVIDES (classes !!! test_class) →
          _property_map self' !! p = Some test_class) ∧
    (∀ p, p ∉ PROVIDES (classes !!! test_class) →
          _property_map self' !! p = _property_map self !! p).
Proof.
  unfold RegisterTest.
  destruct (register_loop_spec test_class (PROVIDES (classes !!! test_class))
              (_property_map self))
    as (pre & post & pm' & r & Hsplit & -> & Hnd & Hpre & Hother & Hr).
  rewrite Hsplit. destruct r as [e|].
  - destruct Hr as (dup & rest & -> & -> & Hdup). split.
    + intros [Hnd' Hfresh]. exfalso. destruct Hdup as [Hdup|Hdup].
      * apply NoDup_app in Hnd' as (_ & Hdisj & _).
        apply (Hdisj dup Hdup). left.
      * apply (Hfresh dup); [|done]. apply elem_of_app. right. left.
    + by intros (self' & [=] & _).
  - subst post. rewrite app_nil_r. split.
    + intros _. eexists. split_and!; [done|done| |done].
      intros p Hp. by apply Hpre.
    + intros _. split; [done|]. intros p Hp. by apply Hpre.
Qed.

Lemma RegisterTest_returns_iff_witness :
  ∃ self',
    RegisterTest classes_overlap 1 TestRunner_init = (self', Returned ()) ∧
    _all_tests self' = _all_tests TestRunner_init ++ [1] ∧
    (∀ p, p ∈ PROVIDES (classes_overlap !!! 1) →
          _property_map self' !! p = Some 1) ∧
    (∀ p, p ∉ PROVIDES (classes_overlap !!! 1) →
          _property_map self' !! p = _property_map TestRunner_init !! p).
Proof.
  apply (proj1 (RegisterTest_returns_iff classes_overlap 1 TestRunner_init)).
  split.
  - simpl. repeat constructor; set_solver.
  - intros p _. simpl. rewrite dom_empty_L. set_solver.
Defined.

Lemma RegisterTest_preserves_registry classes test_class self :
  registry_ok classes self →
  registry_ok classes (RegisterTest classes test_class self).1.
Proof.
  intros [Hprov Hreg]. unfold RegisterTest.
  destruct (register_loop_spec test_class (PROVIDES (classes !!! test_class))
              (_property_map self))
    as (pre & post & pm' & r & Hsplit & -> & Hnd & Hpre & Hother & Hr).
  assert (Hkeep : ∀ c p, c ∈ _all_tests self →
            p ∈ PROVIDES (classes !!! c) → pm' !! p = Some c).
  { intros c p Hc Hp. specialize (Hreg c p Hc Hp).
    rewrite Hother; [done|]. intros Hin. apply Hpre in Hin as [Hin _].
    apply Hin, elem_of_dom. eauto. }
  assert (Hprov' : ∀ p c, pm' !! p = Some c → p ∈ PROVIDES (classes !!! c)).
  { intros p c Hp. destruct (decide (p ∈ pre)) as [Hin|Hin].
    - destruct (Hpre p Hin) as [_ Hp']. rewrite Hp in Hp'.
      injection Hp' as ->. rewrite Hsplit. apply elem_of_app. by left.
    - rewrite Hother in Hp by done. by apply Hprov. }
  destruct r as [e|]; simpl; (split; [done|]); simpl; [done|].
  subst post. rewrite app_nil_r in Hsplit. subst pre.
  intros c p [Hc| ->%list_elem_of_singleton]%elem_of_app Hp; [by apply Hkeep|].
  by apply Hpre.
Qed.

(** X12. Whatever classes are registered, in whatever order, and whichever
    of the calls fail: the producer map maps a property only to a class that
    provides it, and every property of a class on the list of registered
    classes is still mapped to that class; no later call takes a property
    away from its producer. *)
Theorem register_all_registry_ok classes tests :
  registry_ok classes (register_all classes tests).
Proof.
  unfold register_all.
  assert (Hgen : ∀ self, registry_ok classes self →
    registry_ok classes
      (foldl (λ self test_class, (RegisterTest classes test_class self).1)
             self tests)).
  { induction tests as [|t tests IH]; intros self Hself; [done|]. simpl.
    by apply IH, RegisterTest_preserves_registry. }
  apply Hgen. split; simpl.
  - intros p c. by rewrite lookup_empty.
  - by intros c p ?%elem_of_nil.
Qed.

(** X13. The filter selects, in registration order, the registered classes
    whose name it lists; without a filter all of them are selected. *)
Theorem tests_to_run_selects classes self filter :
  tests_to_run classes self filter `sublist_of` _all_tests self ∧
  ∀ t, t ∈ tests_to_run classes self filter ↔
       t ∈ _all_tests self ∧
       match filter with
       | None => True
       | Some names => __name__ (classes !!! t) ∈ names
       end.
Proof.
  unfold tests_to_run. destruct filter as [names|]; [|split; [done|tauto]].
  induction (_all_tests self) as [|t l [IHs IHe]]; simpl.
  { split; [done|]. intros t. split; [by intros ?%elem_of_nil|].
    by intros [?%elem_of_nil _]. }
  destruct (bool_decide (__name__ (classes !!! t) ∈ names)) eqn:Hb.
  - apply bool_decide_eq_true in Hb. split; [by apply sublist_skip|].
    intros t'. rewrite !elem_of_cons, IHe. naive_solver.
  - apply bool_decide_eq_false in Hb. split; [by apply sublist_cons|].
    intros t'. rewrite elem_of_cons, IHe. naive_solver.
Qed.

(** ** More on the property store *)

(** X14. A property, once set, stays set: after any further sets every name
    that was in the dict is still in it, and the dict holds for a name the
    value of the last set of that name.  Reading the name returns that value
    when normal attribute lookup does not find the name, and the attribute
    that normal lookup finds otherwise. *)
Theorem DeviceProperties_setattrs_last_wins found sets : ∀ self log,
  dom (_properties self)
  ⊆ dom (_properties (DeviceProperties_setattrs sets self log).1) ∧
  ∀ pre p v post,
    sets = pre ++ (p, v) :: post → p ∉ post.*1 →
    _properties (DeviceProperties_setattrs sets self log).1 !! p = Some v ∧
    getattr found (DeviceProperties_setattrs sets self log).1 p
    = Returned (if found p then PyAttribute p else v).
Proof.
  induction sets as [|[q u] sets IH]; intros self log; simpl.
  { split; [done|]. by intros [] ???. }
  destruct (IH {| _property_names := _property_names self;
                  _properties := <[q := u]> (_properties self) |}
               (if decide (q ∈ dom (_properties self))
                then log ++ [Warning_MultipleSets q] else log))
    as [Hdom Hlast].
  split.
  - etrans; [|exact Hdom]. simpl. rewrite dom_insert_L. set_solver.
  - intros pre p v post Hsplit Hp. destruct pre as [|[q' u'] pre].
    + injection Hsplit as -> -> <-.
      assert (Hv : _properties
                (DeviceProperties_setattrs sets
                   {| _property_names := _property_names self;
                      _properties := <[p := v]> (_properties self) |}
                   (if decide (p ∈ dom (_properties self))
                    then log ++ [Warning_MultipleSets p] else log)).1 !! p
              = Some v).
      { rewrite DeviceProperties_setattrs_lookup by done. simpl.
        by rewrite lookup_insert_eq. }
      split; [done|]. unfold getattr. destruct (found p); [done|].
      by apply DeviceProperties_getattr_Some.
    + injection Hsplit as -> -> ->. by eapply Hlast.
Qed.

Lemma DeviceProperties_setattrs_last_wins_witness :
  _properties
    (DeviceProperties_setattrs
       ([("a", PyInt 1)] ++ ("b", PyInt 2) :: [("a", PyInt 3)])
       (DeviceProperties_init ["a"; "b"]) []).1 !! "b" = Some (PyInt 2) ∧
  getattr found_source
    (DeviceProperties_setattrs
       ([("a", PyInt 1)] ++ ("b", PyInt 2) :: [("a", PyInt 3)])
       (DeviceProperties_init ["a"; "b"]) []).1 "b"
  = Returned (if found_source "b" then PyAttribute "b" else PyInt 2).
Proof.
  apply (proj2 (DeviceProperties_setattrs_last_wins found_source
                  ([("a", PyInt 1)] ++ ("b", PyInt 2) :: [("a", PyInt 3)])
                  (DeviceProperties_init ["a"; "b"]) [])
               [("a", PyInt 1)] "b" (PyInt 2) [("a", PyInt 3)]).
  - reflexivity.
  - simpl. set_solver.
Defined.

(** X15. Every set either puts a new name on the store or logs one warning:
    the number of names on the store plus the number of records on the log
    grows by one with each set, and the log is only appended to. *)
Theorem DeviceProperties_setattrs_accounting sets : ∀ self log,
  log `prefix_of` (DeviceProperties_setattrs sets self log).2 ∧
  size (dom (_properties (DeviceProperties_setattrs sets self log).1))
  + length (DeviceProperties_setattrs sets self log).2
  = size (dom (_properties self)) + length log + length sets.
Proof.
  induction sets as [|[q u] sets IH]; intros self log; simpl.
  { split; [done|lia]. }
  destruct (IH {| _property_names := _property_names self;
                  _properties := <[q := u]> (_properties self) |}
               (if decide (q ∈ dom (_properties self))
                then log ++ [Warning_MultipleSets q] else log))
    as [Hpre Hcount].
  split.
  - etrans; [|exact Hpre]. destruct (decide _); [by apply prefix_app_r|done].
  - rewrite Hcount. simpl. rewrite dom_insert_L.
    destruct (decide (q ∈ dom (_properties self))) as [Hq|Hq].
    + rewrite length_app. simpl.
      replace ({[q]} ∪ dom (_properties self)) with (dom (_properties self))
        by set_solver. lia.
    + rewrite size_union by set_solver. rewrite size_singleton. lia.
Qed.

(** ** More on the drain cycle *)

Lemma drain_frame_refl w : drain_frame w w.
Proof. by split_and!. Qed.

Lemma drain_frame_trans w1 w2 w3 :
  drain_frame w1 w2 → drain_frame w2 w3 → drain_frame w1 w3.
Proof.
  intros (?&?&?&?&?&?) (?&?&?&?&?&?). split_and!; try congruence.
  by etrans.
Qed.

Lemma HandleResponse_ends r w :
  _events (wrapper w) = [] → ends_drain (fetcher w) r →
  ∃ w', HandleResponse r w = (w', Returned ()) ∧ stopped w w'.
Proof.
  intros Hev Hend. unfold HandleResponse.
  assert (Hstop : ∀ v, _events (wrapper v) = [] → stopped v (StopIfNoEvents v)).
  { intros v Hv. unfold StopIfNoEvents. rewrite Hv. simpl.
    by split_and!. }
  assert (Hlog : ∀ rec, stopped w (StopIfNoEvents (logging rec w))).
  { intros rec. destruct (Hstop (logging rec w) Hev) as (?&?&?&?&?&?&?&?).
    split_and!; try done. simpl in *. by eapply prefix_app_l. }
  destruct (status_Succeeded r) eqn:Hs; simpl; [|by eexists].
  destruct (decide (response_code r ≠ RDM_COMPLETED_OK)) as [Hc|Hc];
    [by eexists|].
  destruct Hend as [?|[?|Hend]]; [congruence|contradiction|].
  destruct (decide (response_type r = RDM_ACK_TIMER)) as [Ht|Ht].
  { destruct Hend as [(Ht' & _)|(Ht' & _)]; congruence. }
  destruct (decide (response_type r = RDM_NACK_REASON ∧ _)) as [Hn|Hn];
    [eexists; split; [done|by apply Hstop]|].
  destruct Hend as [Hend|(Hty & Hcc & Hpid & Hdata)]; [done|].
  rewrite decide_True by done. rewrite Hdata.
  destruct (decide (queued_messages r ≠ 0%Z)); eexists; (split; [done|]);
    [|by apply Hstop].
  destruct (Hstop w Hev) as (?&?&?&?&?&?&?&?).
  split_and!; try done. simpl. by apply prefix_app_r.
Qed.

(** The four ways [_HandleResponse] ends when nothing is scheduled. *)
Lemma HandleResponse_cases r w :
  _events (wrapper w) = [] →
  (∃ w', HandleResponse r w = (w', Returned ()) ∧ stopped w w') ∨
  (is_ack_timer r ∧
   HandleResponse r w
   = (Reset (AddEvent (ack_timer r) cb_FetchQueuedMessage
               (logging (Debug_AckTimer (ack_timer r)) w)), Returned ())) ∨
  HandleResponse r w = ((FetchQueuedMessage w).1, Returned ()) ∨
  (unpack_failed (fetcher w) r ∧
   HandleResponse r w = (w, Raised (AttributeError "get"))).
Proof.
  intros Hev.
  destruct (status_Succeeded r) eqn:Hs;
    [|left; apply HandleResponse_ends; [done|by left]].
  destruct (decide (response_code r ≠ RDM_COMPLETED_OK)) as [Hc|Hc];
    [left; apply HandleResponse_ends; [done|by right; left]|].
  assert (response_code r = RDM_COMPLETED_OK) as Hc'
    by (destruct (decide (response_code r = RDM_COMPLETED_OK)); done).
  destruct (decide (response_type r = RDM_ACK_TIMER)) as [Ht|Ht].
  { right. left. split; [done|]. by apply HandleResponse_timer. }
  destruct (decide (response_type r = RDM_NACK_REASON ∧
                    nack_reason r = NR_UNKNOWN_PID ∧
                    command_class r = RDM_GET ∧
                    pid r = _queued_message_pid (fetcher w))) as [Hn|Hn].
  { left. apply HandleResponse_ends; [done|]. right. right. by left. }
  destruct (decide (response_type r = RDM_ACK ∧
                    command_class r = RDM_GET ∧
                    pid r = _status_message_pid (fetcher w))) as [Ha|Ha].
  - destruct (unpacked_data r) as [[|m ms]|] eqn:Hdata.
    + left. apply HandleResponse_ends; [done|]. do 3 right.
      by destruct Ha as (?&?&?).
    + right. right. left. apply HandleResponse_more_remain.
      split_and!; [done..|]. right. by exists m, ms.
    + do 3 right. destruct Ha as (?&?&?). split; [done|].
      unfold HandleResponse. rewrite Hs. simpl.
      rewrite decide_False by (intros Hne; by apply Hne).
      rewrite (decide_False (P:=response_type r = RDM_ACK_TIMER)) by done.
      rewrite decide_False by done. rewrite decide_True by done.
      by rewrite Hdata.
  - right. right. left. apply HandleResponse_more_remain.
    split_and!; [done..|]. by left.
Qed.

Lemma unpack_failed_pids f f' r :
  _status_message_pid f' = _status_message_pid f →
  unpack_failed f r → unpack_failed f' r.
Proof. unfold unpack_failed. intros ->. done. Qed.

Section DrainMore.
Variable responder : nat → Response.

(** From a fetch on an idle, running loop with [k] requests left before the
    limit, whatever the answers: the loop ends within [2 * k] iterations,
    having sent at most [k] requests. *)
Lemma Run_loop_bounded k : ∀ fuel u,
  idle u → _quit (wrapper u) = false →
  (_counter (fetcher u) + Z.of_nat k = _limit (fetcher u))%Z →
  2 * k ≤ fuel →
  ∃ w' r,
    Run_loop responder fuel (FetchQueuedMessage u).1 = (w', r) ∧
    answered w' ≤ answered u + k ∧ drain_frame u w' ∧
    (r = Raised (AttributeError "get") ∧
     (∃ n, unpack_failed (fetcher u) (responder n)) ∨
     r = Returned () ∧ _quit (wrapper w') = true ∧ idle w').
Proof.
  induction k as [|k IH]; intros fuel u [Hfl Hev] Hq Hk Hfuel.
  - rewrite FetchQueuedMessage_at_limit by lia.
    rewrite Run_loop_quit by done. eexists _, _. split; [done|].
    split; [simpl; lia|]. split.
    + unfold drain_frame. simpl. split_and!; [done..|by apply prefix_app_r].
    + right. by split_and!.
  - destruct fuel as [|[|fuel]]; [lia..|].
    rewrite FetchQueuedMessage_below_limit by lia.
    rewrite Run_loop_answer; [|done|simpl; lia].
    set (v := take_answer _).
    assert (Hv : idle v ∧ _quit (wrapper v) = false ∧
                 (_counter (fetcher v) + Z.of_nat k = _limit (fetcher v))%Z ∧
                 answered v = S (answered u) ∧ drain_frame u v).
    { subst v. unfold idle, drain_frame. simpl. rewrite Hfl.
      split_and!; try done. lia. }
    destruct Hv as (Hidle & Hqv & Hkv & Hans & Hframe).
    replace (answered (api_Get _).1) with (answered u) by done.
    clearbody v.
    destruct (HandleResponse_cases (responder (answered u)) v)
      as [(w' & -> & Hstop)|[[Htimer ->]|[->|[Hfail ->]]]]; [apply Hidle|..].
    + destruct Hstop as (Hq' & Hev' & Hf' & Hfl' & Hans' & Hdev' & Hran' & Hl).
      rewrite Run_loop_quit by done. eexists _, _. split; [done|].
      split; [lia|]. split.
      * eapply drain_frame_trans; [done|]. unfold drain_frame.
        rewrite Hf'. by split_and!.
      * right. split_and!; [done..|].
        split; [by rewrite Hfl'; apply Hidle|by rewrite Hev'; apply Hidle].
    + erewrite Run_loop_event;
        [|done|by simpl; apply Hidle|by simpl; rewrite (proj2 Hidle)].
      set (v' := set_wrapper _ _).
      destruct (IH fuel v') as (w' & r & -> & Hbound & Hframe' & Hr);
        [by split; [apply Hidle|]|done|done|lia|].
      eexists _, _. split; [done|].
      split; [simpl in *; lia|]. split.
      * eapply drain_frame_trans; [done|].
        eapply drain_frame_trans; [|done].
        unfold drain_frame. simpl.
        split_and!; [done..|by apply prefix_app_r].
      * destruct Hr as [[-> [n Hn]]|Hr]; [left|by right].
        split; [done|]. exists n.
        eapply unpack_failed_pids; [|exact Hn]. symmetry. apply Hframe.
    + destruct (IH (S fuel) v) as (w' & r & -> & Hbound & Hframe' & Hr);
        [done|done|done|lia|].
      eexists _, _. split; [done|]. split; [lia|]. split.
      * by eapply drain_frame_trans.
      * destruct Hr as [[-> [n Hn]]|Hr]; [left|by right].
        split; [done|]. exists n.
        eapply unpack_failed_pids; [|exact Hn]. symmetry. apply Hframe.
    + eexists _, _. split; [done|]. split; [lia|]. split; [done|].
      left. split; [done|]. exists (answered u).
      eapply unpack_failed_pids; [|exact Hfail]. symmetry. apply Hframe.
Qed.

Lemma FetchAllMessages_bounded_aux fuel w :
  (0 ≤ _limit (fetcher w))%Z → idle w →
  2 * Z.to_nat (_limit (fetcher w)) ≤ fuel →
  ∃ w' r,
    FetchAllMessages responder fuel w = (w', r) ∧
    answered w' ≤ answered w + Z.to_nat (_limit (fetcher w)) ∧
    drain_frame w w' ∧
    (r = Raised (AttributeError "get") ∧
     (∃ n, unpack_failed (fetcher w) (responder n)) ∨
     r = Returned () ∧ _quit (wrapper w') = true ∧ idle w').
Proof.
  intros Hlim [Hfl Hev] Hfuel. unfold FetchAllMessages.
  destruct (decide (_limit (fetcher w) = 0%Z)) as [Hz|Hnz].
  - destruct w as [[lim cnt qp sp] [q ev] inf ans lg dev rn].
    simpl in *. subst. unfold FetchQueuedMessage. simpl.
    eexists _, _. split; [done|]. simpl.
    split; [lia|]. split; [|by right].
    unfold drain_frame. simpl. split_and!; [done..|by apply prefix_app_r].
  - pose proof (Run_loop_bounded (Z.to_nat (_limit (fetcher w))) fuel
                  (Reset (set_counter 0 w))) as Hrun.
    destruct w as [[lim cnt qp sp] [q ev] inf ans lg dev rn].
    simpl in *. subst. unfold FetchQueuedMessage in *. simpl in *.
    rewrite decide_False in * by (intros ?; apply Hnz; congruence).
    simpl in *. unfold Run. apply Hrun; [done|done|lia|done].
Qed.

End DrainMore.

(** X16. Whatever the device answers, a drain cycle started on an idle world
    with a limit that is not negative ends, given fuel for twice [limit]
    iterations of the loop: it sends at most [limit] requests, leaves the
    device's properties alone, and either returns with the loop stopped and
    nothing pending or raises the [AttributeError] of a status message
    whose payload did not unpack. *)
Theorem FetchAllMessages_bounded responder fuel w :
  (0 ≤ _limit (fetcher w))%Z → idle w →
  2 * Z.to_nat (_limit (fetcher w)) ≤ fuel →
  ∃ w' r,
    FetchAllMessages responder fuel w = (w', r) ∧
    answered w' ≤ answered w + Z.to_nat (_limit (fetcher w)) ∧
    device w' = device w ∧ ran w' = ran w ∧
    log w `prefix_of` log w' ∧
    (r = Raised (AttributeError "get") ∨
     r = Returned () ∧ _quit (wrapper w') = true ∧ idle w').
Proof.
  intros Hlim Hidle Hfuel.
  destruct (FetchAllMessages_bounded_aux responder fuel w Hlim Hidle Hfuel)
    as (w' & r & Hrun & Hbound & (Hdev & Hran & _ & _ & _ & Hlog) & Hr).
  exists w', r. split_and!; [done..|].
  destruct Hr as [[-> _]|Hr]; [by left|by right].
Qed.

Lemma FetchAllMessages_bounded_witness :
  ∃ w' r,
    FetchAllMessages (λ n, if decide (n < 2) then response_timer
                           else response_empty) 50 (World_init 32 48)
    = (w', r) ∧
    answered w' ≤ answered (World_init 32 48)
                  + Z.to_nat (_limit (fetcher (World_init 32 48))) ∧
    device w' = device (World_init 32 48) ∧
    ran w' = ran (World_init 32 48) ∧
    log (World_init 32 48) `prefix_of` log w' ∧
    (r = Raised (AttributeError "get") ∨
     r = Returned () ∧ _quit (wrapper w') = true ∧ idle w').
Proof.
  apply (FetchAllMessages_bounded
           (λ n, if decide (n < 2) then response_timer else response_empty)
           50 (World_init 32 48)).
  - simpl. lia.
  - done.
  - simpl. lia.
Defined.

Lemma ends_drain_pids f f' r :
  _queued_message_pid f' = _queued_message_pid f →
  _status_message_pid f' = _status_message_pid f →
  ends_drain f r → ends_drain f' r.
Proof. unfold ends_drain. intros -> ->. done. Qed.

(** From a fetch on an idle, running loop: [n] answers that are timers or
    say that more remain, then one that ends the drain cycle, the limit being
    far enough. *)
Lemma Run_loop_until_end responder n : ∀ fuel u,
  idle u → _quit (wrapper u) = false →
  (_counter (fetcher u) + Z.of_nat n < _limit (fetcher u))%Z →
  (∀ i, i < n →
        more_remain (fetcher u) (responder (answered u + i)) ∨
        is_ack_timer (responder (answered u + i))) →
  ends_drain (fetcher u) (responder (answered u + n)) →
  2 * n + 1 ≤ fuel →
  ∃ w',
    Run_loop responder fuel (FetchQueuedMessage u).1 = (w', Returned ()) ∧
    answered w' = answered u + n + 1 ∧
    _counter (fetcher w') = (_counter (fetcher u) + Z.of_nat n + 1)%Z ∧
    _quit (wrapper w') = true ∧ idle w' ∧ drain_frame u w'.
Proof.
  induction n as [|n IH]; intros fuel u [Hfl Hev] Hq Hk Hresp Hend Hfuel.
  - destruct fuel as [|fuel]; [lia|].
    rewrite FetchQueuedMessage_below_limit by lia.
    rewrite Run_loop_answer; [|done|simpl; lia].
    set (v := take_answer _).
    assert (Hv : idle v ∧
                 _counter (fetcher v) = (_counter (fetcher u) + 1)%Z ∧
                 _queued_message_pid (fetcher v)
                 = _queued_message_pid (fetcher u) ∧
                 _status_message_pid (fetcher v)
                 = _status_message_pid (fetcher u) ∧
                 answered v = S (answered u) ∧ drain_frame u v).
    { subst v. unfold idle, drain_frame. simpl. rewrite Hfl.
      by split_and!. }
    destruct Hv as (Hidle & Hcv & Hqp & Hsp & Hans & Hframe).
    replace (answered (api_Get _).1) with (answered u) by done.
    clearbody v. rewrite Nat.add_0_r in Hend.
    destruct (HandleResponse_ends (responder (answered u)) v)
      as (w' & -> & Hq' & Hev' & Hf' & Hfl' & Hans' & Hdev' & Hran' & Hl);
      [apply Hidle|by eapply ends_drain_pids|].
    rewrite Run_loop_quit by done.
    exists w'. split; [done|]. rewrite Hf'.
    split_and!; [lia|lia|done| |].
    + split; [by rewrite Hfl'; apply Hidle|by rewrite Hev'; apply Hidle].
    + eapply drain_frame_trans; [done|]. unfold drain_frame.
      rewrite Hf'. by split_and!.
  - destruct fuel as [|[|fuel]]; [lia..|].
    rewrite FetchQueuedMessage_below_limit by lia.
    rewrite Run_loop_answer; [|done|simpl; lia].
    set (v := take_answer _).
    assert (Hv : idle v ∧ _quit (wrapper v) = false ∧
                 _counter (fetcher v) = (_counter (fetcher u) + 1)%Z ∧
                 _limit (fetcher v) = _limit (fetcher u) ∧
                 _queued_message_pid (fetcher v)
                 = _queued_message_pid (fetcher u) ∧
                 _status_message_pid (fetcher v)
                 = _status_message_pid (fetcher u) ∧
                 answered v = S (answered u) ∧ drain_frame u v).
    { subst v. unfold idle, drain_frame. simpl. rewrite Hfl.
      by split_and!. }
    destruct Hv as (Hidle & Hqv & Hcv & Hlv & Hqp & Hsp & Hans & Hframe).
    replace (answered (api_Get _).1) with (answered u) by done.
    clearbody v.
    assert (Hresp' : ∀ (f : QueuedMessageFetcher) i,
      _queued_message_pid f = _queued_message_pid (fetcher u) →
      _status_message_pid f = _status_message_pid (fetcher u) →
      i < n →
      more_remain f (responder (answered v + i)) ∨
      is_ack_timer (responder (answered v + i))).
    { intros f i Hq1 Hs1 Hi. rewrite Hans.
      replace (S (answered u) + i) with (answered u + S i) by lia.
      destruct (Hresp (S i)) as [Hm|Ht]; [lia| |by right].
      left. by eapply more_remain_pids. }
    assert (Hend' : ∀ f : QueuedMessageFetcher,
      _queued_message_pid f = _queued_message_pid (fetcher u) →
      _status_message_pid f = _status_message_pid (fetcher u) →
      ends_drain f (responder (answered v + n))).
    { intros f Hq1 Hs1. rewrite Hans.
      replace (S (answered u) + n) with (answered u + S n) by lia.
      by eapply ends_drain_pids. }
    destruct (Hresp 0) as [Hmore|Htimer]; [lia|..];
      rewrite Nat.add_0_r in *.
    + rewrite HandleResponse_more_remain
        by (eapply more_remain_pids; [..|exact Hmore]; done).
      destruct (IH (S fuel) v) as (w' & -> & Ha & Hc & Hq' & Hi' & Hf');
        [done|done|lia|by intros i Hi; apply Hresp'|by apply Hend'|lia|].
      exists w'. split_and!; [done|lia|lia|done|done|].
      by eapply drain_frame_trans.
    + rewrite HandleResponse_timer by done.
      erewrite Run_loop_event;
        [|done|by simpl; apply Hidle|by simpl; rewrite (proj2 Hidle)].
      set (v' := set_wrapper _ _).
      destruct (IH fuel v') as (w' & -> & Ha & Hc & Hq' & Hi' & Hf');
        [by split; [apply Hidle|]|done|simpl; lia
        |by intros i Hi; apply Hresp'|by apply Hend'|lia|].
      exists w'. simpl in *. split_and!; [done|lia|lia|done|done|].
      eapply drain_frame_trans; [done|].
      eapply drain_frame_trans; [|done].
      unfold drain_frame. simpl. split_and!; [done..|by apply prefix_app_r].
Qed.

(** X17. A drain cycle answered by [n] timers or "more remain" answers and
    then by an answer that ends it, with [n] below the limit, sends exactly
    [n + 1] requests and returns with the loop stopped: below the limit,
    timers and further messages delay the end of the cycle and nothing
    else. *)
Theorem FetchAllMessages_ends_after responder fuel w n :
  idle w → (Z.of_nat n < _limit (fetcher w))%Z →
  (∀ i, i < n →
        more_remain (fetcher w) (responder (answered w + i)) ∨
        is_ack_timer (responder (answered w + i))) →
  ends_drain (fetcher w) (responder (answered w + n)) →
  2 * n + 1 ≤ fuel →
  ∃ w',
    FetchAllMessages responder fuel w = (w', Returned ()) ∧
    answered w' = answered w + n + 1 ∧
    _counter (fetcher w') = (Z.of_nat n + 1)%Z ∧
    _quit (wrapper w') = true ∧ idle w' ∧
    device w' = device w ∧ ran w' = ran w.
Proof.
  intros [Hfl Hev] Hlim Hresp Hend Hfuel. unfold FetchAllMessages.
  pose proof (Run_loop_until_end responder n fuel
                (Reset (set_counter 0 w))) as Hrun.
  destruct w as [[lim cnt qp sp] [q ev] inf ans lg dev rn].
  simpl in *. subst. unfold FetchQueuedMessage in *. simpl in *.
  rewrite decide_False in * by lia. simpl in *. unfold Run.
  destruct Hrun as (w' & Heq & Ha & Hc & Hq & Hi & Hd & Hr & _);
    [done|done|lia|done|done|done|].
  exists w'. split; [exact Heq|]. by split_and!.
Qed.

Lemma FetchAllMessages_ends_after_witness :
  ∃ w',
    FetchAllMessages (λ n, if decide (n < 2) then response_timer
                           else response_empty) 50 (World_init 32 48)
    = (w', Returned ()) ∧
    answered w' = answered (World_init 32 48) + 2 + 1 ∧
    _counter (fetcher w') = (Z.of_nat 2 + 1)%Z ∧
    _quit (wrapper w') = true ∧ idle w' ∧
    device w' = device (World_init 32 48) ∧
    ran w' = ran (World_init 32 48).
Proof.
  apply (FetchAllMessages_ends_after
           (λ n, if decide (n < 2) then response_timer else response_empty)
           50 (World_init 32 48) 2).
  - done.
  - simpl. lia.
  - intros i Hi. right. simpl. rewrite decide_True by done.
    apply response_timer_is_ack_timer.
  - simpl. do 3 right. by split_and!.
  - lia.
Defined.

(** ** More on the run loop *)

Lemma run_loop_returns responder classes found fuel instances : ∀ tests w,
  (0 ≤ _limit (fetcher w))%Z → idle w →
  (∀ n, ¬ unpack_failed (fetcher w) (responder n)) →
  Forall (λ test, is_Some (test ≫= (instances !!.))) tests →
  2 * Z.to_nat (_limit (fetcher w)) ≤ fuel →
  ∃ w',
    run_loop responder classes found fuel instances tests w
    = (w', Returned ()) ∧
    ran w' = ran w ++ executed classes found instances tests (device w) ∧
    answered w'
    ≤ answered w + length tests * Z.to_nat (_limit (fetcher w)) ∧
    log w `prefix_of` log w'.
Proof.
  induction tests as [|test tests IH]; intros w Hlim Hidle Hresp Hvalid Hfuel.
  { exists w. simpl. rewrite app_nil_r. split_and!; [done..|lia|done]. }
  apply Forall_cons in Hvalid as [[c Hc] Hvalid].
  cbn [run_loop executed].
  destruct (FetchAllMessages_bounded_aux responder fuel w Hlim Hidle Hfuel)
    as (w1 & r & -> & Hbound & Hframe & Hr).
  destruct Hr as [[_ [n Hn]]|(-> & Hq1 & Hidle1)]; [by destruct (Hresp n)|].
  destruct Hframe as (Hdev & Hran & Hl & _ & Hsp & Hlog).
  assert (Hresp1 : ∀ f : QueuedMessageFetcher,
    _status_message_pid f = _status_message_pid (fetcher w1) →
    ∀ n, ¬ unpack_failed f (responder n)).
  { intros f Hf n Hn. apply (Hresp n).
    eapply unpack_failed_pids; [|exact Hn]. congruence. }
  unfold class_of. rewrite Hc.
  assert (Hdev1 : device (logging (Debug_Test test) w1) = device w) by done.
  rewrite Hdev1.
  destruct (requires_check_returns found (device w) (REQUIRES (classes !!! c)))
    as [[property|] ->].
  - destruct (IH (logging (Debug_PropertyNotFound property)
                    (logging (Debug_Test test) w1)))
      as (w' & -> & Hran' & Hans & Hlog');
      [simpl; by rewrite Hl|done|by apply Hresp1|done|simpl; by rewrite Hl|].
    exists w'. simpl in *. rewrite Hl in Hans.
    split_and!; [done|congruence|lia|].
    etrans; [done|]. etrans; [|done]. rewrite <-(assoc_L (++)).
    by apply prefix_app_r.
  - destruct (IH (logging (Info_TestState test)
                    (test_Run (classes !!! c) test
                       (logging (Debug_Test test) w1))))
      as (w' & -> & Hran' & Hans & Hlog');
      [simpl; by rewrite Hl|done|by apply Hresp1|done|simpl; by rewrite Hl|].
    exists w'. simpl in *. rewrite Hl in Hans. split_and!; [done| |lia|].
    + rewrite Hran', Hran, Hdev. rewrite <-(assoc_L (++)). simpl.
      by rewrite (DeviceProperties_setattrs_log _ _ (_ ++ _)).
    + etrans; [done|]. etrans; [|done].
      destruct (DeviceProperties_setattrs_accounting (BODY (classes !!! c))
                  (device w1) (log w1 ++ [Debug_Test test])) as [Hp _].
      etrans; [|by apply prefix_app_r]. etrans; [|done].
      by apply prefix_app_r.
Qed.

(** X18. Whatever the device answers, as long as its status messages
    unpack, the loop of [RunTests] goes through the whole schedule and
    returns: the instances that run are exactly those whose required
    properties [getattr] can read from the device when their turn comes
    (from the dict, or as attributes that normal lookup finds), at most
    [limit] requests are sent per instance, and the log is only appended
    to. *)
Theorem run_loop_runs_executed responder classes found fuel instances tests
    w :
  (0 ≤ _limit (fetcher w))%Z → idle w →
  (∀ n, ¬ unpack_failed (fetcher w) (responder n)) →
  Forall (λ test, is_Some (test ≫= (instances !!.))) tests →
  2 * Z.to_nat (_limit (fetcher w)) ≤ fuel →
  ∃ w',
    run_loop responder classes found fuel instances tests w
    = (w', Returned ()) ∧
    ran w' = ran w ++ executed classes found instances tests (device w) ∧
    answered w'
    ≤ answered w + length tests * Z.to_nat (_limit (fetcher w)) ∧
    log w `prefix_of` log w'.
Proof. apply run_loop_returns. Qed.

Lemma run_loop_runs_executed_witness :
  ∃ w',
    run_loop (λ n, if decide (n < 2) then response_timer else response_empty)
             classes_plain found_source 50 [1; 0] [Some 0; Some 1]
             (World_init 32 48)
    = (w', Returned ()) ∧
    ran w' = ran (World_init 32 48)
             ++ executed classes_plain found_source [1; 0] [Some 0; Some 1]
                         (device (World_init 32 48)) ∧
    answered w'
    ≤ answered (World_init 32 48)
      + length [Some 0; Some 1]
        * Z.to_nat (_limit (fetcher (World_init 32 48))) ∧
    log (World_init 32 48) `prefix_of` log w'.
Proof.
  apply (run_loop_runs_executed
           (λ n, if decide (n < 2) then response_timer else response_empty)
           classes_plain found_source 50 [1; 0] [Some 0; Some 1]
           (World_init 32 48)).
  - simpl. lia.
  - done.
  - intros n (_ & _ & Hty & _ & _ & Hdata).
    by destruct (decide (n < 2)).
  - repeat constructor; by eexists.
  - simpl. lia.
Defined.

Lemma getattr_readable found device property :
  readable found device property →
  ∃ v, getattr found device property = Returned v.
Proof.
  intros [Hf|Hd]; [exists (PyAttribute property); by apply getattr_found|].
  unfold getattr. destruct (found property); [by eexists|].
  apply elem_of_dom in Hd as [v Hv]. exists v.
  by apply DeviceProperties_getattr_Some.
Qed.

Lemma getattr_not_readable found device property :
  ¬ readable found device property →
  getattr found device property = Raised (AttributeError property).
Proof.
  intros Hn. rewrite getattr_not_found.
  - apply DeviceProperties_getattr_None, not_elem_of_dom.
    intros Hd. apply Hn. by right.
  - destruct (found property) eqn:Hf; [|done]. exfalso. apply Hn. by left.
Qed.

Lemma readable_dec found device property :
  readable found device property ∨ ¬ readable found device property.
Proof.
  unfold readable. destruct (found property);
    destruct (decide (property ∈ dom (_properties device))); naive_solver.
Qed.

(** X19. The skip decision of [RunTests]: the check of the required
    properties passes exactly when [getattr] can read each of them, from the
    dict or as an attribute that normal lookup finds, and the property it
    names otherwise is the first one that can not be read. *)
Theorem requires_check_first_missing found device requires :
  (requires_check found device requires = Returned None ↔
   ∀ p, p ∈ requires → readable found device p) ∧
  (∀ p, requires_check found device requires = Returned (Some p) ↔
        ∃ pre post, requires = pre ++ p :: post ∧
                    (∀ q, q ∈ pre → readable found device q) ∧
                    ¬ readable found device p).
Proof.
  induction requires as [|q requires [IHn IHs]]; simpl.
  { split; [split; [by intros _ p ?%elem_of_nil|done]|].
    intros p. split; [done|]. by intros ([] & ? & ? & _). }
  destruct (readable_dec found device q) as [Hq|Hq].
  - destruct (getattr_readable found device q Hq) as [v ->]. split.
    + rewrite IHn. split.
      * intros Hall p [->|Hp]%elem_of_cons; auto.
      * intros Hall p Hp. apply Hall. by right.
    + intros p. rewrite IHs. split.
      * intros (pre & post & -> & Hpre & Hp).
        exists (q :: pre), post. split_and!; [done| |done].
        intros q' [->|Hq'']%elem_of_cons; auto.
      * intros (pre & post & Hsplit & Hpre & Hp).
        destruct pre as [|q' pre]; [by injection Hsplit as -> _|].
        injection Hsplit as -> ->. exists pre, post.
        split_and!; [done| |done]. intros q'' Hq''. apply Hpre. by right.
  - rewrite getattr_not_readable by done. split.
    + split; [done|]. intros Hall. exfalso. apply Hq, Hall. left.
    + intros p. split.
      * intros [= <-]. exists [], requires. split_and!; [done| |done].
        by intros ? ?%elem_of_nil.
      * intros (pre & post & Hsplit & Hpre & Hp).
        destruct pre as [|q' pre]; [by injection Hsplit as ->|].
        injection Hsplit as -> _. exfalso. apply Hq, Hpre. left.
Qed.

(** X23. A required property that normal attribute lookup finds on the
    device never makes [RunTests] skip a test, set or not: the check passes
    on every device when each required name is one that the file itself
    defines on [DeviceProperties], such as [_properties] or [__doc__]. *)
Theorem requires_check_attribute_names found device requires :
  lookup_sound found →
  (∀ p, p ∈ requires → p ∈ DeviceProperties_attributes) →
  requires_check found device requires = Returned None.
Proof.
  intros Hsound. induction requires as [|p requires IH]; intros Hall;
    [done|]. simpl.
  rewrite getattr_found by (apply Hsound, Hall; left).
  apply IH. intros q Hq. apply Hall. by right.
Qed.

Lemma requires_check_attribute_names_witness :
  requires_check found_source (DeviceProperties_init []) ["__doc__"]
  = Returned None.
Proof.
  apply (requires_check_attribute_names found_source
           (DeviceProperties_init []) ["__doc__"]).
  - intros name Hname. by apply bool_decide_eq_true.
  - intros p ->%list_elem_of_singleton. set_solver.
Defined.

(** The same on a whole run: R requires [__doc__], which P provides and
    never sets; both instances run. *)
Lemma RunTests_runs_test_requiring_doc :
  ∃ w',
    RunTests (λ _, response_empty) classes_doc iteritems_std pop_first
             found_source 50 (register_all classes_doc [0; 1]) None
             (World_init 32 48)
    = (w', Returned [Some 0; Some 1]) ∧
    ran w' = [Some 0; Some 1].
Proof. eexists. split; [vm_compute; reflexivity|done]. Qed.

(** The instances [executed] lists are taken from the schedule in its
    order, and an instance of a class that requires nothing is among them. *)
Lemma executed_sublist classes found instances tests : ∀ device,
  executed classes found instances tests device `sublist_of` tests ∧
  (Forall (λ test, is_Some (test ≫= (instances !!.))) tests →
   ∀ o c, Some o ∈ tests → instances !! o = Some c →
          REQUIRES (classes !!! c) = [] →
          Some o ∈ executed classes found instances tests device).
Proof.
  induction tests as [|test tests IH]; intros device; simpl.
  { split; [done|]. by intros _ o c ?%elem_of_nil. }
  unfold class_of. destruct (test ≫= (instances !!.)) as [c|] eqn:Hc.
  - destruct (requires_check_returns found device (REQUIRES (classes !!! c)))
      as [[property|] Hcheck]; rewrite Hcheck.
    + destruct (IH device) as [Hsub Hrun]. split; [by apply sublist_cons|].
      intros [_ Hvalid]%Forall_cons o c' [Heq|Ho]%elem_of_cons Hi Hreq;
        [|by eapply Hrun].
      subst test. assert (c = c') as -> by (simpl in Hc; congruence).
      by rewrite Hreq in Hcheck.
    + destruct (IH (DeviceProperties_setattrs (BODY (classes !!! c))
                      device []).1) as [Hsub Hrun].
      split; [by apply sublist_skip|].
      intros [_ Hvalid]%Forall_cons o c' [Heq|Ho]%elem_of_cons Hi Hreq;
        [subst test; left|right; by eapply Hrun].
  - split; [apply sublist_nil_l|].
    intros [[? ?] _]%Forall_cons. congruence.
Qed.

(** X20. Under the conditions of X18 the instances that run are taken from
    the schedule in its order, and an instance of a class that requires
    nothing always runs. *)
Theorem run_loop_runs_in_order responder classes found fuel instances tests
    w :
  (0 ≤ _limit (fetcher w))%Z → idle w →
  (∀ n, ¬ unpack_failed (fetcher w) (responder n)) →
  Forall (λ test, is_Some (test ≫= (instances !!.))) tests →
  2 * Z.to_nat (_limit (fetcher w)) ≤ fuel →
  ∃ w' l,
    run_loop responder classes found fuel instances tests w
    = (w', Returned ()) ∧
    ran w' = ran w ++ l ∧ l `sublist_of` tests ∧
    ∀ o c, Some o ∈ tests → instances !! o = Some c →
           REQUIRES (classes !!! c) = [] → Some o ∈ l.
Proof.
  intros Hlim Hidle Hresp Hvalid Hfuel.
  destruct (run_loop_returns responder classes found fuel instances tests w)
    as (w' & Hrun & Hran & _); [done..|].
  destruct (executed_sublist classes found instances tests (device w))
    as [Hsub Hin].
  exists w', (executed classes found instances tests (device w)).
  split_and!; [done..|]. by apply Hin.
Qed.

Lemma run_loop_runs_in_order_witness :
  ∃ w' l,
    run_loop (λ n, if decide (n < 2) then response_timer else response_empty)
             classes_plain found_source 50 [1; 0] [Some 0; Some 1]
             (World_init 32 48)
    = (w', Returned ()) ∧
    ran w' = ran (World_init 32 48) ++ l ∧
    l `sublist_of` [Some 0; Some 1] ∧
    ∀ o c, Some o ∈ [Some 0; Some 1] → [1; 0] !! o = Some c →
           REQUIRES (classes_plain !!! c) = [] → Some o ∈ l.
Proof.
  apply (run_loop_runs_in_order
           (λ n, if decide (n < 2) then response_timer else response_empty)
           classes_plain found_source 50 [1; 0] [Some 0; Some 1]
           (World_init 32 48)).
  - simpl. lia.
  - done.
  - intros n (_ & _ & Hty & _ & _ & Hdata).
    by destruct (decide (n < 2)).
  - repeat constructor; by eexists.
  - simpl. lia.
Defined.

(** ** The whole run *)

Lemma res_inv_sort (classes : list TestClass)
    (property_map : gmap string nat) (st : Resolution)
    (iteritems : gmap (option nat) (gset (option nat)) →
                 list (option nat * gset (option nat)))
    (pop : gset (option nat) → option (option nat)) :
  (∀ m, iteritems m ≡ₚ map_to_list m) →
  (∀ s x, pop s = Some x → x ∈ s) →
  (∀ s, s ≠ ∅ → is_Some (pop s)) →
  res_inv classes property_map [] st →
  ∃ out,
    TopologicalSort iteritems pop (deps_map st) = Returned out ∧
    out ≡ₚ Some <$> seq 0 (length (instances st)) ∧
    ∀ t d, depends (deps_map st) t d → before d t out.
Proof.
  intros Hperm Hpop Hne Hinv.
  pose proof (res_inv_resolved _ _ _ _ Hinv) as Hres.
  pose proof (res_inv_acyclic _ _ _ _ Hinv) as Hacyc.
  destruct (TopologicalSort_spec iteritems pop Hperm Hpop Hne (deps_map st))
    as (out & Hsort & Hnd & Hsub & Hord & _).
  pose proof (TopologicalSort_complete iteritems pop Hperm Hpop Hne
                (deps_map st) out Hres Hacyc Hsort) as Hall.
  exists out. split_and!; [done| |].
  - apply NoDup_Permutation; [done| |].
    + apply (NoDup_fmap_2 _), NoDup_seq.
    + intros k. rewrite list_elem_of_fmap. split.
      * intros (o & -> & Ho)%Hsub%(res_inv_keys classes property_map st _ Hinv).
        exists o. split; [done|]. apply elem_of_seq. lia.
      * intros (o & -> & Ho%elem_of_seq). apply Hall.
        apply (res_inv_keys classes property_map st _ Hinv).
        exists o. split; [done|lia].
  - intros t d Hdep. apply Hord; [|done]. apply Hall.
    destruct Hdep as (ds & Hds & _). apply elem_of_dom. eauto.
Qed.

(** X21. A run whose selection resolves, on a device whose status messages
    unpack: [RunTests] returns the schedule, which holds every instance once,
    each after the instances it depends on; the instances that ran are those
    of the schedule whose required properties [getattr] could read from the
    device at their turn, from the dict or as attributes that normal lookup
    finds; and at most [limit] requests were sent per instance. *)
Theorem RunTests_runs_schedule (responder : nat → Response)
    (classes : list TestClass)
    (iteritems : gmap (option nat) (gset (option nat)) →
                 list (option nat * gset (option nat)))
    (pop : gset (option nat) → option (option nat))
    (found : string → bool)
    (fuel : nat) (self : TestRunner) (filter : option (list string))
    (w : World) (st : Resolution) :
  (∀ m, iteritems m ≡ₚ map_to_list m) →
  (∀ s x, pop s = Some x → x ∈ s) →
  (∀ s, s ≠ ∅ → is_Some (pop s)) →
  InstantiateTests classes (_property_map self)
                   (tests_to_run classes self filter) = Returned st →
  (0 ≤ _limit (fetcher w))%Z → idle w →
  (∀ n, ¬ unpack_failed (fetcher w) (responder n)) →
  2 * Z.to_nat (_limit (fetcher w)) ≤ fuel →
  ∃ w' out,
    RunTests responder classes iteritems pop found fuel self filter w
    = (w', Returned out) ∧
    out ≡ₚ Some <$> seq 0 (length (instances st)) ∧
    (∀ t d, depends (deps_map st) t d → before d t out) ∧
    ran w' = ran w ++ executed classes found (instances st) out
                        (DeviceProperties_init
                           (map_to_list (_property_map self)).*1) ∧
    answered w'
    ≤ answered w + length (instances st) * Z.to_nat (_limit (fetcher w)).
Proof.
  intros Hperm Hpop Hne Hrun Hlim Hidle Hresp Hfuel.
  unfold RunTests. rewrite Hrun. unfold InstantiateTests in Hrun.
  pose proof (instantiate_loop_outcome classes (_property_map self)
                (S (length classes)) ltac:(lia)
                (tests_to_run classes self filter) Resolution_init
                (res_inv_init _ _)) as Hspec.
  rewrite Hrun in Hspec. destruct Hspec as (Hinv & _ & _).
  destruct (res_inv_sort _ _ st iteritems pop Hperm Hpop Hne Hinv)
    as (out & -> & Hout & Hord).
  set (w0 := logging _ _).
  destruct (run_loop_returns responder classes found fuel (instances st) out
              w0)
    as (w' & -> & Hran & Hans & _); [done|done|done| |done|].
  { apply Forall_forall. intros t Ht. rewrite Hout in Ht.
    apply list_elem_of_fmap in Ht as (o & -> & Ho%elem_of_seq).
    apply lookup_lt_is_Some. simpl. lia. }
  exists w', out. split_and!; [done..|].
  rewrite Hans. simpl. by rewrite Hout, length_fmap, length_seq.
Qed.

Lemma RunTests_runs_schedule_witness :
  ∃ w' out,
    RunTests (λ n, if decide (n < 2) then response_timer else response_empty)
             classes_diamond iteritems_std pop_first found_source 50
             (register_all classes_diamond [0; 1; 2; 3]) (Some ["C"])
             (World_init 32 48)
    = (w', Returned out) ∧
    out ≡ₚ Some <$> seq 0 (length (instances resolution_diamond)) ∧
    (∀ t d, depends (deps_map resolution_diamond) t d → before d t out) ∧
    ran w' = ran (World_init 32 48)
             ++ executed classes_diamond found_source
                  (instances resolution_diamond) out
                  (DeviceProperties_init
                     (map_to_list
                        (_property_map
                           (register_all classes_diamond [0; 1; 2; 3]))).*1) ∧
    answered w'
    ≤ answered (World_init 32 48)
      + length (instances resolution_diamond)
        * Z.to_nat (_limit (fetcher (World_init 32 48))).
Proof.
  apply (RunTests_runs_schedule
           (λ n, if decide (n < 2) then response_timer else response_empty)
           classes_diamond iteritems_std pop_first found_source 50
           (register_all classes_diamond [0; 1; 2; 3]) (Some ["C"])
           (World_init 32 48) resolution_diamond).
  - apply iteritems_std_perm.
  - apply pop_first_elem.
  - apply pop_first_nonempty.
  - vm_compute. reflexivity.
  - simpl. lia.
  - done.
  - intros n (_ & _ & Hty & _ & _ & Hdata).
    by destruct (decide (n < 2)).
  - simpl. lia.
Defined.

(** ** The counter and the limit *)

Lemma Run_loop_unbounded responder fuel : ∀ u,
  _quit (wrapper u) = false → in_flight u = 1 → _events (wrapper u) = [] →
  (_limit (fetcher u) < _counter (fetcher u))%Z →
  (∀ n, answered u ≤ n → more_remain (fetcher u) (responder n)) →
  ∃ w',
    Run_loop responder fuel u = (w', OutOfFuel) ∧
    answered w' = answered u + fuel.
Proof.
  induction fuel as [|fuel IH]; intros u Hq Hfl Hev Hc Hresp.
  { exists u. simpl. rewrite Hq. split; [done|lia]. }
  rewrite Run_loop_answer; [|done|lia].
  rewrite HandleResponse_more_remain by by apply Hresp.
  rewrite FetchQueuedMessage_below_limit by (simpl; lia).
  destruct (IH (api_Get (set_counter
                  (_counter (fetcher (take_answer u)) + 1)
                  (take_answer u))).1) as (w' & -> & Hans).
  - done.
  - simpl. by rewrite Hfl.
  - done.
  - simpl. lia.
  - intros n Hn. simpl in Hn.
    eapply more_remain_pids; [..|apply Hresp]; [done..|lia].
  - exists w'. split; [done|]. rewrite Hans. simpl. lia.
Qed.

(** X22. The loop guard compares the counter with the limit for equality
    only: with a negative limit and a device that always has more messages,
    a drain cycle never ends; however many iterations the loop is given, it
    uses them all, one request each. *)
Theorem FetchAllMessages_negative_limit_unbounded responder w :
  (_limit (fetcher w) < 0)%Z → idle w →
  (∀ n, answered w ≤ n → more_remain (fetcher w) (responder n)) →
  ∀ fuel, ∃ w',
    FetchAllMessages responder fuel w = (w', OutOfFuel) ∧
    answered w' = answered w + fuel.
Proof.
  intros Hlim [Hfl Hev] Hresp fuel. unfold FetchAllMessages.
  pose proof (Run_loop_unbounded responder fuel
                (Reset (api_Get (set_counter 1 w)).1)) as Hrun.
  destruct w as [[lim cnt qp sp] [q ev] inf ans lg dev rn].
  simpl in *. subst. unfold FetchQueuedMessage. simpl.
  rewrite decide_False by lia. simpl. unfold Run.
  destruct Hrun as (w' & Heq & Hans); [done|done|done|lia|done|].
  exists w'. split; [exact Heq|done].
Qed.

Lemma FetchAllMessages_negative_limit_unbounded_witness :
  ∃ w',
    FetchAllMessages (λ _, response_more) 40 World_negative_limit
    = (w', OutOfFuel) ∧
    answered w' = answered World_negative_limit + 40.
Proof.
  apply (FetchAllMessages_negative_limit_unbounded (λ _, response_more)
           World_negative_limit).
  - simpl. lia.
  - done.
  - intros n _. split_and!; [done..| |].
    + intros (_ & [=] & _).
    + left. intros ([=] & _).
Defined.
